(** * The market-data relay's data plane: model and verification

    The first part embeds the Go packages of the relay, one module each:

    - [Types]     : [relay/pkg/types] (price levels, snapshots, trades);
    - [Cache]     : [relay/internal/cache] (trade ring, order-book cache);
    - [RateLimit] : [relay/internal/ratelimit] (per-key stream semaphores);
    - [Fanout]    : [relay/internal/fanout] (topics, subscribers, publish);
    - [Auth]      : [relay/internal/auth] with [models.AuthContext];
    - [Api]       : the trade queries of the HTTP and gRPC surfaces;
    - [RateLimitGC], [AuthCache] : the periodic cleanups of the limiter
                    and of the authentication cache;
    - [Upstream]  : [relay/internal/upstream] (gateway choice, backoff);
    - [Keys]      : the strings built from numeric ids and ports;
    - [Usage]     : [relay/internal/usage] (the usage collector).

    The second part holds the vocabulary of the statements (invariants,
    traces of operations, sample data), the third the lemmas and theorems.

    Go's [int] and [int64] are 64-bit two's-complement integers: they are
    values of [Z], and the additions and subtractions of the source wrap
    around through [wrap64].  A run-time panic is the [Panic] outcome of
    [result].  An instant is a number of nanoseconds, and every read of
    the wall clock ([time.Now()]) is an explicit argument [now].  The
    methods are modelled as they run on their own, one call after the
    other; locks are therefore left out. *)

From Stdlib Require Import ZArith List Lia Bool.
From Corelib Require Import SpecFloat.
From stdpp Require Import gmap strings list fin_maps sorting.

Open Scope Z_scope.

(** ** Machine integers *)

Definition int_min : Z := - 2 ^ 63.
Definition int_max : Z := 2 ^ 63 - 1.

(** Two's-complement wrap-around of a 64-bit signed integer. *)
Definition wrap64 (z : Z) : Z := (z + 2 ^ 63) mod 2 ^ 64 - 2 ^ 63.

Definition int_add (x y : Z) : Z := wrap64 (x + y).
Definition int_sub (x y : Z) : Z := wrap64 (x - y).

(** [t.Sub(u)] of package [time]: the difference in nanoseconds, saturated
    to the range of [time.Duration] (an [int64]). *)
Definition time_Sub (t u : Z) : Z := Z.max int_min (Z.min int_max (t - u)).

(** ** Outcomes of Go code that may panic *)

Inductive result (A : Type) : Type :=
| Ok (a : A)
| Panic (msg : string).
Arguments Ok {A} a.
Arguments Panic {A} msg.

#[global] Instance result_ret : MRet result := fun A a => Ok a.
#[global] Instance result_bind : MBind result := fun A B k r =>
  match r with
  | Ok a => k a
  | Panic msg => Panic msg
  end.

Definition is_ok {A : Type} (r : result A) : bool :=
  match r with Ok _ => true | Panic _ => false end.

(** The loop [for i := 0; i < n; i++ { result[i] = f(i) }] over a slice
    [result] of length [n]: the elements are produced in index order and
    the first panic of [f] aborts the loop. *)
Fixpoint for_each {A : Type} (f : Z -> result A) (idxs : list Z) : result (list A) :=
  match idxs with
  | [] => Ok []
  | i :: rest =>
      x ← f i;
      xs ← for_each f rest;
      Ok (x :: xs)
  end.

(** [s[i]] on a slice: out of range panics. *)
Definition index {A : Type} (s : list A) (i : Z) : result A :=
  if (i <? 0) || (Z.of_nat (length s) <=? i)
  then Panic "index out of range"
  else match s !! Z.to_nat i with
       | Some x => Ok x
       | None => Panic "index out of range"
       end.

(** [s[i] = x] on a slice: out of range panics. *)
Definition assign {A : Type} (s : list A) (i : Z) (x : A) : result (list A) :=
  if (i <? 0) || (Z.of_nat (length s) <=? i)
  then Panic "index out of range"
  else Ok (<[Z.to_nat i := x]> s).

(** [x % y] on [int]: truncated remainder, panics on a zero divisor. *)
Definition int_rem (x y : Z) : result Z :=
  if y =? 0 then Panic "integer divide by zero" else Ok (Z.rem x y).

(** [make([]T, n)]: a slice of [n] zero values; a negative length panics. *)
Definition make_slice {A : Type} (zero : A) (n : Z) : result (list A) :=
  if n <? 0 then Panic "makeslice: len out of range"
  else Ok (replicate (Z.to_nat n) zero).

(** ** [relay/pkg/types] *)

Module Types.

(** [float64] values, as the IEEE-754 values they denote. *)
Definition float64 : Type := spec_float.
Definition float64_zero : float64 := S754_zero false.
Definition float64_lt (x y : float64) : Prop := SFltb x y = true.

Record PriceLevel : Type := mkPriceLevel {
  Price : float64;
  Size : float64
}.

Record OrderbookSnapshot : Type := mkOrderbookSnapshot {
  ob_Symbol : string;
  ob_Timestamp : Z;
  ob_Sequence : Z;
  ob_Asks : list PriceLevel;
  ob_Bids : list PriceLevel
}.

Record Trade : Type := mkTrade {
  tr_Symbol : string;
  tr_TradeID : string;
  tr_Price : float64;
  tr_Size : float64;
  tr_Side : string;
  tr_Timestamp : Z
}.

Record MarketDataUpdate : Type := mkUpdate {
  up_Type : string;
  up_Symbol : string;
  up_Timestamp : Z;
  up_Sequence : Z;
  up_IsSnapshot : bool;
  up_Orderbook : option OrderbookSnapshot;
  up_Trade : option Trade
}.

(** The zero value of [Trade], as [make] fills a fresh slice. *)
Definition zero_Trade : Trade :=
  mkTrade "" "" float64_zero float64_zero "" 0.

(** Asks are sorted by price ascending, bids by price descending. *)
Definition asks_sorted (asks : list PriceLevel) : Prop :=
  StronglySorted (fun a b => float64_lt (Price a) (Price b)) asks.
Definition bids_sorted (bids : list PriceLevel) : Prop :=
  StronglySorted (fun a b => float64_lt (Price b) (Price a)) bids.

End Types.

(** ** [relay/internal/cache] *)

Module Cache.
Import Types.

Record TradeRingBuffer : Type := mkRing {
  rb_trades : list Trade;
  rb_head : Z;
  rb_count : Z
}.

Definition len {A : Type} (s : list A) : Z := Z.of_nat (length s).

Definition NewTradeRingBuffer (size : Z) : result TradeRingBuffer :=
  trades ← make_slice zero_Trade size;
  Ok (mkRing trades 0 0).

Definition Add (rb : TradeRingBuffer) (trade : Trade) : result TradeRingBuffer :=
  trades ← assign (rb_trades rb) (rb_head rb) trade;
  head ← int_rem (int_add (rb_head rb) 1) (len trades);
  let count := if rb_count rb <? len trades
               then int_add (rb_count rb) 1 else rb_count rb in
  Ok (mkRing trades head count).

Definition GetAll (rb : TradeRingBuffer) : result (list Trade) :=
  _ ← make_slice zero_Trade (rb_count rb);
  if rb_count rb <? len (rb_trades rb)
  then Ok (take (Z.to_nat (rb_count rb)) (rb_trades rb))
  else
    let start := rb_head rb in
    for_each (fun i =>
                idx ← int_rem (int_add start i) (len (rb_trades rb));
                index (rb_trades rb) idx)
             (seqZ 0 (rb_count rb)).

Definition GetRecent (rb : TradeRingBuffer) (n : Z) : result (list Trade) :=
  let n := if n >? rb_count rb then rb_count rb else n in
  _ ← make_slice zero_Trade n;
  for_each (fun i =>
              idx ← int_rem (int_add (int_add (int_sub (rb_head rb) n) i)
                                     (len (rb_trades rb)))
                            (len (rb_trades rb));
              index (rb_trades rb) idx)
           (seqZ 0 n).

Record Layer : Type := mkLayer {
  orderbooks : gmap string OrderbookSnapshot;
  trades : gmap string TradeRingBuffer;
  maxDepth : Z;
  tradeSize : Z
}.

Definition NewLayer (maxDepth tradeSize : Z) : Layer :=
  mkLayer ∅ ∅ maxDepth tradeSize.

(** [s[:n]] on a slice of length (and capacity) [length s]. *)
Definition slice_to {A : Type} (s : list A) (n : Z) : result (list A) :=
  if (n <? 0) || (len s <? n)
  then Panic "slice bounds out of range"
  else Ok (take (Z.to_nat n) s).

Definition UpdateOrderbook (l : Layer) (snapshot : OrderbookSnapshot) : result Layer :=
  asks ← (if len (ob_Asks snapshot) >? maxDepth l
          then slice_to (ob_Asks snapshot) (maxDepth l)
          else Ok (ob_Asks snapshot));
  bids ← (if len (ob_Bids snapshot) >? maxDepth l
          then slice_to (ob_Bids snapshot) (maxDepth l)
          else Ok (ob_Bids snapshot));
  let stored := mkOrderbookSnapshot (ob_Symbol snapshot) (ob_Timestamp snapshot)
                                    (ob_Sequence snapshot) asks bids in
  Ok (mkLayer (<[ob_Symbol snapshot := stored]> (orderbooks l))
              (trades l) (maxDepth l) (tradeSize l)).

Definition copyOrderbook (src : OrderbookSnapshot) : OrderbookSnapshot :=
  mkOrderbookSnapshot (ob_Symbol src) (ob_Timestamp src) (ob_Sequence src)
                      (ob_Asks src) (ob_Bids src).

Definition GetOrderbook (l : Layer) (symbol : string) : option OrderbookSnapshot :=
  match orderbooks l !! symbol with
  | None => None
  | Some snapshot => Some (copyOrderbook snapshot)
  end.

Definition AddTrade (l : Layer) (trade : Trade) : result Layer :=
  match trades l !! tr_Symbol trade with
  | Some rb =>
      rb' ← Add rb trade;
      Ok (mkLayer (orderbooks l) (<[tr_Symbol trade := rb']> (trades l))
                  (maxDepth l) (tradeSize l))
  | None =>
      rb ← NewTradeRingBuffer (tradeSize l);
      rb' ← Add rb trade;
      Ok (mkLayer (orderbooks l) (<[tr_Symbol trade := rb']> (trades l))
                  (maxDepth l) (tradeSize l))
  end.

Definition GetRecentTrades (l : Layer) (symbol : string) (count : Z)
  : result (list Trade) :=
  match trades l !! symbol with
  | None => Ok []
  | Some rb => GetRecent rb count
  end.

Definition GetSymbols (l : Layer) : list string :=
  (map_to_list (orderbooks l)).*1.

(** [Cleanup] at wall-clock time [now]: a symbol whose snapshot is older
    than [staleThreshold] loses its snapshot and its trade ring. *)
Definition stale (now staleThreshold : Z) (snapshot : OrderbookSnapshot) : bool :=
  time_Sub now (ob_Timestamp snapshot) >? staleThreshold.

Definition Cleanup (l : Layer) (now staleThreshold : Z) : Layer :=
  let keep := filter (fun kv => stale now staleThreshold kv.2 = false) (orderbooks l) in
  let gone := filter (fun kv => stale now staleThreshold kv.2 = true) (orderbooks l) in
  mkLayer keep
          (filter (fun kv => gone !! kv.1 = None) (trades l))
          (maxDepth l) (tradeSize l).

End Cache.

(** ** [relay/internal/ratelimit] *)

Module RateLimit.
Import Types.

(** The token bucket of [golang.org/x/time/rate], used through its
    interface only.  [rate_burst rps m] is the conversion
    [int(float64(rps) * m)]. *)
Class RateLib : Type := {
  RateLimiter : Type;
  rate_NewLimiter : Z -> Z -> RateLimiter;
  rate_AllowN : Z -> Z -> RateLimiter -> bool * RateLimiter;
  rate_SetLimit : Z -> RateLimiter -> RateLimiter;
  rate_SetBurst : Z -> RateLimiter -> RateLimiter;
  rate_burst : Z -> float64 -> Z
}.

Record StreamLimiter : Type := mkStreamLimiter {
  maxStreams : Z;
  activeStreams : Z
}.

Definition NewStreamLimiter (maxStreams : Z) : StreamLimiter :=
  mkStreamLimiter maxStreams 0.

Definition Acquire (sl : StreamLimiter) : bool * StreamLimiter :=
  if activeStreams sl >=? maxStreams sl
  then (false, sl)
  else (true, mkStreamLimiter (maxStreams sl) (int_add (activeStreams sl) 1)).

Definition Release (sl : StreamLimiter) : StreamLimiter :=
  if activeStreams sl >? 0
  then mkStreamLimiter (maxStreams sl) (int_sub (activeStreams sl) 1)
  else sl.

Definition ActiveCount (sl : StreamLimiter) : Z := activeStreams sl.

Section Limiter.
Context `{RateLib}.

(** [Streams] is a pointer in the source; both places that build a
    [ClientLimiter] set it, so it is never nil. *)
Record ClientLimiter : Type := mkClientLimiter {
  RPS : RateLimiter;
  Streams : StreamLimiter;
  LastAccess : Z
}.

Record Limiter : Type := mkLimiter {
  limiters : gmap string ClientLimiter;
  defaultRPS : Z;
  defaultBurst : Z;
  cleanupInterval : Z
}.

Record Config : Type := mkConfig {
  DefaultRPS : Z;
  DefaultMaxStreams : Z;
  BurstMultiplier : float64;
  CleanupInterval : Z
}.

(** The binary64 values [1.0] and [2.0]. *)
Definition float64_one : float64 := S754_finite false 4503599627370496 (-52).
Definition float64_two : float64 := S754_finite false 4503599627370496 (-51).

Definition NewLimiter (cfg : Config) : Limiter :=
  let mult := if SFltb (BurstMultiplier cfg) float64_one
              then float64_two else BurstMultiplier cfg in
  let interval := if CleanupInterval cfg =? 0
                  then 5 * 60 * 1000000000 else CleanupInterval cfg in
  mkLimiter ∅ (DefaultRPS cfg) (rate_burst (DefaultRPS cfg) mult) interval.

Definition set_limiters (l : Limiter) (m : gmap string ClientLimiter) : Limiter :=
  mkLimiter m (defaultRPS l) (defaultBurst l) (cleanupInterval l).

(** [getOrCreate] returns the entry of [key], creating it on first
    touch from the limits supplied by this call. *)
Definition getOrCreate (l : Limiter) (key : string) (rps maxStreams now : Z)
  : ClientLimiter * Limiter :=
  match limiters l !! key with
  | Some limiter => (limiter, l)
  | None =>
      let limiter := mkClientLimiter (rate_NewLimiter rps (defaultBurst l))
                                     (NewStreamLimiter maxStreams) now in
      (limiter, set_limiters l (<[key := limiter]> (limiters l)))
  end.

(** The caller of [getOrCreate] mutates the entry it was handed; the
    entry is the one in the map, so the mutation is written back. *)
Definition store (l : Limiter) (key : string) (limiter : ClientLimiter) : Limiter :=
  set_limiters l (<[key := limiter]> (limiters l)).

Definition AllowN (l : Limiter) (key : string) (n now : Z) : bool * Limiter :=
  let '(limiter, l1) := getOrCreate l key (defaultRPS l) (defaultRPS l) now in
  let '(ok, rps) := rate_AllowN now n (RPS limiter) in
  (ok, store l1 key (mkClientLimiter rps (Streams limiter) now)).

Definition Allow (l : Limiter) (key : string) (now : Z) : bool * Limiter :=
  let '(limiter, l1) := getOrCreate l key (defaultRPS l) (defaultRPS l) now in
  let '(ok, rps) := rate_AllowN now 1 (RPS limiter) in
  (ok, store l1 key (mkClientLimiter rps (Streams limiter) now)).

Definition AcquireStream (l : Limiter) (key : string) (maxStreams now : Z)
  : bool * Limiter :=
  let '(limiter, l1) := getOrCreate l key (defaultRPS l) maxStreams now in
  let '(ok, streams) := Acquire (Streams limiter) in
  (ok, store l1 key (mkClientLimiter (RPS limiter) streams now)).

Definition ReleaseStream (l : Limiter) (key : string) : Limiter :=
  match limiters l !! key with
  | Some limiter =>
      store l key (mkClientLimiter (RPS limiter) (Release (Streams limiter))
                                   (LastAccess limiter))
  | None => l
  end.

Definition SetLimit (l : Limiter) (key : string) (rps maxStreams now : Z) : Limiter :=
  match limiters l !! key with
  | Some limiter =>
      let r := rate_SetBurst (rate_burst rps float64_two)
                             (rate_SetLimit rps (RPS limiter)) in
      store l key (mkClientLimiter r (NewStreamLimiter maxStreams)
                                   (LastAccess limiter))
  | None =>
      store l key (mkClientLimiter (rate_NewLimiter rps (rate_burst rps float64_two))
                                   (NewStreamLimiter maxStreams) now)
  end.

(** The stream semaphore of a key, as [GetKeyStats] reads it. *)
Definition streams_of (l : Limiter) (key : string) : option StreamLimiter :=
  Streams <$> limiters l !! key.

(** [n] further calls of [AcquireStream]; the admissions in call order. *)
Fixpoint AcquireStream_n (n : nat) (l : Limiter) (key : string) (maxStreams now : Z)
  : list bool * Limiter :=
  match n with
  | O => ([], l)
  | S n' =>
      let '(ok, l1) := AcquireStream l key maxStreams now in
      let '(oks, l2) := AcquireStream_n n' l1 key maxStreams now in
      (ok :: oks, l2)
  end.

Fixpoint ReleaseStream_n (n : nat) (l : Limiter) (key : string) : Limiter :=
  match n with
  | O => l
  | S n' => ReleaseStream_n n' (ReleaseStream l key) key
  end.

End Limiter.

(** A token bucket without refill, to run the limiter on examples:
    the state is the number of tokens left. *)
Definition counting_rate : RateLib := {|
  RateLimiter := Z;
  rate_NewLimiter := fun _ burst => burst;
  rate_AllowN := fun _ n tokens =>
    if n <=? tokens then (true, tokens - n) else (false, tokens);
  rate_SetLimit := fun _ tokens => tokens;
  rate_SetBurst := fun _ tokens => tokens;
  rate_burst := fun rps _ => 2 * rps
|}.

End RateLimit.

(** ** [relay/internal/fanout] *)

Module Fanout.
Import Types.

(** A buffered channel of updates: the queued elements (oldest first),
    the capacity given to [make], and whether [close] has run. *)
Record Chan : Type := mkChan {
  ch_buf : list MarketDataUpdate;
  ch_cap : Z;
  ch_closed : bool
}.

Definition make_chan (size : Z) : result Chan :=
  if size <? 0 then Panic "makechan: size out of range"
  else Ok (mkChan [] size false).

(** [close(c)]: closing a closed channel panics. *)
Definition close_chan (c : Chan) : result Chan :=
  if ch_closed c then Panic "close of closed channel"
  else Ok (mkChan (ch_buf c) (ch_cap c) true).

(** The [select] with a send case and a [default]: the send is taken
    when the buffer has room, [default] otherwise; a send on a closed
    channel panics. *)
Inductive send_outcome : Type :=
| Sent (c : Chan)
| BufferFull
| SendOnClosed.

Definition try_send (c : Chan) (u : MarketDataUpdate) : send_outcome :=
  if ch_closed c then SendOnClosed
  else if Z.of_nat (length (ch_buf c)) <? ch_cap c
       then Sent (mkChan (ch_buf c ++ [u]) (ch_cap c) false)
       else BufferFull.

(** The reader's side: take the oldest queued update, if any. *)
Definition receive (c : Chan) : option (MarketDataUpdate * Chan) :=
  match ch_buf c with
  | [] => None
  | u :: rest => Some (u, mkChan rest (ch_cap c) (ch_closed c))
  end.

Record Subscriber : Type := mkSubscriber {
  ID : string;
  TenantID : Z;
  APIKeyID : Z;
  SendChan : Chan;
  ConnectTime : Z;
  LastSend : Z;
  Dropped : Z;
  closed : bool
}.

Record Topic : Type := mkTopic {
  symbol : string;
  subscribers : gmap string nat;
  lastUpdate : Z
}.

(** The hub, together with the [Subscriber] objects its pointers refer
    to: [heap] maps an address to the object stored there, and a topic
    registers a subscriber by address, so one subscriber registered in
    several topics is one shared object. *)
Record Hub : Type := mkHub {
  topics : gmap string Topic;
  heap : gmap nat Subscriber;
  bufferSize : Z;
  slowThreshold : Z;
  zombieTimeout : Z;
  activeSubscribers : Z;
  droppedMessages : Z
}.

Definition NewHub (bufferSize slowThreshold zombieTimeout : Z) : Hub :=
  mkHub ∅ ∅ bufferSize slowThreshold zombieTimeout 0 0.

Definition set_topic (h : Hub) (sym : string) (t : Topic) : Hub :=
  mkHub (<[sym := t]> (topics h)) (heap h) (bufferSize h) (slowThreshold h)
        (zombieTimeout h) (activeSubscribers h) (droppedMessages h).

Definition set_sub (h : Hub) (p : nat) (sub : Subscriber) : Hub :=
  mkHub (topics h) (<[p := sub]> (heap h)) (bufferSize h) (slowThreshold h)
        (zombieTimeout h) (activeSubscribers h) (droppedMessages h).

Definition add_active (h : Hub) (d : Z) : Hub :=
  mkHub (topics h) (heap h) (bufferSize h) (slowThreshold h)
        (zombieTimeout h) (int_add (activeSubscribers h) d) (droppedMessages h).

Definition add_dropped (h : Hub) (d : Z) : Hub :=
  mkHub (topics h) (heap h) (bufferSize h) (slowThreshold h)
        (zombieTimeout h) (activeSubscribers h) (int_add (droppedMessages h) d).

Definition deref (h : Hub) (p : nat) : result Subscriber :=
  match heap h !! p with
  | Some sub => Ok sub
  | None => Panic "nil pointer dereference"
  end.

(** [CreateSubscriber] allocates a subscriber and returns its address. *)
Definition CreateSubscriber (h : Hub) (id : string) (tenantID apiKeyID now : Z)
  : result (nat * Hub) :=
  ch ← make_chan (bufferSize h);
  let p := fresh (dom (heap h)) in
  Ok (p, set_sub h p (mkSubscriber id tenantID apiKeyID ch now now 0 false)).

Definition Subscribe (h : Hub) (sym : string) (p : nat) : result Hub :=
  let topic := match topics h !! sym with
               | Some topic => topic
               | None => mkTopic sym ∅ 0
               end in
  sub ← deref h p;
  let topic' := mkTopic (symbol topic) (<[ID sub := p]> (subscribers topic))
                        (lastUpdate topic) in
  Ok (add_active (set_topic h sym topic') 1).

(** The four statements that every eviction path runs on a registered
    subscriber: set the flag, close the queue, delete the registration,
    decrement the counter. *)
Definition close_and_remove (h : Hub) (sym subID : string) (topic : Topic) (p : nat)
  : result Hub :=
  sub ← deref h p;
  ch ← close_chan (SendChan sub);
  let sub' := mkSubscriber (ID sub) (TenantID sub) (APIKeyID sub) ch
                           (ConnectTime sub) (LastSend sub) (Dropped sub) true in
  let topic' := mkTopic (symbol topic) (delete subID (subscribers topic))
                        (lastUpdate topic) in
  Ok (add_active (set_topic (set_sub h p sub') sym topic') (-1)).

Definition Unsubscribe (h : Hub) (sym subID : string) : result Hub :=
  match topics h !! sym with
  | None => Ok h
  | Some topic =>
      match subscribers topic !! subID with
      | Some p => close_and_remove h sym subID topic p
      | None => Ok h
      end
  end.

Definition handleSlowConsumer (h : Hub) (sym subID : string) : result Hub :=
  Unsubscribe h sym subID.

(** The body of the publish loop for the subscriber at address [p]. *)
Definition deliver (sym : string) (update : MarketDataUpdate) (now : Z)
           (h : Hub) (p : nat) : result Hub :=
  sub ← deref h p;
  if closed sub then Ok h
  else match try_send (SendChan sub) update with
       | SendOnClosed => Panic "send on closed channel"
       | Sent ch =>
           Ok (set_sub h p (mkSubscriber (ID sub) (TenantID sub) (APIKeyID sub) ch
                                         (ConnectTime sub) now (Dropped sub)
                                         (closed sub)))
       | BufferFull =>
           let sub' := mkSubscriber (ID sub) (TenantID sub) (APIKeyID sub)
                                    (SendChan sub) (ConnectTime sub) (LastSend sub)
                                    (int_add (Dropped sub) 1) (closed sub) in
           let h' := add_dropped (set_sub h p sub') 1 in
           if Dropped sub' >? slowThreshold h'
           then handleSlowConsumer h' sym (ID sub')
           else Ok h'
       end.

Fixpoint deliver_all (sym : string) (update : MarketDataUpdate) (now : Z)
         (h : Hub) (ps : list nat) : result Hub :=
  match ps with
  | [] => Ok h
  | p :: rest =>
      h' ← deliver sym update now h p;
      deliver_all sym update now h' rest
  end.

(** [Publish]: the subscriber list is snapshotted first, then every
    snapshotted subscriber is served.  The final [emitter.Emit] reaches
    only listeners registered through [On]; it touches no subscriber. *)
Definition Publish (h : Hub) (sym : string) (update : MarketDataUpdate) (now : Z)
  : result Hub :=
  match topics h !! sym with
  | None => Ok h
  | Some topic =>
      let h1 := set_topic h sym (mkTopic (symbol topic) (subscribers topic) now) in
      deliver_all sym update now h1 (map_to_list (subscribers topic)).*2
  end.

(** The body of the inner sweep loop for one registration of a topic. *)
Definition sweep_one (now : Z) (sym : string) (h : Hub) (entry : string * nat)
  : result Hub :=
  let '(subID, p) := entry in
  sub ← deref h p;
  if (time_Sub now (LastSend sub) >? zombieTimeout h) && negb (closed sub)
  then match topics h !! sym with
       | Some topic => close_and_remove h sym subID topic p
       | None => Ok h
       end
  else Ok h.

Fixpoint sweep_topic (now : Z) (sym : string) (h : Hub) (entries : list (string * nat))
  : result Hub :=
  match entries with
  | [] => Ok h
  | e :: rest =>
      h' ← sweep_one now sym h e;
      sweep_topic now sym h' rest
  end.

Fixpoint sweep_topics (now : Z) (h : Hub) (syms : list string) : result Hub :=
  match syms with
  | [] => Ok h
  | sym :: rest =>
      h' ← match topics h !! sym with
           | Some topic => sweep_topic now sym h (map_to_list (subscribers topic))
           | None => Ok h
           end;
      sweep_topics now h' rest
  end.

Definition CleanupZombies (h : Hub) (now : Z) : result Hub :=
  sweep_topics now h (map_to_list (topics h)).*1.

Record Stats : Type := mkStats {
  ActiveTopics : Z;
  ActiveSubscribers : Z;
  DroppedMessages : Z
}.

Definition GetStats (h : Hub) : Stats :=
  mkStats (Z.of_nat (size (topics h))) (activeSubscribers h) (droppedMessages h).

(** [GetTopicStats], first component: the size of a topic. *)
Definition GetTopicStats (h : Hub) (sym : string) : Z :=
  match topics h !! sym with
  | Some topic => Z.of_nat (size (subscribers topic))
  | None => 0
  end.

(** The sum over all topics of the number of registered subscribers. *)
Definition registered (h : Hub) : Z :=
  map_fold (fun _ topic acc => acc + Z.of_nat (size (subscribers topic))) 0 (topics h).

(** Successive publishes on one symbol: each element is an update with
    the wall-clock time of its publish. *)
Fixpoint Publish_all (h : Hub) (sym : string) (updates : list (MarketDataUpdate * Z))
  : result Hub :=
  match updates with
  | [] => Ok h
  | u :: rest =>
      h' ← Publish h sym u.1 u.2;
      Publish_all h' sym rest
  end.

End Fanout.

(** ** [relay/internal/models] and [relay/internal/auth] *)

Module Auth.

Definition TenantStatusActive : string := "active".
Definition TenantStatusSuspended : string := "suspended".
Definition TenantStatusDeleted : string := "deleted".

Definition APIKeyStatusActive : string := "active".
Definition APIKeyStatusRevoked : string := "revoked".
Definition APIKeyStatusExpired : string := "expired".

Record AuthContext : Type := mkAuthContext {
  TenantID : Z;
  TenantName : string;
  TenantStatus : string;
  APIKeyID : Z;
  APIKeyStatus : string;
  PlanID : Z;
  PlanName : string;
  MaxConcurrentStreams : Z;
  MaxRPS : Z;
  MaxSymbols : Z;
  MaxDailyRequests : Z;
  Permissions : list string;
  ExpiresAt : option Z;
  CachedAt : Z
}.

(** [t.Before(u)] on instants. *)
Definition Before (t u : Z) : bool := t <? u.

Definition expired_at (ac : AuthContext) (now : Z) : bool :=
  match ExpiresAt ac with
  | Some t => Before t now
  | None => false
  end.

Definition IsValid (ac : AuthContext) (now : Z) : bool :=
  if negb (String.eqb (TenantStatus ac) TenantStatusActive) then false
  else if negb (String.eqb (APIKeyStatus ac) APIKeyStatusActive) then false
  else if expired_at ac now then false
  else true.

Inductive AuthError : Type :=
| ErrMissingAPIKey
| ErrInvalidAPIKey
| ErrExpiredAPIKey
| ErrRevokedAPIKey
| ErrSuspendedTenant
| ErrQueryFailed (cause : string).

(** What the row query of [queryAuthContext] yields for a key hash. *)
Inductive QueryResult : Type :=
| Row (ac : AuthContext)
| ErrNoRows
| QueryError (cause : string).

Section Service.
(** [hashAPIKey]: the hex SHA-256 digest of the credential. *)
Variable hashAPIKey : string -> string.

(** [redis] tells whether a client is configured; [lastUsed] collects
    the key ids handed to the asynchronous [updateLastUsed]. *)
Record Service : Type := mkService {
  db : string -> QueryResult;
  redis : bool;
  cache : gmap string AuthContext;
  cacheTTL : Z;
  lastUsed : list Z
}.

Definition set_cache (s : Service) (c : gmap string AuthContext) : Service :=
  mkService (db s) (redis s) c (cacheTTL s) (lastUsed s).

Definition getFromCache (s : Service) (keyHash : string) (now : Z)
  : option AuthContext :=
  match cache s !! keyHash with
  | None => None
  | Some authCtx =>
      if time_Sub now (CachedAt authCtx) >? cacheTTL s then None
      else Some authCtx
  end.

Definition putToCache (s : Service) (keyHash : string) (authCtx : AuthContext)
  : Service :=
  set_cache s (<[keyHash := authCtx]> (cache s)).

Definition removeFromCache (s : Service) (keyHash : string) : Service :=
  set_cache s (delete keyHash (cache s)).

(** The distributed cache is not wired: the lookup finds nothing and
    the store does nothing. *)
Definition getFromRedis (s : Service) (keyHash : string) : option AuthContext :=
  None.

Definition putToRedis (s : Service) (keyHash : string) (authCtx : AuthContext)
  : Service := s.

Definition queryAuthContext (s : Service) (keyHash : string) : QueryResult :=
  db s keyHash.

Definition stamp (authCtx : AuthContext) (now : Z) : AuthContext :=
  mkAuthContext (TenantID authCtx) (TenantName authCtx) (TenantStatus authCtx)
                (APIKeyID authCtx) (APIKeyStatus authCtx) (PlanID authCtx)
                (PlanName authCtx) (MaxConcurrentStreams authCtx) (MaxRPS authCtx)
                (MaxSymbols authCtx) (MaxDailyRequests authCtx)
                (Permissions authCtx) (ExpiresAt authCtx) now.

Definition updateLastUsed (s : Service) (apiKeyID : Z) : Service :=
  mkService (db s) (redis s) (cache s) (cacheTTL s) (lastUsed s ++ [apiKeyID]).

(** The tail of [Authenticate], from the database query on. *)
Definition authenticate_db (s : Service) (keyHash : string) (now : Z)
  : (AuthError + AuthContext) * Service :=
  match queryAuthContext s keyHash with
  | ErrNoRows => (inl ErrInvalidAPIKey, s)
  | QueryError cause => (inl (ErrQueryFailed cause), s)
  | Row authCtx =>
      if negb (IsValid authCtx now) then
        if String.eqb (TenantStatus authCtx) TenantStatusSuspended
        then (inl ErrSuspendedTenant, s)
        else if String.eqb (APIKeyStatus authCtx) APIKeyStatusRevoked
        then (inl ErrRevokedAPIKey, s)
        else if String.eqb (APIKeyStatus authCtx) APIKeyStatusExpired
                || expired_at authCtx now
        then (inl ErrExpiredAPIKey, s)
        else (inl ErrInvalidAPIKey, s)
      else
        let authCtx := stamp authCtx now in
        let s := putToCache s keyHash authCtx in
        let s := if redis s then putToRedis s keyHash authCtx else s in
        (inr authCtx, updateLastUsed s (APIKeyID authCtx))
  end.

(** The middle of [Authenticate]: the distributed cache, then the
    database. *)
Definition authenticate_redis (s : Service) (keyHash : string) (now : Z)
  : (AuthError + AuthContext) * Service :=
  match (if redis s then getFromRedis s keyHash else None) with
  | Some authCtx =>
      if IsValid authCtx now
      then (inr authCtx, putToCache s keyHash authCtx)
      else authenticate_db s keyHash now
  | None => authenticate_db s keyHash now
  end.

Definition Authenticate (s : Service) (apiKey : string) (now : Z)
  : (AuthError + AuthContext) * Service :=
  if String.eqb apiKey "" then (inl ErrMissingAPIKey, s)
  else
    let keyHash := hashAPIKey apiKey in
    match getFromCache s keyHash now with
    | Some authCtx =>
        if IsValid authCtx now then (inr authCtx, s)
        else authenticate_redis (removeFromCache s keyHash) keyHash now
    | None => authenticate_redis s keyHash now
    end.

Definition InvalidateCache (s : Service) (apiKey : string) : Service :=
  removeFromCache s (hashAPIKey apiKey).

End Service.

End Auth.

(** ** [relay/internal/api] and [relay/internal/grpc]: the trade queries *)

Module Api.
Import Types.

(** [handleGetTrades] after the query string is parsed: [None] is the
    400 response for an empty symbol; [count] is what [c.QueryInt]
    parsed (100 when the parameter is absent). *)
Definition handleGetTrades (cache : Cache.Layer) (sym : string) (count : Z)
  : result (option (list Trade)) :=
  if String.eqb sym "" then Ok None
  else
    let count := if count >? 1000 then 1000 else count in
    trades ← Cache.GetRecentTrades cache sym count;
    Ok (Some trades).

(** [MarketDataServiceServer.GetRecentTrades] of the gRPC surface. *)
Definition GetRecentTrades (cache : Cache.Layer) (sym : string) (count : Z)
  : result (list Trade) :=
  Cache.GetRecentTrades cache sym count.

End Api.

(** ** Multiplication and counted loops *)

(** [x * y] on [int] and [time.Duration]. *)
Definition int_mul (x y : Z) : Z := wrap64 (x * y).

(** The indices of [for i := 0; i < n; i++]. *)
Definition count_up (n : Z) : list Z := Z.of_nat <$> seq 0 (Z.to_nat n).

(** A loop over indices whose body may panic. *)
Fixpoint loop {S : Type} (body : S -> Z -> result S) (s : S) (idxs : list Z)
  : result S :=
  match idxs with
  | [] => Ok s
  | i :: rest => s' ← body s i; loop body s' rest
  end.

(** ** [relay/internal/ratelimit]: the periodic cleanup *)

Module RateLimitGC.
Import Types RateLimit.

Section Cleanup.
Context `{RateLib}.

(** The test of the cleanup loop on one entry: last access before
    [now - 2 * cleanupInterval] and no active stream. *)
Definition idle (l : Limiter) (now : Z) (limiter : ClientLimiter) : bool :=
  let threshold := now + int_mul (int_sub 0 (cleanupInterval l)) 2 in
  (LastAccess limiter <? threshold) && (ActiveCount (Streams limiter) =? 0).

Definition cleanup (l : Limiter) (now : Z) : Limiter :=
  set_limiters l (filter (fun kv => idle l now kv.2 = false) (limiters l)).

End Cleanup.

End RateLimitGC.

(** ** [relay/internal/auth]: the cache cleanup *)

Module AuthCache.
Import Auth.

Definition cleanupCache (s : Service) (now : Z) : Service :=
  set_cache s
    (filter (fun kv => (time_Sub now (CachedAt kv.2) >? cacheTTL s) = false)
            (cache s)).

End AuthCache.

(** ** [relay/internal/upstream] *)

Module Upstream.

Record GatewayConfig : Type := mkGatewayConfig {
  Endpoint : string;
  Priority : Z;
  Region : string
}.

Record GatewayConnection : Type := mkGatewayConnection {
  conn_Endpoint : string;
  conn_Priority : Z;
  conn_Region : string;
  Connected : bool;
  LastPing : Z;
  ReconnectCount : Z
}.

(** The manager: its gateways, the connection in use, the two delays of
    its configuration, and the flag that guards [failover]. *)
Record Manager : Type := mkManager {
  gateways : list GatewayConfig;
  activeGateway : option GatewayConnection;
  ReconnectBaseDelay : Z;
  ReconnectMaxDelay : Z;
  reconnecting : bool
}.

Definition set_gateways (m : Manager) (gs : list GatewayConfig) : Manager :=
  mkManager gs (activeGateway m) (ReconnectBaseDelay m) (ReconnectMaxDelay m)
            (reconnecting m).

Definition set_activeGateway (m : Manager) (c : option GatewayConnection) : Manager :=
  mkManager (gateways m) c (ReconnectBaseDelay m) (ReconnectMaxDelay m)
            (reconnecting m).

Definition set_reconnecting (m : Manager) (b : bool) : Manager :=
  mkManager (gateways m) (activeGateway m) (ReconnectBaseDelay m)
            (ReconnectMaxDelay m) b.

Definition len (gs : list GatewayConfig) : Z := Z.of_nat (length gs).

(** The body of the inner loop of the bubble sort: compare the
    neighbours at [j] and [j+1], swap them when out of order. *)
Definition swap_if_greater (gs : list GatewayConfig) (j : Z)
  : result (list GatewayConfig) :=
  a ← index gs j;
  b ← index gs (j + 1);
  if Priority a >? Priority b
  then gs1 ← assign gs j b; assign gs1 (j + 1) a
  else Ok gs.

(** The body of the outer loop: one pass over the first [len - i]
    elements. *)
Definition bubble_pass (gs : list GatewayConfig) (i : Z) : result (list GatewayConfig) :=
  loop swap_if_greater gs (count_up (len gs - i - 1)).

(** The swaps keep the length of the slice, so the loop bounds, which
    the source evaluates at every iteration, are those at loop entry. *)
Definition sortGatewaysByPriority (gs : list GatewayConfig)
  : result (list GatewayConfig) :=
  loop bubble_pass gs (count_up (len gs - 1)).

(** [connectToGateway]: the error it returns, if any, and the manager. *)
Definition connectToGateway (m : Manager) (i : Z) (now : Z)
  : result (option string * Manager) :=
  if i >=? len (gateways m) then Ok (Some "gateway index out of range", m)
  else
    gw ← index (gateways m) i;
    Ok (None, set_activeGateway m
                (Some (mkGatewayConnection (Endpoint gw) (Priority gw) (Region gw)
                                           true now 0))).

Fixpoint failover_loop (m : Manager) (idxs : list Z) (now : Z)
  : result (option string * Manager) :=
  match idxs with
  | [] => Ok (Some "all gateways failed", m)
  | i :: rest =>
      '(err, m') ← connectToGateway m i now;
      match err with
      | None => Ok (None, m')
      | Some _ => failover_loop m' rest now
      end
  end.

(** [failover]: the compare-and-swap on [reconnecting] guards the loop
    over the gateways; the deferred store resets the flag. *)
Definition failover (m : Manager) (now : Z) : result (option string * Manager) :=
  if reconnecting m then Ok (None, m)
  else
    '(err, m') ← failover_loop (set_reconnecting m true)
                               (count_up (len (gateways m))) now;
    Ok (err, set_reconnecting m' false).

(** [Start]; the health-check loop it launches on success runs beside
    it and is not part of its result. *)
Definition Start (m : Manager) (now : Z) : result (option string * Manager) :=
  if len (gateways m) =? 0 then Ok (Some "no gateways configured", m)
  else
    gs ← sortGatewaysByPriority (gateways m);
    '(err, m') ← connectToGateway (set_gateways m gs) 0 now;
    match err with
    | Some _ => failover m' now
    | None => Ok (None, m')
    end.

Definition Millisecond : Z := 1000000.
Definition Second : Z := 1000000000.

(** [uint(x)] of an [int]. *)
Definition uint (x : Z) : Z := x mod 2 ^ 64.

(** [x << s] on an [int64] with an unsigned count: the bits shifted
    beyond the width are lost, and a count of 64 or more gives 0. *)
Definition shl (x s : Z) : Z := if s <? 64 then wrap64 (x * 2 ^ s) else 0.

(** [calculateBackoff] up to the jitter: the delay to which the random
    jitter is then added. *)
Definition backoff_delay (m : Manager) (attempt : Z) : Z :=
  let base := if ReconnectBaseDelay m =? 0 then int_mul 100 Millisecond
              else ReconnectBaseDelay m in
  let max := if ReconnectMaxDelay m =? 0 then int_mul 30 Second
             else ReconnectMaxDelay m in
  let delay := int_mul base (shl 1 (uint (int_sub attempt 1))) in
  if delay >? max then max else delay.

End Upstream.

(** ** The keys derived from numeric identifiers *)

Module Keys.

(** [rune(x)] on an [int] or [int64]: the low 32 bits, signed. *)
Definition rune (x : Z) : Z := (x + 2 ^ 31) mod 2 ^ 32 - 2 ^ 31.

(** [byte(x)]: the low 8 bits, as a character of a string. *)
Definition byte (x : Z) : Ascii.ascii := Ascii.ascii_of_N (Z.to_N (x mod 256)).

Definition RuneError : Z := 65533.

(** A code point that UTF-8 can encode: up to U+10FFFF and no surrogate. *)
Definition valid_rune (r : Z) : bool :=
  (0 <=? r) && (r <=? 1114111) && negb ((55296 <=? r) && (r <=? 57343)).

(** The UTF-8 encoding of a valid code point, in one to four bytes. *)
Definition utf8 (r : Z) : string :=
  if r <=? 127 then String (byte r) EmptyString
  else if r <=? 2047
  then String (byte (192 + r / 64)) (String (byte (128 + r mod 64)) EmptyString)
  else if r <=? 65535
  then String (byte (224 + r / 4096))
         (String (byte (128 + (r / 64) mod 64))
            (String (byte (128 + r mod 64)) EmptyString))
  else String (byte (240 + r / 262144))
         (String (byte (128 + (r / 4096) mod 64))
            (String (byte (128 + (r / 64) mod 64))
               (String (byte (128 + r mod 64)) EmptyString))).

(** [string(r)] on a [rune]: the UTF-8 encoding of the code point, and
    that of U+FFFD for a value that is no valid code point. *)
Definition string_of_rune (r : Z) : string :=
  if valid_rune r then utf8 r else utf8 RuneError.

(** [keyID := string(rune(authCtx.APIKeyID))], the key under which the
    HTTP middleware, the WebSocket handler and the gRPC interceptors
    address the rate limiter. *)
Definition keyID (APIKeyID : Z) : string := string_of_rune (rune APIKeyID).

(** [bufferKey] of the usage collector. *)
Definition bufferKey (tenantID apiKeyID : Z) : string :=
  string_of_rune (rune tenantID) +:+ ":" +:+ string_of_rune (rune apiKeyID).

(** The listen address that [Server.Start] of the HTTP server builds. *)
Definition listen_addr (Host : string) (HTTPPort : Z) : string :=
  Host +:+ ":" +:+ string_of_rune (rune HTTPPort).

(** The listen address that [Server.Start] of the gRPC server builds. *)
Definition grpc_listen_addr (port : Z) : string :=
  ":" +:+ string_of_rune (rune (int_add port 48)).

End Keys.

(** ** [relay/internal/usage] *)

Module Usage.
Import Keys.

Record UsageBuffer : Type := mkUsageBuffer {
  TenantID : Z;
  APIKeyID : Z;
  Requests : Z;
  Messages : Z;
  Errors : Z;
  PeakConcurrentStreams : Z;
  LatencySum : Z;
  LatencyCount : Z
}.

Record Collector : Type := mkCollector {
  buffer : gmap string UsageBuffer;
  flushInterval : Z
}.

(** [time.Minute] *)
Definition Minute : Z := 60 * 1000000000.

Definition NewCollector (FlushInterval : Z) : Collector :=
  let FlushInterval := if FlushInterval =? 0 then Minute else FlushInterval in
  mkCollector ∅ FlushInterval.

Definition set_buffer (c : Collector) (b : gmap string UsageBuffer) : Collector :=
  mkCollector b (flushInterval c).

(** [getOrCreateBuffer] returns the buffer stored under the key of the
    two ids, creating it with these ids when there is none. *)
Definition getOrCreateBuffer (c : Collector) (tenantID apiKeyID : Z)
  : string * UsageBuffer * Collector :=
  let key := bufferKey tenantID apiKeyID in
  match buffer c !! key with
  | Some buf => (key, buf, c)
  | None =>
      let buf := mkUsageBuffer tenantID apiKeyID 0 0 0 0 0 0 in
      (key, buf, set_buffer c (<[key := buf]> (buffer c)))
  end.

(** The callers of [getOrCreateBuffer] update the buffer they were
    handed, which is the one in the map. *)
Definition store (c : Collector) (key : string) (buf : UsageBuffer) : Collector :=
  set_buffer c (<[key := buf]> (buffer c)).

Definition RecordRequest (c : Collector) (tenantID apiKeyID : Z) : Collector :=
  let '(key, buf, c1) := getOrCreateBuffer c tenantID apiKeyID in
  store c1 key (mkUsageBuffer (TenantID buf) (APIKeyID buf)
                  (int_add (Requests buf) 1) (Messages buf) (Errors buf)
                  (PeakConcurrentStreams buf) (LatencySum buf) (LatencyCount buf)).

Definition RecordMessage (c : Collector) (tenantID apiKeyID : Z) : Collector :=
  let '(key, buf, c1) := getOrCreateBuffer c tenantID apiKeyID in
  store c1 key (mkUsageBuffer (TenantID buf) (APIKeyID buf)
                  (Requests buf) (int_add (Messages buf) 1) (Errors buf)
                  (PeakConcurrentStreams buf) (LatencySum buf) (LatencyCount buf)).

Definition RecordError (c : Collector) (tenantID apiKeyID : Z) : Collector :=
  let '(key, buf, c1) := getOrCreateBuffer c tenantID apiKeyID in
  store c1 key (mkUsageBuffer (TenantID buf) (APIKeyID buf)
                  (Requests buf) (Messages buf) (int_add (Errors buf) 1)
                  (PeakConcurrentStreams buf) (LatencySum buf) (LatencyCount buf)).

Definition RecordLatency (c : Collector) (tenantID apiKeyID latencyMs : Z) : Collector :=
  let '(key, buf, c1) := getOrCreateBuffer c tenantID apiKeyID in
  store c1 key (mkUsageBuffer (TenantID buf) (APIKeyID buf)
                  (Requests buf) (Messages buf) (Errors buf)
                  (PeakConcurrentStreams buf)
                  (int_add (LatencySum buf) latencyMs)
                  (int_add (LatencyCount buf) 1)).

(** Without a concurrent writer the compare-and-swap loop runs once. *)
Definition UpdatePeakStreams (c : Collector) (tenantID apiKeyID currentStreams : Z)
  : Collector :=
  let '(key, buf, c1) := getOrCreateBuffer c tenantID apiKeyID in
  if currentStreams <=? PeakConcurrentStreams buf then c1
  else store c1 key (mkUsageBuffer (TenantID buf) (APIKeyID buf)
                       (Requests buf) (Messages buf) (Errors buf)
                       currentStreams (LatencySum buf) (LatencyCount buf)).

(** The arguments of one [upsertUsage]; the average latency is kept as
    the two operands of its quotient. *)
Record UsageRow : Type := mkUsageRow {
  row_TenantID : Z;
  row_APIKeyID : Z;
  row_Requests : Z;
  row_Messages : Z;
  row_Errors : Z;
  row_PeakStreams : Z;
  row_Latency : option (Z * Z)
}.

Definition flush_row (buf : UsageBuffer) : UsageRow :=
  mkUsageRow (TenantID buf) (APIKeyID buf) (Requests buf) (Messages buf)
             (Errors buf) (PeakConcurrentStreams buf)
             (if LatencyCount buf >? 0
              then Some (LatencySum buf, LatencyCount buf) else None).

(** [Flush] takes the map of buffers, leaves an empty one, and upserts
    one row per buffer, in the order of the map iteration. *)
Definition Flush (c : Collector) : list UsageRow * Collector :=
  (flush_row <$> (map_to_list (buffer c)).*2, set_buffer c ∅).

End Usage.

(** * Specification vocabulary *)

Module CacheSpec.
Import Types Cache.

(** The last [n] elements of a list, oldest first. *)
Definition last_n {A : Type} (n : Z) (l : list A) : list A :=
  drop (length l - Z.to_nat n) l.

Fixpoint Add_all (rb : TradeRingBuffer) (ts : list Trade) : result TradeRingBuffer :=
  match ts with
  | [] => Ok rb
  | t :: rest => rb' ← Add rb t; Add_all rb' rest
  end.

(** The ring of capacity [cap] that has received the trades [ts]. *)
Record ring_of (cap : Z) (ts : list Trade) (rb : TradeRingBuffer) : Prop := {
  ring_len : len (rb_trades rb) = cap;
  ring_head : rb_head rb = len ts mod cap;
  ring_count : rb_count rb = Z.min (len ts) cap;
  ring_slots : forall k : nat,
    len ts - cap <= Z.of_nat k < len ts ->
    rb_trades rb !! Z.to_nat (Z.of_nat k mod cap) = ts !! k
}.

Fixpoint AddTrade_all (l : Layer) (ts : list Trade) : result Layer :=
  match ts with
  | [] => Ok l
  | t :: rest => l' ← AddTrade l t; AddTrade_all l' rest
  end.

(** The trades of one symbol among the trades received, in order. *)
Definition of_symbol (sym : string) (ts : list Trade) : list Trade :=
  filter (fun t => tr_Symbol t = sym) ts.

(** The layer whose rings have received the trades [ts]. *)
Definition layer_of (cap : Z) (ts : list Trade) (l : Layer) : Prop :=
  tradeSize l = cap /\
  forall sym,
    match trades l !! sym with
    | Some rb => ring_of cap (of_symbol sym ts) rb
    | None => of_symbol sym ts = []
    end.

Definition sample_trade (id : string) : Trade :=
  mkTrade "BTC" id float64_zero float64_zero "buy" 0.

Definition depth_bounded (l : Layer) : Prop :=
  forall sym s, orderbooks l !! sym = Some s ->
    len (ob_Asks s) <= maxDepth l /\ len (ob_Bids s) <= maxDepth l.

(** The operations of the cache's public interface. *)
Inductive op : Type :=
| OpUpdateOrderbook (snapshot : OrderbookSnapshot)
| OpGetOrderbook (sym : string)
| OpAddTrade (trade : Trade)
| OpGetRecentTrades (sym : string) (count : Z)
| OpGetSymbols
| OpCleanup (now staleThreshold : Z).

Definition step (l : Layer) (o : op) : result Layer :=
  match o with
  | OpUpdateOrderbook snapshot => UpdateOrderbook l snapshot
  | OpGetOrderbook sym => let _ := GetOrderbook l sym in Ok l
  | OpAddTrade trade => AddTrade l trade
  | OpGetRecentTrades sym count => _ ← GetRecentTrades l sym count; Ok l
  | OpGetSymbols => let _ := GetSymbols l in Ok l
  | OpCleanup now staleThreshold => Ok (Cleanup l now staleThreshold)
  end.

Fixpoint run (l : Layer) (ops : list op) : result Layer :=
  match ops with
  | [] => Ok l
  | o :: rest => l' ← step l o; run l' rest
  end.

(** What [UpdateOrderbook] keeps of one side. *)
Definition trim (maxDepth : Z) (side : list PriceLevel) : list PriceLevel :=
  take (Z.to_nat maxDepth) side.

Definition price1 : float64 := S754_finite false 4503599627370496 (-52).
Definition price2 : float64 := S754_finite false 4503599627370496 (-51).
Definition price3 : float64 := S754_finite false 6755399441055744 (-51).

Definition level (p : float64) : PriceLevel := mkPriceLevel p price1.

Definition deep_book : OrderbookSnapshot :=
  mkOrderbookSnapshot "BTC" 0 7
    [level price1; level price2; level price3]
    [level price3; level price2; level price1].

(** C3 as stated: the sequence visible through [GetOrderbook] never
    goes backward across two successive updates of one symbol. *)
Definition sequence_never_backward : Prop :=
  forall (l l1 l2 : Layer) (s1 s2 o1 o2 : OrderbookSnapshot),
    ob_Symbol s1 = ob_Symbol s2 ->
    UpdateOrderbook l s1 = Ok l1 -> UpdateOrderbook l1 s2 = Ok l2 ->
    GetOrderbook l1 (ob_Symbol s1) = Some o1 ->
    GetOrderbook l2 (ob_Symbol s1) = Some o2 ->
    ob_Sequence o1 <= ob_Sequence o2.

Definition book_seq (seq : Z) : OrderbookSnapshot :=
  mkOrderbookSnapshot "BTC" 0 seq [] [].

Definition one_trade_layer : Layer :=
  mkLayer ∅ {["BTC" := mkRing [sample_trade "a"; zero_Trade] 1 1]} 100 2.

End CacheSpec.

Module RateLimitSpec.
Import Types RateLimit.

Definition sample_config : Config :=
  mkConfig 100 10 float64_two 0.

(** A key holding two of its two slots. *)
Definition busy_limiter : Limiter (H := counting_rate) :=
  (AcquireStream_n (H := counting_rate) 2
     (NewLimiter (H := counting_rate) sample_config) "k" 2 0).2.

End RateLimitSpec.

Module HubSpec.
Import Types Fanout.

(** The registrations of a topic, empty when the topic does not exist. *)
Definition subs_of (h : Hub) (sym : string) : gmap string nat :=
  match topics h !! sym with
  | Some topic => subscribers topic
  | None => ∅
  end.

(** Well-formed hubs: a registration under [id] points to an allocated
    subscriber whose [ID] is [id]; the one-shot flag of a subscriber
    tells whether its queue is closed; the dropped counter is an
    [int64]. *)
Record wf (h : Hub) : Prop := {
  wf_registered : forall sym id p,
    subs_of h sym !! id = Some p -> exists sub, heap h !! p = Some sub /\ ID sub = id;
  wf_closed : forall p sub,
    heap h !! p = Some sub -> ch_closed (SendChan sub) = closed sub;
  wf_dropped : int_min <= droppedMessages h <= int_max
}.

(** The operations on a hub: those of its interface, and the reader of
    a subscriber taking one update off its queue. *)
Inductive hub_op : Type :=
| OpCreateSubscriber (id : string) (tenantID apiKeyID now : Z)
| OpSubscribe (sym : string) (p : nat)
| OpUnsubscribe (sym subID : string)
| OpPublish (sym : string) (update : MarketDataUpdate) (now : Z)
| OpCleanupZombies (now : Z)
| OpReceive (p : nat).

Definition read_one (h : Hub) (p : nat) : Hub :=
  match heap h !! p with
  | Some sub =>
      match receive (SendChan sub) with
      | Some (_, ch) =>
          set_sub h p (mkSubscriber (ID sub) (TenantID sub) (APIKeyID sub) ch
                                    (ConnectTime sub) (LastSend sub) (Dropped sub)
                                    (closed sub))
      | None => h
      end
  | None => h
  end.

Definition hub_step (h : Hub) (o : hub_op) : result Hub :=
  match o with
  | OpCreateSubscriber id tenantID apiKeyID now =>
      '(_, h') ← CreateSubscriber h id tenantID apiKeyID now; Ok h'
  | OpSubscribe sym p => Subscribe h sym p
  | OpUnsubscribe sym subID => Unsubscribe h sym subID
  | OpPublish sym update now => Publish h sym update now
  | OpCleanupZombies now => CleanupZombies h now
  | OpReceive p => Ok (read_one h p)
  end.

Fixpoint hub_run (h : Hub) (ops : list hub_op) : result Hub :=
  match ops with
  | [] => Ok h
  | o :: rest => h' ← hub_step h o; hub_run h' rest
  end.

Definition has_room (sub : Subscriber) : bool :=
  Z.of_nat (length (ch_buf (SendChan sub))) <? ch_cap (SendChan sub).

(** The publish is dropped for this subscriber. *)
Definition drops (sub : Subscriber) : bool :=
  negb (closed sub) && negb (has_room sub).

(** The publish evicts this subscriber. *)
Definition evicts (T : Z) (sub : Subscriber) : bool :=
  drops sub && (int_add (Dropped sub) 1 >? T).

(** What one publish at time [now] makes of a registered subscriber. *)
Definition served (T : Z) (u : MarketDataUpdate) (now : Z) (sub : Subscriber)
  : Subscriber :=
  if closed sub then sub
  else if has_room sub
  then mkSubscriber (ID sub) (TenantID sub) (APIKeyID sub)
         (mkChan (ch_buf (SendChan sub) ++ [u]) (ch_cap (SendChan sub)) false)
         (ConnectTime sub) now (Dropped sub) (closed sub)
  else if int_add (Dropped sub) 1 >? T
  then mkSubscriber (ID sub) (TenantID sub) (APIKeyID sub)
         (mkChan (ch_buf (SendChan sub)) (ch_cap (SendChan sub)) true)
         (ConnectTime sub) (LastSend sub) (int_add (Dropped sub) 1) true
  else mkSubscriber (ID sub) (TenantID sub) (APIKeyID sub) (SendChan sub)
         (ConnectTime sub) (LastSend sub) (int_add (Dropped sub) 1) (closed sub).

(** The registrations of [sym] after the subscriber under [id] was served. *)
Definition after_serving (T : Z) (id : string) (sub : Subscriber)
           (m : gmap string nat) : gmap string nat :=
  if evicts T sub then delete id m else m.

(** How many of the subscribers at [ps] have the publish dropped. *)
Fixpoint drop_count (h : Hub) (ps : list nat) : Z :=
  match ps with
  | [] => 0
  | p :: rest =>
      (match heap h !! p with
       | Some sub => if drops sub then 1 else 0
       | None => 0
       end) + drop_count h rest
  end.

(** The hub [hj] reached from [h] by the first [j] publishes of [ups] on
    [sym], seen from the subscriber at address [p] registered under
    [id]: its queue holds the first [min j buffer_size] updates, its
    [dropped_count] is the number of publishes beyond [buffer_size],
    and it is evicted (flag set, queue closed, registered in no topic)
    exactly when [j = buffer_size + slow_consumer_threshold + 1].  The
    hub-wide dropped counter has grown by the subscriber's own drops
    plus [others], the drops of the other subscribers of the topic. *)
Definition after_publishes (h : Hub) (sym id : string) (p : nat)
           (ups : list (MarketDataUpdate * Z)) (j : nat) (hj : Hub) : Prop :=
  let B := bufferSize h in
  let T := slowThreshold h in
  let evicted := bool_decide (Z.of_nat j = B + T + 1) in
  (exists subj,
      heap hj !! p = Some subj /\
      ch_buf (SendChan subj) = (take (Z.to_nat (Z.min (Z.of_nat j) B)) ups).*1 /\
      ch_cap (SendChan subj) = B /\
      Dropped subj = Z.max 0 (Z.of_nat j - B) /\
      closed subj = evicted /\
      ch_closed (SendChan subj) = evicted) /\
  subs_of hj sym !! id = (if evicted then None else Some p) /\
  (forall sym' id', sym' <> sym -> subs_of hj sym' !! id' <> Some p) /\
  (exists others,
      0 <= others <= Z.of_nat j * (Z.of_nat (size (subs_of h sym)) - 1) /\
      droppedMessages hj =
        wrap64 (droppedMessages h + Z.max 0 (Z.of_nat j - B) + others)).

Definition minute : Z := 60 * 1000000000.

(** A hub with one subscriber ["a"], created at time 0 and subscribed to
    both ["BTC"] and ["ETH"]. *)
Definition two_topics : result (nat * Hub) :=
  '(p, h) ← CreateSubscriber (NewHub 4 3 minute) "a" 1 1 0;
  h ← Subscribe h "BTC" p;
  h ← Subscribe h "ETH" p;
  Ok (p, h).

(** The same subscriber subscribed twice to ["BTC"]. *)
Definition subscribed_twice : result Hub :=
  '(p, h) ← CreateSubscriber (NewHub 4 3 minute) "a" 1 1 0;
  h ← Subscribe h "BTC" p;
  Subscribe h "BTC" p.

(** A hub with [buffer_size = 1] and [slow_consumer_threshold = 1] whose
    only subscriber ["a"] (at address 0) is subscribed to ["BTC"]. *)
Definition slow_hub : Hub :=
  mkHub {["BTC" := mkTopic "BTC" {["a" := 0%nat]} 0]}
        {[0%nat := mkSubscriber "a" 1 1 (mkChan [] 1 false) 0 0 0 false]}
        1 1 minute 1 0.

Definition tick (seq : Z) : MarketDataUpdate * Z :=
  (mkUpdate "orderbook" "BTC" seq seq false None None, seq).

End HubSpec.

Module AuthSpec.
Import Auth.

(** The entry of the in-process cache that [Authenticate] returns without
    going further: present, no older than the TTL, and valid. *)
Definition cache_hit (s : Service) (keyHash : string) (now : Z) : option AuthContext :=
  match getFromCache s keyHash now with
  | Some authCtx => if IsValid authCtx now then Some authCtx else None
  | None => None
  end.

Definition sample_record (tenantStatus keyStatus : string) (expiresAt : option Z)
  : AuthContext :=
  mkAuthContext 1 "acme" tenantStatus 7 keyStatus 1 "basic" 2 10 5 1000 []
                expiresAt 0.

(** A repository with four keys; every other hash has no row. *)
Definition sample_db (keyHash : string) : QueryResult :=
  if String.eqb keyHash "h-valid" then Row (sample_record "active" "active" None)
  else if String.eqb keyHash "h-late" then Row (sample_record "active" "active" (Some 99))
  else if String.eqb keyHash "h-deleted" then Row (sample_record "deleted" "active" None)
  else if String.eqb keyHash "h-revoked" then Row (sample_record "active" "revoked" None)
  else ErrNoRows.

Definition sample_service : Service :=
  mkService sample_db false ∅ 300000000000 [].

(** A stand-in for the digest, to run [Authenticate] on examples. *)
Definition sample_hash (apiKey : string) : string := "h-" +:+ apiKey.

(** A valid authorization record: the tenant is active, the key is
    active, and the expiry is absent or not before [now]. *)
Definition valid_record (r : AuthContext) (now : Z) : Prop :=
  TenantStatus r = "active" /\ APIKeyStatus r = "active" /\
  forall t, ExpiresAt r = Some t -> now <= t.

(** The expiry of the record is past. *)
Definition expiry_past (r : AuthContext) (now : Z) : Prop :=
  exists t, ExpiresAt r = Some t /\ t < now.

(** The in-process cache holds the valid record [ac] under [keyHash],
    stamped no longer ago than the TTL. *)
Definition cached (s : Service) (keyHash : string) (now : Z) (ac : AuthContext)
  : Prop :=
  cache s !! keyHash = Some ac /\
  time_Sub now (CachedAt ac) <= cacheTTL s /\
  valid_record ac now.

(** The record [r] with [cached_at] set to [now]. *)
Definition stamped (r : AuthContext) (now : Z) : AuthContext :=
  mkAuthContext (TenantID r) (TenantName r) (TenantStatus r) (APIKeyID r)
                (APIKeyStatus r) (PlanID r) (PlanName r)
                (MaxConcurrentStreams r) (MaxRPS r) (MaxSymbols r)
                (MaxDailyRequests r) (Permissions r) (ExpiresAt r) now.

(** The sample repository with two more keys: one of a suspended tenant
    and one marked expired. *)
Definition full_db (keyHash : string) : QueryResult :=
  if String.eqb keyHash "h-suspended"
  then Row (sample_record "suspended" "active" None)
  else if String.eqb keyHash "h-expired"
  then Row (sample_record "active" "expired" None)
  else sample_db keyHash.

Definition full_service : Service :=
  mkService full_db false ∅ 300000000000 [].

End AuthSpec.

Module CacheTrace.
Import Types Cache CacheSpec.

(** A layer at whose time 100 the book of ["BTC"] is 100 ns old and the
    book of ["ETH"] 10 ns; both symbols have trades, and so has ["SOL"],
    which has no book. *)
Definition aged_layer : Layer :=
  mkLayer {["BTC" := mkOrderbookSnapshot "BTC" 0 1 [] [];
            "ETH" := mkOrderbookSnapshot "ETH" 90 1 [] []]}
          {["BTC" := mkRing [sample_trade "a"; zero_Trade] 1 1;
            "ETH" := mkRing [sample_trade "b"; zero_Trade] 1 1;
            "SOL" := mkRing [sample_trade "c"; zero_Trade] 1 1]}
          100 2.

End CacheTrace.

Module RateLimitTrace.
Import Types RateLimit RateLimitGC.

Section Trace.
Context `{RateLib}.

(** The calls on a limiter. *)
Inductive lim_op : Type :=
| LAllow (key : string) (now : Z)
| LAllowN (key : string) (n now : Z)
| LAcquireStream (key : string) (maxStreams now : Z)
| LReleaseStream (key : string)
| LSetLimit (key : string) (rps maxStreams now : Z)
| LCleanup (now : Z).

Definition lim_step (l : Limiter) (o : lim_op) : Limiter :=
  match o with
  | LAllow key now => (Allow l key now).2
  | LAllowN key n now => (AllowN l key n now).2
  | LAcquireStream key maxStreams now => (AcquireStream l key maxStreams now).2
  | LReleaseStream key => ReleaseStream l key
  | LSetLimit key rps maxStreams now => SetLimit l key rps maxStreams now
  | LCleanup now => cleanup l now
  end.

Definition lim_run (l : Limiter) (ops : list lim_op) : Limiter :=
  foldl lim_step l ops.

(** The stream maximum a call passes is an [int]. *)
Definition int_arg (o : lim_op) : Prop :=
  match o with
  | LAcquireStream _ maxStreams _ => maxStreams <= int_max
  | LSetLimit _ _ maxStreams _ => maxStreams <= int_max
  | _ => True
  end.

(** The key a call works on; the cleanup works on all. *)
Definition op_key (o : lim_op) : option string :=
  match o with
  | LAllow key _ => Some key
  | LAllowN key _ _ => Some key
  | LAcquireStream key _ _ => Some key
  | LReleaseStream key => Some key
  | LSetLimit key _ _ _ => Some key
  | LCleanup _ => None
  end.

(** A semaphore within its bounds. *)
Definition sem_ok (sl : StreamLimiter) : Prop :=
  0 <= activeStreams sl <= Z.max 0 (maxStreams sl) /\ maxStreams sl <= int_max.

(** Every semaphore of a limiter within its bounds. *)
Definition all_sem_ok (l : Limiter) : Prop :=
  defaultRPS l <= int_max /\
  forall key cl, limiters l !! key = Some cl -> sem_ok (Streams cl).

End Trace.

End RateLimitTrace.

Module HubTrace.
Import Types Fanout HubSpec.

(** The subscriber that [CreateSubscriber] allocates. *)
Definition new_subscriber (b : Z) (id : string) (tenantID apiKeyID now : Z)
  : Subscriber :=
  mkSubscriber id tenantID apiKeyID (mkChan [] b false) now now 0 false.

(** The four ways the code changes a subscriber: a send of the publish
    loop that finds room, a send that does not, the close of every
    eviction path, and the reader taking one update. *)
Definition sent (sub : Subscriber) (u : MarketDataUpdate) (now : Z) : Subscriber :=
  mkSubscriber (ID sub) (TenantID sub) (APIKeyID sub)
    (mkChan (ch_buf (SendChan sub) ++ [u]) (ch_cap (SendChan sub)) false)
    (ConnectTime sub) now (Dropped sub) (closed sub).

Definition missed (sub : Subscriber) : Subscriber :=
  mkSubscriber (ID sub) (TenantID sub) (APIKeyID sub) (SendChan sub)
    (ConnectTime sub) (LastSend sub) (int_add (Dropped sub) 1) (closed sub).

Definition shut (sub : Subscriber) : Subscriber :=
  mkSubscriber (ID sub) (TenantID sub) (APIKeyID sub)
    (mkChan (ch_buf (SendChan sub)) (ch_cap (SendChan sub)) true)
    (ConnectTime sub) (LastSend sub) (Dropped sub) true.

Definition drained (sub : Subscriber) (ch : Chan) : Subscriber :=
  mkSubscriber (ID sub) (TenantID sub) (APIKeyID sub) ch
    (ConnectTime sub) (LastSend sub) (Dropped sub) (closed sub).

Inductive cell_step : Subscriber -> Subscriber -> Prop :=
| cell_sent sub u now :
    closed sub = false -> ch_closed (SendChan sub) = false -> has_room sub = true ->
    cell_step sub (sent sub u now)
| cell_missed sub :
    closed sub = false -> cell_step sub (missed sub)
| cell_shut sub :
    ch_closed (SendChan sub) = false -> cell_step sub (shut sub)
| cell_drained sub u ch :
    receive (SendChan sub) = Some (u, ch) -> cell_step sub (drained sub ch).

(** [h'] comes from [h] by the operations: the settings are the same,
    every subscriber of [h] is still allocated and went through the four
    changes, and every new subscriber is one of [CreateSubscriber]. *)
Record evolves (h h' : Hub) : Prop := {
  ev_buffer : bufferSize h' = bufferSize h;
  ev_threshold : slowThreshold h' = slowThreshold h;
  ev_timeout : zombieTimeout h' = zombieTimeout h;
  ev_old : forall p sub, heap h !! p = Some sub ->
             exists sub', heap h' !! p = Some sub' /\ rtc cell_step sub sub';
  ev_new : forall p sub', heap h' !! p = Some sub' -> heap h !! p = None ->
             0 <= bufferSize h /\
             exists id tenantID apiKeyID now,
               rtc cell_step (new_subscriber (bufferSize h) id tenantID apiKeyID now) sub'
}.

(** The test of [CleanupZombies] on one subscriber. *)
Definition zombie (h : Hub) (now : Z) (sub : Subscriber) : bool :=
  (time_Sub now (LastSend sub) >? zombieTimeout h) && negb (closed sub).

(** [h'] comes from [h] by the sweep at time [now]: only zombies are
    changed, and they are closed; registrations only disappear, and
    those of the other subscribers stay. *)
Record swept (now : Z) (h h' : Hub) : Prop := {
  sw_timeout : zombieTimeout h' = zombieTimeout h;
  sw_heap : forall q sub, heap h !! q = Some sub ->
              exists sub', heap h' !! q = Some sub' /\
                           (zombie h now sub = false -> sub' = sub) /\
                           (sub' = sub \/ sub' = shut sub);
  sw_dom : forall q, heap h !! q = None -> heap h' !! q = None;
  sw_shrink : forall s, subs_of h' s ⊆ subs_of h s;
  sw_keep : forall s i q sub,
              subs_of h s !! i = Some q -> heap h !! q = Some sub ->
              zombie h now sub = false -> subs_of h' s !! i = Some q
}.

(** The active count agrees with the registrations. *)
Definition accounted (h : Hub) : Prop :=
  activeSubscribers h = wrap64 (registered h).

(** No [Subscribe] of the run registers a subscriber under an id that
    its topic already holds. *)
Fixpoint no_double_subscribe (h : Hub) (ops : list hub_op) : Prop :=
  match ops with
  | [] => True
  | o :: rest =>
      match o with
      | OpSubscribe sym p =>
          forall sub, heap h !! p = Some sub -> subs_of h sym !! ID sub = None
      | _ => True
      end /\
      forall h', hub_step h o = Ok h' -> no_double_subscribe h' rest
  end.

(** A hub reached from [NewHub] with two subscribers of ["BTC"]: ["a"]
    (at address 0) was last served at time 0, ["b"] (at address 1) at
    time [2 * minute]. *)
Definition busy_ops : list hub_op :=
  [OpCreateSubscriber "a" 1 1 0; OpSubscribe "BTC" 0%nat;
   OpCreateSubscriber "b" 2 2 (2 * minute); OpSubscribe "BTC" 1%nat].

Definition run_from (h : Hub) (ops : list hub_op) : Hub :=
  match hub_run h ops with
  | Ok h' => h'
  | Panic _ => h
  end.

Definition busy_hub : Hub := run_from (NewHub 2 1 minute) busy_ops.

(** The same hub after ["a"] unsubscribed. *)
Definition left_hub : Hub :=
  run_from (NewHub 2 1 minute) (busy_ops ++ [OpUnsubscribe "BTC" "a"]).

End HubTrace.

Module AuthTrace.
Import Auth AuthSpec.

(** The same service over a repository whose content has changed. *)
Definition set_db (s : Service) (db' : string -> QueryResult) : Service :=
  mkService db' (redis s) (cache s) (cacheTTL s) (lastUsed s).

(** The sample repository after the key of ["h-valid"] was revoked. *)
Definition revoked_db (keyHash : string) : QueryResult :=
  if String.eqb keyHash "h-valid" then Row (sample_record "active" "revoked" None)
  else sample_db keyHash.

End AuthTrace.

Module UpstreamSpec.
Import Upstream.

(** Ascending priority. *)
Definition by_priority (a b : GatewayConfig) : Prop := Priority a <= Priority b.

(** One pass of the bubble sort on a list with head [a]: the larger of
    two neighbours moves on. *)
Fixpoint bubble (a : GatewayConfig) (l : list GatewayConfig) : list GatewayConfig :=
  match l with
  | [] => [a]
  | b :: l' => if Priority a >? Priority b then b :: bubble a l' else a :: bubble b l'
  end.

Definition connection_to (gw : GatewayConfig) (now : Z) : GatewayConnection :=
  mkGatewayConnection (Endpoint gw) (Priority gw) (Region gw) true now 0.

(** The two delays of [calculateBackoff] after its defaults. *)
Definition base_of (m : Manager) : Z :=
  if ReconnectBaseDelay m =? 0 then 100 * Millisecond else ReconnectBaseDelay m.

Definition max_of (m : Manager) : Z :=
  if ReconnectMaxDelay m =? 0 then 30 * Second else ReconnectMaxDelay m.

Definition sample_manager : Manager :=
  mkManager [mkGatewayConfig "c" 3 "eu"; mkGatewayConfig "a" 1 "us";
             mkGatewayConfig "b" 2 "ap"] None 0 0 false.

End UpstreamSpec.

Module KeysSpec.
Import Keys.

(** The decimal rendering of a non-negative integer, most significant
    digit first (what [strconv.Itoa] gives). *)
Fixpoint digits (fuel : nat) (n : Z) (acc : string) : string :=
  match fuel with
  | O => acc
  | S fuel' =>
      let acc' := String (byte (48 + n mod 10)) acc in
      if n <? 10 then acc' else digits fuel' (n / 10) acc'
  end.

Definition Itoa (n : Z) : string := digits 20 n EmptyString.

End KeysSpec.

Module UsageSpec.
Import Keys Usage.

(** The recording calls on a collector. *)
Inductive usage_op : Type :=
| URequest (tenantID apiKeyID : Z)
| UMessage (tenantID apiKeyID : Z)
| UError (tenantID apiKeyID : Z)
| ULatency (tenantID apiKeyID latencyMs : Z)
| UPeak (tenantID apiKeyID currentStreams : Z).

Definition usage_step (c : Collector) (o : usage_op) : Collector :=
  match o with
  | URequest t k => RecordRequest c t k
  | UMessage t k => RecordMessage c t k
  | UError t k => RecordError c t k
  | ULatency t k ms => RecordLatency c t k ms
  | UPeak t k cur => UpdatePeakStreams c t k cur
  end.

Definition usage_run (c : Collector) (ops : list usage_op) : Collector :=
  foldl usage_step c ops.

Definition op_ids (o : usage_op) : Z * Z :=
  match o with
  | URequest t k | UMessage t k | UError t k | ULatency t k _ | UPeak t k _ => (t, k)
  end.

(** Both ids of the call are code points that UTF-8 can encode. *)
Definition valid_op (o : usage_op) : Prop :=
  valid_rune (op_ids o).1 = true /\ valid_rune (op_ids o).2 = true.

Definition is_request (t k : Z) (o : usage_op) : bool :=
  match o with URequest t' k' => (t' =? t) && (k' =? k) | _ => false end.

Definition is_message (t k : Z) (o : usage_op) : bool :=
  match o with UMessage t' k' => (t' =? t) && (k' =? k) | _ => false end.

Definition is_error (t k : Z) (o : usage_op) : bool :=
  match o with UError t' k' => (t' =? t) && (k' =? k) | _ => false end.

Definition is_on (t k : Z) (o : usage_op) : bool :=
  ((op_ids o).1 =? t) && ((op_ids o).2 =? k).

(** How many calls of a list satisfy a test. *)
Fixpoint count (p : usage_op -> bool) (ops : list usage_op) : Z :=
  match ops with
  | [] => 0
  | o :: rest => (if p o then 1 else 0) + count p rest
  end.

(** The buffer that a call works on. *)
Definition touched (c : Collector) (o : usage_op) : UsageBuffer :=
  match buffer c !! bufferKey (op_ids o).1 (op_ids o).2 with
  | Some buf => buf
  | None => mkUsageBuffer (op_ids o).1 (op_ids o).2 0 0 0 0 0 0
  end.

(** The rows of a flush for a pair of ids. *)
Definition rows_of (t k : Z) (rows : list UsageRow) : list UsageRow :=
  filter (fun row => row_TenantID row = t /\ row_APIKeyID row = k) rows.

(** What a collector holds after the calls [ops]: a buffer for each
    pair of ids that was recorded, under the key of the pair, with the
    ids of the pair and the numbers of its calls. *)
Record accounts (c : Collector) (ops : list usage_op) : Prop := {
  acc_none : forall t k, valid_rune t = true -> valid_rune k = true ->
    buffer c !! bufferKey t k = None -> count (is_on t k) ops = 0;
  acc_some : forall t k buf, valid_rune t = true -> valid_rune k = true ->
    buffer c !! bufferKey t k = Some buf ->
    TenantID buf = t /\ APIKeyID buf = k /\ 0 < count (is_on t k) ops /\
    Requests buf = wrap64 (count (is_request t k) ops) /\
    Messages buf = wrap64 (count (is_message t k) ops) /\
    Errors buf = wrap64 (count (is_error t k) ops);
  acc_keys : forall key buf, buffer c !! key = Some buf ->
    key = bufferKey (TenantID buf) (APIKeyID buf) /\
    valid_rune (TenantID buf) = true /\ valid_rune (APIKeyID buf) = true
}.

End UsageSpec.

(** * Verification *)

(** * Machine arithmetic *)

Lemma wrap64_id (z : Z) : int_min <= z <= int_max -> wrap64 z = z.
Proof.
  unfold wrap64, int_min, int_max. intros Hz.
  rewrite Z.mod_small; lia.
Qed.

Lemma int_add_exact (x y : Z) : int_min <= x + y <= int_max -> int_add x y = x + y.
Proof. apply wrap64_id. Qed.

Lemma int_sub_exact (x y : Z) : int_min <= x - y <= int_max -> int_sub x y = x - y.
Proof. apply wrap64_id. Qed.

Lemma wrap64_range (z : Z) : int_min <= wrap64 z <= int_max.
Proof.
  unfold wrap64, int_min, int_max.
  pose proof (Z.mod_pos_bound (z + 2 ^ 63) (2 ^ 64)). lia.
Qed.

Lemma wrap64_add_l (x y : Z) : wrap64 (wrap64 x + y) = wrap64 (x + y).
Proof.
  unfold wrap64.
  replace ((x + 2 ^ 63) mod 2 ^ 64 - 2 ^ 63 + y + 2 ^ 63)
    with ((x + 2 ^ 63) mod 2 ^ 64 + y) by lia.
  rewrite Zplus_mod_idemp_l. do 2 f_equal. lia.
Qed.

(** * Loops and slices *)

Lemma for_each_Forall2 {A : Type} (f : Z -> result A) (idxs : list Z) (xs : list A) :
  Forall2 (fun i x => f i = Ok x) idxs xs -> for_each f idxs = Ok xs.
Proof.
  induction 1 as [|i x idxs xs Hi _ IH]; simpl; [done|].
  rewrite Hi. simpl. rewrite IH. done.
Qed.

Lemma index_lookup {A : Type} (s : list A) (i : Z) (x : A) :
  0 <= i -> s !! Z.to_nat i = Some x -> index s i = Ok x.
Proof.
  intros Hi Hx. unfold index.
  pose proof (lookup_lt_Some _ _ _ Hx) as Hlt.
  replace (i <? 0) with false by lia.
  replace (Z.of_nat (length s) <=? i) with false by lia.
  simpl. by rewrite Hx.
Qed.

Module CacheFacts.
Import Types Cache.
Import CacheSpec.

Lemma ring_of_new (cap : Z) :
  0 <= cap -> exists rb, NewTradeRingBuffer cap = Ok rb /\ ring_of cap [] rb.
Proof.
  intros Hcap. unfold NewTradeRingBuffer, make_slice.
  replace (cap <? 0) with false by lia. simpl.
  eexists; split; [done|]. split; simpl.
  - unfold len. rewrite length_replicate. lia.
  - unfold len. simpl. by rewrite Zmod_0_l.
  - unfold len. simpl. lia.
  - unfold len. simpl. lia.
Qed.

Lemma ring_of_Add (cap : Z) (ts : list Trade) (rb : TradeRingBuffer) (t : Trade) :
  0 < cap < 2 ^ 62 -> ring_of cap ts rb ->
  exists rb', Add rb t = Ok rb' /\ ring_of cap (ts ++ [t]) rb'.
Proof.
  intros Hcap [Hlen Hhead Hcount Hslots].
  assert (Hh : 0 <= rb_head rb < cap) by (rewrite Hhead; apply Z.mod_pos_bound; lia).
  unfold Add, assign. fold (len (rb_trades rb)). rewrite Hlen.
  replace (rb_head rb <? 0) with false by lia.
  replace (cap <=? rb_head rb) with false by lia. simpl.
  unfold len at 1 2. rewrite length_insert. fold (len (rb_trades rb)). rewrite Hlen.
  unfold int_rem. replace (cap =? 0) with false by lia. simpl.
  eexists; split; [done|].
  assert (Hlen' : len (ts ++ [t]) = len ts + 1)
    by (unfold len; rewrite length_app; simpl; lia).
  assert (Hts : 0 <= len ts) by (unfold len; lia).
  split; simpl.
  - unfold len. rewrite length_insert. exact Hlen.
  - rewrite int_add_exact by (unfold int_min, int_max; lia).
    rewrite Z.rem_mod_nonneg by lia.
    rewrite Hlen', Hhead. rewrite Zplus_mod_idemp_l. done.
  - rewrite Hlen', Hcount.
    destruct (Z.ltb_spec (Z.min (len ts) cap) cap).
    + rewrite int_add_exact by (unfold int_min, int_max; lia). lia.
    + lia.
  - intros k Hk. rewrite Hlen' in Hk.
    destruct (decide (Z.of_nat k = len ts)) as [Heq|Hne].
    + rewrite Heq, <- Hhead.
      rewrite list_lookup_insert_eq by (unfold len in *; lia).
      symmetry. replace k with (length ts + 0)%nat by (unfold len in *; lia).
      by rewrite lookup_app_r, Nat.add_comm, Nat.add_sub by lia.
    + rewrite lookup_app_l by (unfold len in *; lia).
      rewrite list_lookup_insert_ne; [apply Hslots; lia|].
      rewrite Hhead. intros Heq.
      apply Z2Nat.inj in Heq; try (apply Z.mod_pos_bound; lia).
      assert (Hdiv : (len ts - Z.of_nat k) mod cap = 0).
      { rewrite Zminus_mod, Heq, Z.sub_diag. by apply Zmod_0_l. }
      apply Z.mod_divide in Hdiv; [|lia]. destruct Hdiv as [q Hq].
      assert (0 < q) by nia. assert (q < 1) by nia. lia.
Qed.

Lemma ring_of_Add_all (cap : Z) (ts0 ts : list Trade) (rb : TradeRingBuffer) :
  0 < cap < 2 ^ 62 -> ring_of cap ts0 rb ->
  exists rb', Add_all rb ts = Ok rb' /\ ring_of cap (ts0 ++ ts) rb'.
Proof.
  intros Hcap. revert ts0 rb.
  induction ts as [|t ts IH]; intros ts0 rb Hrb; simpl.
  - rewrite app_nil_r. eauto.
  - destruct (ring_of_Add cap ts0 rb t Hcap Hrb) as (rb1 & -> & Hrb1). simpl.
    destruct (IH _ _ Hrb1) as (rb' & Hall & Hrb').
    rewrite <- app_assoc in Hrb'. eauto.
Qed.

Lemma ring_of_GetRecent (cap : Z) (ts : list Trade) (rb : TradeRingBuffer) (n : Z) :
  0 < cap < 2 ^ 62 -> ring_of cap ts rb -> 0 <= n ->
  GetRecent rb n = Ok (last_n (Z.min n (rb_count rb)) ts).
Proof.
  intros Hcap [Hlen Hhead Hcount Hslots] Hn.
  assert (Hh : 0 <= rb_head rb < cap) by (rewrite Hhead; apply Z.mod_pos_bound; lia).
  assert (Hts : 0 <= len ts) by (unfold len; lia).
  unfold GetRecent.
  set (n' := if n >? rb_count rb then rb_count rb else n).
  assert (Hn' : n' = Z.min n (rb_count rb)) by (subst n'; destruct (Z.gtb_spec n (rb_count rb)); lia).
  rewrite <- Hn'. clearbody n'.
  assert (Hb : 0 <= n' <= cap /\ n' <= len ts) by lia.
  unfold make_slice. replace (n' <? 0) with false by lia. simpl.
  apply for_each_Forall2, Forall2_same_length_lookup_2.
  - unfold last_n. rewrite length_seqZ, length_drop. unfold len in *. lia.
  - intros j i y Hi Hy. apply lookup_seqZ in Hi as [-> Hj].
    unfold last_n in Hy. rewrite lookup_drop in Hy.
    rewrite Hlen.
    rewrite (int_sub_exact (rb_head rb) n') by (unfold int_min, int_max; lia).
    rewrite (int_add_exact (rb_head rb - n')) by (unfold int_min, int_max; lia).
    rewrite int_add_exact by (unfold int_min, int_max; lia).
    unfold int_rem. replace (cap =? 0) with false by lia. simpl.
    rewrite Z.rem_mod_nonneg by lia.
    apply index_lookup; [apply Z.mod_pos_bound; lia|].
    rewrite <- Hy.
    set (k := (length ts - Z.to_nat n' + j)%nat).
    assert (Hk : Z.of_nat k = len ts - n' + Z.of_nat j) by (unfold k, len in *; lia).
    rewrite <- (Hslots k) by lia. f_equal. f_equal.
    rewrite Hk, Hhead.
    replace (len ts mod cap - n' + (0 + Z.of_nat j) + cap)
      with (len ts mod cap + (- n' + Z.of_nat j + 1 * cap)) by lia.
    rewrite Zplus_mod_idemp_l.
    replace (len ts + (- n' + Z.of_nat j + 1 * cap))
      with (len ts - n' + Z.of_nat j + 1 * cap) by lia.
    apply Z_mod_plus_full.
Qed.

Lemma ring_of_GetAll (cap : Z) (ts : list Trade) (rb : TradeRingBuffer) :
  0 < cap < 2 ^ 62 -> ring_of cap ts rb -> GetAll rb = Ok (last_n cap ts).
Proof.
  intros Hcap [Hlen Hhead Hcount Hslots].
  assert (Hh : 0 <= rb_head rb < cap) by (rewrite Hhead; apply Z.mod_pos_bound; lia).
  assert (Hts : 0 <= len ts) by (unfold len; lia).
  unfold GetAll, make_slice. replace (rb_count rb <? 0) with false by lia. simpl.
  rewrite Hlen. destruct (Z.ltb_spec (rb_count rb) cap) as [Hlt|Hge].
  - f_equal. assert (Hc : rb_count rb = len ts) by lia.
    unfold last_n. replace (length ts - Z.to_nat cap)%nat with 0%nat
      by (unfold len in *; lia).
    rewrite drop_0. apply list_eq. intros k.
    destruct (decide (k < length ts)%nat) as [Hk|Hk].
    + rewrite lookup_take_lt by (unfold len in *; lia).
      rewrite <- (Hslots k) by (unfold len in *; lia).
      rewrite Z.mod_small by (unfold len in *; lia). by rewrite Nat2Z.id.
    + rewrite lookup_take_ge by (unfold len in *; lia).
      symmetry. apply lookup_ge_None. lia.
  - assert (Hc : rb_count rb = cap) by lia. rewrite Hc.
    apply for_each_Forall2, Forall2_same_length_lookup_2.
    + unfold last_n. rewrite length_seqZ, length_drop. unfold len in *. lia.
    + intros j i y Hi Hy. apply lookup_seqZ in Hi as [-> Hj].
      unfold last_n in Hy. rewrite lookup_drop in Hy.
      rewrite int_add_exact by (unfold int_min, int_max; lia).
      unfold int_rem. replace (cap =? 0) with false by lia. simpl.
      rewrite Z.rem_mod_nonneg by lia.
      apply index_lookup; [apply Z.mod_pos_bound; lia|].
      rewrite <- Hy.
      set (k := (length ts - Z.to_nat cap + j)%nat).
      assert (Hk : Z.of_nat k = len ts - cap + Z.of_nat j) by (unfold k, len in *; lia).
      rewrite <- (Hslots k) by lia. f_equal. f_equal.
      rewrite Hk, Hhead, Zplus_mod_idemp_l.
      replace (len ts - cap + Z.of_nat j)
        with (len ts + (0 + Z.of_nat j) + (-1) * cap) by lia.
      symmetry. apply Z_mod_plus_full.
Qed.

Lemma layer_of_new (maxDepth cap : Z) : layer_of cap [] (NewLayer maxDepth cap).
Proof. split; [done|]. intros sym. simpl. by rewrite lookup_empty. Qed.

Lemma of_symbol_snoc (sym : string) (ts : list Trade) (t : Trade) :
  of_symbol sym (ts ++ [t]) =
  if decide (tr_Symbol t = sym) then of_symbol sym ts ++ [t] else of_symbol sym ts.
Proof.
  unfold of_symbol. rewrite filter_app, filter_cons, filter_nil.
  case_decide; [done|]. by rewrite app_nil_r.
Qed.

Lemma layer_of_AddTrade (cap : Z) (ts : list Trade) (l : Layer) (t : Trade) :
  0 < cap < 2 ^ 62 -> layer_of cap ts l ->
  exists l', AddTrade l t = Ok l' /\ layer_of cap (ts ++ [t]) l'.
Proof.
  intros Hcap [Hsize Hrings].
  assert (Hnew : exists rb', (match trades l !! tr_Symbol t with
                             | Some rb => Add rb t
                             | None => rb ← NewTradeRingBuffer (tradeSize l); Add rb t
                             end) = Ok rb'
                            /\ ring_of cap (of_symbol (tr_Symbol t) ts ++ [t]) rb').
  { pose proof (Hrings (tr_Symbol t)) as Hsym.
    destruct (trades l !! tr_Symbol t) as [rb|].
    - by apply ring_of_Add.
    - rewrite Hsym, Hsize.
      destruct (ring_of_new cap) as (rb0 & -> & Hrb0); [lia|]. simpl.
      by apply (ring_of_Add cap [] rb0 t). }
  destruct Hnew as (rb' & Hadd & Hrb').
  exists (mkLayer (orderbooks l) (<[tr_Symbol t := rb']> (trades l))
                  (maxDepth l) (tradeSize l)).
  split.
  - unfold AddTrade. destruct (trades l !! tr_Symbol t) as [rb|].
    + by rewrite Hadd.
    + destruct (NewTradeRingBuffer (tradeSize l)) as [rb0|]; [|done].
      simpl in *. by rewrite Hadd.
  - split; [done|]. intros sym. simpl. rewrite of_symbol_snoc.
    destruct (decide (tr_Symbol t = sym)) as [<-|Hne].
    + by rewrite lookup_insert_eq.
    + rewrite lookup_insert_ne by done. apply Hrings.
Qed.

Lemma layer_of_AddTrade_all (cap : Z) (ts0 ts : list Trade) (l : Layer) :
  0 < cap < 2 ^ 62 -> layer_of cap ts0 l ->
  exists l', AddTrade_all l ts = Ok l' /\ layer_of cap (ts0 ++ ts) l'.
Proof.
  intros Hcap. revert ts0 l.
  induction ts as [|t ts IH]; intros ts0 l Hl; simpl.
  - rewrite app_nil_r. eauto.
  - destruct (layer_of_AddTrade cap ts0 l t Hcap Hl) as (l1 & -> & Hl1). simpl.
    destruct (IH _ _ Hl1) as (l' & Hall & Hl').
    rewrite <- app_assoc in Hl'. eauto.
Qed.

Lemma layer_of_GetRecentTrades (cap : Z) (ts : list Trade) (l : Layer)
      (sym : string) (n : Z) :
  0 < cap < 2 ^ 62 -> layer_of cap ts l -> 0 <= n ->
  GetRecentTrades l sym n =
  Ok (last_n (Z.min n (Z.min (len (of_symbol sym ts)) cap)) (of_symbol sym ts)).
Proof.
  intros Hcap [Hsize Hrings] Hn. unfold GetRecentTrades.
  specialize (Hrings sym). destruct (trades l !! sym) as [rb|].
  - rewrite (ring_of_GetRecent cap (of_symbol sym ts)) by done.
    by rewrite (ring_count _ _ _ Hrings).
  - by rewrite Hrings.
Qed.

(** C7.  A ring of capacity [cap] that received more than [cap] trades
    through [Add] holds exactly the last [cap] of them in insertion
    order, and [GetRecent] with a non-negative [n] returns the last
    [min n count] of them, oldest first; on a layer with
    [trade_history_size = cap], [GetRecentTrades] returns the last
    [min n count] trades of the symbol, where [count] is the number of
    trades of that symbol still held (at most [cap]).  The capacity is
    positive, and below [2 ^ 62] as the length of any slice is. *)
Theorem ring_recency (cap : Z) (ts : list Trade) :
  0 < cap < 2 ^ 62 -> cap < len ts ->
  exists rb0 rb,
    NewTradeRingBuffer cap = Ok rb0 /\ Add_all rb0 ts = Ok rb /\
    rb_count rb = cap /\
    GetAll rb = Ok (last_n cap ts) /\
    (forall n, 0 <= n -> GetRecent rb n = Ok (last_n (Z.min n (rb_count rb)) ts)) /\
    (forall maxDepth n sym (all : list Trade), 0 <= n ->
       exists l,
         AddTrade_all (NewLayer maxDepth cap) all = Ok l /\
         GetRecentTrades l sym n =
         Ok (last_n (Z.min n (Z.min (len (of_symbol sym all)) cap))
                    (of_symbol sym all))).
Proof.
  intros Hcap Hk.
  destruct (ring_of_new cap) as (rb0 & Hnew & Hrb0); [lia|].
  destruct (ring_of_Add_all cap [] ts rb0 Hcap Hrb0) as (rb & Hall & Hrb).
  simpl in Hrb. exists rb0, rb. repeat split; try done.
  - destruct Hrb as [_ _ Hcount _]. lia.
  - by apply ring_of_GetAll.
  - intros n Hn. by apply (ring_of_GetRecent cap).
  - intros maxDepth n sym all Hn.
    destruct (layer_of_AddTrade_all cap [] all (NewLayer maxDepth cap) Hcap
                (layer_of_new maxDepth cap)) as (l & Hl & Hlayer).
    exists l. split; [done|]. by apply layer_of_GetRecentTrades.
Qed.

(** C7 on a ring of capacity 2 that received three trades. *)
Lemma ring_recency_witness :
  exists rb0 rb,
    NewTradeRingBuffer 2 = Ok rb0 /\
    Add_all rb0 [sample_trade "a"; sample_trade "b"; sample_trade "c"] = Ok rb /\
    rb_count rb = 2 /\
    GetAll rb = Ok [sample_trade "b"; sample_trade "c"] /\
    GetRecent rb 1 = Ok [sample_trade "c"].
Proof.
  destruct (ring_recency 2 [sample_trade "a"; sample_trade "b"; sample_trade "c"])
    as (rb0 & rb & Hnew & Hall & Hcount & Hget & Hrecent & _).
  - lia.
  - unfold len. simpl. lia.
  - exists rb0, rb. repeat split; try done.
    rewrite (Hrecent 1) by lia. rewrite Hcount. reflexivity.
Defined.

Lemma trim_side (maxDepth : Z) (side : list PriceLevel) :
  0 <= maxDepth ->
  (if len side >? maxDepth then slice_to side maxDepth else Ok side)
  = Ok (trim maxDepth side).
Proof.
  intros Hd. unfold trim, slice_to.
  destruct (Z.gtb_spec (len side) maxDepth) as [Hgt|Hle].
  - replace (maxDepth <? 0) with false by lia.
    replace (len side <? maxDepth) with false by lia. done.
  - rewrite take_ge; [done|]. unfold len in Hle. lia.
Qed.

Lemma trim_length (maxDepth : Z) (side : list PriceLevel) :
  0 <= maxDepth -> len (trim maxDepth side) <= maxDepth.
Proof. intros Hd. unfold trim, len. rewrite length_take. lia. Qed.

Lemma UpdateOrderbook_ok (l : Layer) (snapshot : OrderbookSnapshot) :
  0 <= maxDepth l ->
  UpdateOrderbook l snapshot =
  Ok (mkLayer (<[ob_Symbol snapshot :=
                 mkOrderbookSnapshot (ob_Symbol snapshot) (ob_Timestamp snapshot)
                   (ob_Sequence snapshot)
                   (trim (maxDepth l) (ob_Asks snapshot))
                   (trim (maxDepth l) (ob_Bids snapshot))]> (orderbooks l))
              (trades l) (maxDepth l) (tradeSize l)).
Proof.
  intros Hd. unfold UpdateOrderbook.
  rewrite !trim_side by done. done.
Qed.

Lemma depth_bounded_new (maxDepth tradeSize : Z) :
  depth_bounded (NewLayer maxDepth tradeSize).
Proof. intros sym s. simpl. by rewrite lookup_empty. Qed.

Lemma depth_bounded_step (l l' : Layer) (o : op) :
  depth_bounded l -> step l o = Ok l' -> depth_bounded l'.
Proof.
  intros Hl Hstep. destruct o as [snapshot|sym|trade|sym count| |now thr]; simpl in Hstep.
  - destruct (Z.le_gt_cases 0 (maxDepth l)) as [Hd|Hd].
    + rewrite UpdateOrderbook_ok in Hstep by done. injection Hstep as <-.
      intros sym s. simpl.
      destruct (decide (ob_Symbol snapshot = sym)) as [<-|Hne].
      * rewrite lookup_insert_eq. intros [= <-]. simpl.
        split; by apply trim_length.
      * rewrite lookup_insert_ne by done. apply Hl.
    + exfalso. unfold UpdateOrderbook, slice_to in Hstep.
      assert (Hlen : 0 <= len (ob_Asks snapshot)) by (unfold len; lia).
      replace (len (ob_Asks snapshot) >? maxDepth l) with true in Hstep by lia.
      replace (maxDepth l <? 0) with true in Hstep by lia.
      simpl in Hstep. discriminate.
  - by injection Hstep as <-.
  - unfold AddTrade in Hstep.
    destruct (trades l !! tr_Symbol trade) as [rb|].
    + destruct (Add rb trade); [|done]. simpl in Hstep. by injection Hstep as <-.
    + destruct (NewTradeRingBuffer (tradeSize l)) as [rb|]; [|done]. simpl in Hstep.
      destruct (Add rb trade); [|done]. simpl in Hstep. by injection Hstep as <-.
  - destruct (GetRecentTrades l sym count); [|done]. by injection Hstep as <-.
  - by injection Hstep as <-.
  - injection Hstep as <-. intros sym s. unfold Cleanup. simpl.
    intros Hs. apply map_lookup_filter_Some in Hs as [Hs _]. by apply (Hl sym).
Qed.

Lemma depth_bounded_run (ops : list op) (l l' : Layer) :
  depth_bounded l -> run l ops = Ok l' -> depth_bounded l'.
Proof.
  revert l. induction ops as [|o ops IH]; intros l Hl Hrun; simpl in Hrun.
  - by injection Hrun as <-.
  - destruct (step l o) as [l1|] eqn:Hstep; [|done]. simpl in Hrun.
    eapply IH; [|done]. by eapply depth_bounded_step.
Qed.

(** On a side sorted best-first, every level that [trim] keeps has a
    strictly better price than every level it drops. *)
Lemma trim_keeps_best (R : PriceLevel -> PriceLevel -> Prop) (d : Z)
      (side : list PriceLevel) :
  StronglySorted R side ->
  Forall (fun kept => Forall (R kept) (drop (Z.to_nat d) side)) (trim d side).
Proof.
  intros Hsorted. unfold trim.
  rewrite <- (take_drop (Z.to_nat d) side) in Hsorted.
  apply StronglySorted_app in Hsorted as (Hcross & _ & _).
  apply Forall_forall. intros kept Hkept.
  apply Forall_forall. intros dropped Hdropped. by apply Hcross.
Qed.

(** C6.  With a non-negative [max_depth], [UpdateOrderbook] stores the
    first [max_depth] levels of each side; on sides sorted best-first
    these are the best prices (each kept level is strictly better than
    each dropped one); both stored sides have at most [max_depth]
    levels, and the bound holds for every cached snapshot after any
    further cache operations. *)
Theorem depth_bound (l : Layer) (snapshot : OrderbookSnapshot) :
  0 <= maxDepth l -> depth_bounded l ->
  asks_sorted (ob_Asks snapshot) -> bids_sorted (ob_Bids snapshot) ->
  exists l' stored,
    UpdateOrderbook l snapshot = Ok l' /\
    orderbooks l' !! ob_Symbol snapshot = Some stored /\
    ob_Asks stored = take (Z.to_nat (maxDepth l)) (ob_Asks snapshot) /\
    ob_Bids stored = take (Z.to_nat (maxDepth l)) (ob_Bids snapshot) /\
    Forall (fun kept =>
              Forall (fun dropped => float64_lt (Price kept) (Price dropped))
                     (drop (Z.to_nat (maxDepth l)) (ob_Asks snapshot)))
           (ob_Asks stored) /\
    Forall (fun kept =>
              Forall (fun dropped => float64_lt (Price dropped) (Price kept))
                     (drop (Z.to_nat (maxDepth l)) (ob_Bids snapshot)))
           (ob_Bids stored) /\
    len (ob_Asks stored) <= maxDepth l /\
    len (ob_Bids stored) <= maxDepth l /\
    depth_bounded l' /\
    forall ops l'', run l' ops = Ok l'' -> depth_bounded l''.
Proof.
  intros Hd Hl Hasks Hbids.
  assert (Hl' : forall l', UpdateOrderbook l snapshot = Ok l' -> depth_bounded l').
  { intros l' Hup. by apply (depth_bounded_step l l' (OpUpdateOrderbook snapshot)). }
  rewrite UpdateOrderbook_ok in * by done.
  eexists _, _. split; [reflexivity|]. simpl.
  rewrite lookup_insert_eq. split; [reflexivity|]. simpl.
  split; [done|]. split; [done|].
  split; [by apply (trim_keeps_best _ (maxDepth l))|].
  split; [by apply (trim_keeps_best _ (maxDepth l))|].
  split; [by apply trim_length|]. split; [by apply trim_length|].
  split; [by apply Hl'|].
  intros ops l'' Hrun. eapply depth_bounded_run; [|done]. by apply Hl'.
Qed.

Lemma deep_book_sorted :
  asks_sorted (ob_Asks deep_book) /\ bids_sorted (ob_Bids deep_book).
Proof. split; repeat constructor. Qed.

(** C6 on a book of three levels a side and [max_depth = 2]. *)
Lemma depth_bound_witness :
  exists l' stored,
    UpdateOrderbook (NewLayer 2 10) deep_book = Ok l' /\
    orderbooks l' !! "BTC" = Some stored /\
    ob_Asks stored = [level price1; level price2] /\
    ob_Bids stored = [level price3; level price2].
Proof.
  destruct (depth_bound (NewLayer 2 10) deep_book) as
    (l' & stored & Hup & Hstored & Hasks & Hbids & _).
  - simpl. lia.
  - apply depth_bounded_new.
  - apply deep_book_sorted.
  - apply deep_book_sorted.
  - exists l', stored. by repeat split.
Defined.

(** C3, counterexample: an update with sequence 5 followed by one with
    sequence 3 leaves sequence 3 visible. *)
Lemma sequence_goes_backward : ~ sequence_never_backward.
Proof.
  intros Hclaim.
  pose (l := NewLayer 100 1000).
  pose (l1 := mkLayer {["BTC" := book_seq 5]} ∅ 100 1000).
  pose (l2 := mkLayer (<["BTC" := book_seq 3]> {["BTC" := book_seq 5]}) ∅ 100 1000).
  specialize (Hclaim l l1 l2 (book_seq 5) (book_seq 3) (book_seq 5) (book_seq 3)).
  assert (H53 : (5 <= 3)%Z); [|lia].
  apply Hclaim; reflexivity.
Qed.

(** C3, amended.  [UpdateOrderbook] stores the snapshot it is given
    whatever its sequence: after two successive updates of one symbol
    [GetOrderbook] shows the sequence of the first and then that of the
    second, so the visible sequence is non-decreasing exactly when the
    updates are delivered with non-decreasing sequences. *)
Theorem sequence_follows_updates (l : Layer) (s1 s2 : OrderbookSnapshot) :
  0 <= maxDepth l -> ob_Symbol s1 = ob_Symbol s2 ->
  exists l1 l2 o1 o2,
    UpdateOrderbook l s1 = Ok l1 /\ UpdateOrderbook l1 s2 = Ok l2 /\
    GetOrderbook l1 (ob_Symbol s1) = Some o1 /\
    GetOrderbook l2 (ob_Symbol s1) = Some o2 /\
    ob_Sequence o1 = ob_Sequence s1 /\ ob_Sequence o2 = ob_Sequence s2 /\
    (ob_Sequence o1 <= ob_Sequence o2 <-> ob_Sequence s1 <= ob_Sequence s2).
Proof.
  intros Hd Hsym.
  rewrite (UpdateOrderbook_ok l s1) by done.
  eexists _, _, _, _. split; [reflexivity|].
  rewrite UpdateOrderbook_ok by done. split; [reflexivity|].
  unfold GetOrderbook. simpl. rewrite <- Hsym, !lookup_insert_eq.
  split; [reflexivity|]. split; [reflexivity|]. simpl. done.
Qed.

(** C3 as amended, on sequence 5 followed by sequence 3. *)
Lemma sequence_follows_updates_witness :
  exists l1 l2 o1 o2,
    UpdateOrderbook (NewLayer 100 1000) (book_seq 5) = Ok l1 /\
    UpdateOrderbook l1 (book_seq 3) = Ok l2 /\
    GetOrderbook l1 "BTC" = Some o1 /\ GetOrderbook l2 "BTC" = Some o2 /\
    ob_Sequence o1 = 5 /\ ob_Sequence o2 = 3.
Proof.
  destruct (sequence_follows_updates (NewLayer 100 1000) (book_seq 5) (book_seq 3))
    as (l1 & l2 & o1 & o2 & H1 & H2 & H3 & H4 & H5 & H6 & _).
  - simpl. lia.
  - reflexivity.
  - exists l1, l2, o1, o2. by repeat split.
Defined.

Lemma GetRecent_negative (rb : TradeRingBuffer) (n : Z) :
  n < 0 -> GetRecent rb n = Panic "makeslice: len out of range".
Proof.
  intros Hn. unfold GetRecent, make_slice.
  destruct (Z.gtb_spec n (rb_count rb)).
  - replace (rb_count rb <? 0) with true by lia. done.
  - replace (n <? 0) with true by lia. done.
Qed.

(** C9.  For a symbol that has a trade ring, a negative count makes
    [GetRecentTrades] panic in the slice allocation; the HTTP handler
    (which only caps the count at 1000) and the gRPC method pass a
    negative count through unchanged; with a count of at least zero the
    call on a ring maintained by [AddTrade] returns. *)
Theorem get_recent_negative_panics (l : Layer) (sym : string)
        (rb : TradeRingBuffer) (n : Z) :
  trades l !! sym = Some rb -> n < 0 ->
  GetRecentTrades l sym n = Panic "makeslice: len out of range" /\
  Api.GetRecentTrades l sym n = Panic "makeslice: len out of range" /\
  (sym <> "" -> Api.handleGetTrades l sym n = Panic "makeslice: len out of range") /\
  (forall cap ts m, 0 < cap < 2 ^ 62 -> layer_of cap ts l -> 0 <= m ->
     exists r, GetRecentTrades l sym m = Ok r).
Proof.
  intros Hrb Hn.
  assert (Hget : GetRecentTrades l sym n = Panic "makeslice: len out of range").
  { unfold GetRecentTrades. rewrite Hrb. by apply GetRecent_negative. }
  split; [done|]. split; [done|]. split.
  - intros Hsym. unfold Api.handleGetTrades.
    apply String.eqb_neq in Hsym. rewrite Hsym.
    replace (n >? 1000) with false by lia. by rewrite Hget.
  - intros cap ts m Hcap Hl Hm. eexists. by apply (layer_of_GetRecentTrades cap ts).
Qed.

(** C9 on a layer holding one trade of ["BTC"], with count [-1]. *)
Lemma get_recent_negative_panics_witness :
  GetRecentTrades one_trade_layer "BTC" (-1) = Panic "makeslice: len out of range" /\
  Api.handleGetTrades one_trade_layer "BTC" (-1)
  = Panic "makeslice: len out of range".
Proof.
  destruct (get_recent_negative_panics one_trade_layer "BTC"
              (mkRing [sample_trade "a"; zero_Trade] 1 1) (-1))
    as (Hget & _ & Hhttp & _).
  - unfold one_trade_layer. simpl. apply lookup_singleton_eq.
  - lia.
  - split; [exact Hget|]. apply Hhttp. discriminate.
Defined.

End CacheFacts.

Module RateLimitFacts.
Import Types RateLimit.
Import RateLimitSpec.

Section WithRate.
  Context `{RateLib}.

Lemma streams_of_store (l : Limiter) (key : string) (cl : ClientLimiter) :
  streams_of (store l key cl) key = Some (Streams cl).
Proof. unfold streams_of, store. simpl. by rewrite lookup_insert_eq. Qed.

Lemma AcquireStream_existing (l : Limiter) (key : string) (m now : Z)
      (cl : ClientLimiter) :
  limiters l !! key = Some cl ->
  AcquireStream l key m now =
  ((Acquire (Streams cl)).1,
   store l key (mkClientLimiter (RPS cl) (Acquire (Streams cl)).2 now)).
Proof.
  intros Hcl. unfold AcquireStream, getOrCreate. rewrite Hcl.
  by destruct (Acquire (Streams cl)).
Qed.

(** First contact through [AcquireStream]: the semaphore is created
    with the caller's [maxStreams]. *)
Lemma AcquireStream_first (l : Limiter) (key : string) (m now : Z) :
  limiters l !! key = None ->
  (AcquireStream l key m now).1 = bool_decide (0 < m) /\
  maxStreams <$> streams_of (AcquireStream l key m now).2 key = Some m.
Proof.
  intros Hnone. unfold AcquireStream, getOrCreate. rewrite Hnone.
  unfold Acquire, NewStreamLimiter. simpl.
  destruct (Z.geb_spec 0 m); simpl; rewrite streams_of_store; simpl;
    (split; [|done]).
  - by rewrite bool_decide_eq_false_2 by lia.
  - by rewrite bool_decide_eq_true_2 by lia.
Qed.

(** First contact through [Allow]: the semaphore is created with the
    default request rate as its maximum. *)
Lemma Allow_first (l : Limiter) (key : string) (now : Z) :
  limiters l !! key = None ->
  streams_of (Allow l key now).2 key = Some (NewStreamLimiter (defaultRPS l)).
Proof.
  intros Hnone. unfold Allow, getOrCreate. rewrite Hnone. simpl.
  destruct (rate_AllowN now 1 _). simpl. by rewrite streams_of_store.
Qed.

Lemma acquire_until_full (key : string) (m m' now : Z) (k : nat)
      (l : Limiter) (cl : ClientLimiter) :
  limiters l !! key = Some cl ->
  maxStreams (Streams cl) = m ->
  activeStreams (Streams cl) = m - Z.of_nat k ->
  m <= int_max -> int_min <= m - Z.of_nat k ->
  (AcquireStream_n (k + 1) l key m' now).1 = replicate k true ++ [false].
Proof.
  revert l cl. induction k as [|k IH]; intros l cl Hcl Hmax Hact Hm Hk.
  - simpl. rewrite (AcquireStream_existing l key m' now cl) by done.
    unfold Acquire. replace (activeStreams (Streams cl) >=? maxStreams (Streams cl))
      with true by lia. done.
  - change (S k + 1)%nat with (S (k + 1)). cbn [AcquireStream_n].
    rewrite (AcquireStream_existing l key m' now cl) by done.
    unfold Acquire. replace (activeStreams (Streams cl) >=? maxStreams (Streams cl))
      with false by lia. cbn [fst snd].
    match goal with
    | |- context [AcquireStream_n _ ?l1 _ _ _] =>
        specialize (IH l1 (mkClientLimiter (RPS cl)
                        (mkStreamLimiter (maxStreams (Streams cl))
                           (int_add (activeStreams (Streams cl)) 1)) now))
    end.
    destruct (AcquireStream_n (k + 1) _ key m' now) as [oks l2].
    cbn [fst]. simpl in IH. rewrite IH; try done.
    + unfold store. simpl. by rewrite lookup_insert_eq.
    + rewrite int_add_exact by (unfold int_min, int_max in *; lia). lia.
    + lia.
Qed.

Lemma ReleaseStream_idle (l : Limiter) (key : string) (cl : ClientLimiter) :
  limiters l !! key = Some cl -> activeStreams (Streams cl) = 0 ->
  ReleaseStream l key = store l key cl.
Proof.
  intros Hcl Hact. unfold ReleaseStream. rewrite Hcl. f_equal.
  unfold Release. rewrite Hact. simpl. by destruct cl.
Qed.

Lemma release_saturates (key : string) (n : nat) (l : Limiter) (cl : ClientLimiter) :
  limiters l !! key = Some cl -> activeStreams (Streams cl) = 0 ->
  streams_of (ReleaseStream_n n l key) key = Some (Streams cl).
Proof.
  revert l. induction n as [|n IH]; intros l Hcl Hact; simpl.
  - unfold streams_of. by rewrite Hcl.
  - rewrite (ReleaseStream_idle l key cl) by done. apply IH; [|done].
    unfold store. simpl. by rewrite lookup_insert_eq.
Qed.

(** C10.  [SetLimit] on a key that already has a limiter installs a
    fresh semaphore with [active = 0], whatever number of slots was
    held: right after it the key admits [max_streams] further
    streams (and then refuses), and any number of [ReleaseStream]
    calls leaves [active] at 0. *)
Theorem SetLimit_forgets_streams (l : Limiter) (key : string) (rps m now : Z)
        (cl : ClientLimiter) :
  limiters l !! key = Some cl -> 0 <= m <= int_max ->
  streams_of (SetLimit l key rps m now) key = Some (mkStreamLimiter m 0) /\
  (forall m' now',
     (AcquireStream_n (Z.to_nat m + 1) (SetLimit l key rps m now) key m' now').1
     = replicate (Z.to_nat m) true ++ [false]) /\
  (forall n,
     streams_of (ReleaseStream_n n (SetLimit l key rps m now) key) key
     = Some (mkStreamLimiter m 0)).
Proof.
  intros Hcl Hm. unfold SetLimit. rewrite Hcl.
  set (cl' := mkClientLimiter _ (NewStreamLimiter m) (LastAccess cl)).
  assert (Hcl' : limiters (store l key cl') !! key = Some cl')
    by (unfold store; simpl; by rewrite lookup_insert_eq).
  split; [by rewrite streams_of_store|]. split.
  - intros m' now'.
    apply (acquire_until_full key m m' now' (Z.to_nat m) _ cl');
      simpl; unfold int_min, int_max in *; try done; lia.
  - intros n. by rewrite (release_saturates key n _ cl').
Qed.

End WithRate.

(** C10 on a key that holds both of its two slots. *)
Lemma SetLimit_forgets_streams_witness :
  streams_of busy_limiter "k" = Some (mkStreamLimiter 2 2) /\
  streams_of (SetLimit busy_limiter "k" 100 2 1) "k" = Some (mkStreamLimiter 2 0) /\
  (AcquireStream_n 3 (SetLimit busy_limiter "k" 100 2 1) "k" 2 1).1
  = [true; true; false].
Proof.
  split; [reflexivity|].
  destruct (SetLimit_forgets_streams (H := counting_rate) busy_limiter "k" 100 2 1
              (mkClientLimiter (H := counting_rate) 200 (mkStreamLimiter 2 2) 0))
    as (Hnew & Hacq & _).
  - reflexivity.
  - unfold int_max. lia.
  - split; [exact Hnew|]. exact (Hacq 2 1).
Defined.

(** C5, at the input where the code departs from the claim: a key whose
    first contact with the limiter is [Allow] gets a semaphore whose
    maximum is the default request rate (100), so three successive
    [AcquireStream] calls with [max_streams = 2] are all admitted. *)
Theorem Allow_first_then_AcquireStream :
  let l0 := NewLimiter (H := counting_rate) sample_config in
  let l1 := (Allow l0 "k" 0).2 in
  streams_of l1 "k" = Some (mkStreamLimiter 100 0) /\
  (AcquireStream_n 3 l1 "k" 2 0).1 = [true; true; true] /\
  (AcquireStream_n 3 l0 "k" 2 0).1 = [true; true; false].
Proof. repeat split; reflexivity. Qed.

End RateLimitFacts.

Module HubFacts.
Import Types Fanout.
Import HubSpec.

Lemma subs_of_set_topic (h : Hub) (sym sym' : string) (t : Topic) :
  subs_of (set_topic h sym t) sym' =
  if decide (sym = sym') then subscribers t else subs_of h sym'.
Proof.
  unfold subs_of, set_topic. simpl. case_decide as Hs.
  - subst. by rewrite lookup_insert_eq.
  - by rewrite lookup_insert_ne.
Qed.

Lemma wf_NewHub (b t z : Z) : wf (NewHub b t z).
Proof.
  split.
  - intros sym id p. unfold subs_of. simpl. rewrite lookup_empty.
    by rewrite lookup_empty.
  - intros p sub. simpl. by rewrite lookup_empty.
  - simpl. unfold int_min, int_max. lia.
Qed.

Lemma wf_set_sub (h : Hub) (p : nat) (sub sub' : Subscriber) :
  wf h -> heap h !! p = Some sub -> ID sub' = ID sub ->
  ch_closed (SendChan sub') = closed sub' -> wf (set_sub h p sub').
Proof.
  intros [Hreg Hcl Hdr] Hp Hid Hflag. split; [| |done].
  - intros sym id q Hq. destruct (Hreg sym id q Hq) as (s & Hs & Hids).
    simpl. destruct (decide (p = q)) as [->|Hne].
    + rewrite lookup_insert_eq. exists sub'. split; [done|]. congruence.
    + rewrite lookup_insert_ne by done. eauto.
  - intros q s. simpl. destruct (decide (p = q)) as [->|Hne].
    + rewrite lookup_insert_eq. by intros [= <-].
    + rewrite lookup_insert_ne by done. apply Hcl.
Qed.

Lemma wf_fresh_sub (h : Hub) (p : nat) (sub' : Subscriber) :
  wf h -> heap h !! p = None ->
  ch_closed (SendChan sub') = closed sub' -> wf (set_sub h p sub').
Proof.
  intros [Hreg Hcl Hdr] Hp Hflag. split; [| |done].
  - intros sym id q Hq. destruct (Hreg sym id q Hq) as (s & Hs & Hids).
    simpl. rewrite lookup_insert_ne by congruence. eauto.
  - intros q s. simpl. destruct (decide (p = q)) as [->|Hne].
    + rewrite lookup_insert_eq. by intros [= <-].
    + rewrite lookup_insert_ne by done. apply Hcl.
Qed.

Lemma wf_set_topic (h : Hub) (sym : string) (t : Topic) :
  wf h ->
  (forall id p, subscribers t !! id = Some p ->
                exists sub, heap h !! p = Some sub /\ ID sub = id) ->
  wf (set_topic h sym t).
Proof.
  intros [Hreg Hcl Hdr] Ht. split; [|done|done].
  intros sym' id p. rewrite subs_of_set_topic. case_decide; simpl; eauto.
Qed.

Lemma wf_add_active (h : Hub) (d : Z) : wf h -> wf (add_active h d).
Proof. intros [Hreg Hcl Hdr]. by split. Qed.

Lemma wf_add_dropped (h : Hub) (d : Z) : wf h -> wf (add_dropped h d).
Proof. intros [Hreg Hcl Hdr]. split; [done|done|]. simpl. apply wrap64_range. Qed.

Lemma wf_CreateSubscriber (h h' : Hub) (id : string) (tenant key now : Z) (p : nat) :
  wf h -> CreateSubscriber h id tenant key now = Ok (p, h') ->
  wf h' /\ heap h !! p = None /\
  heap h' !! p = Some (mkSubscriber id tenant key (mkChan [] (bufferSize h) false)
                                    now now 0 false).
Proof.
  intros Hwf. unfold CreateSubscriber, make_chan.
  destruct (bufferSize h <? 0); [done|]. simpl. intros [= <- <-].
  assert (Hfresh : heap h !! fresh (dom (heap h)) = None)
    by (apply not_elem_of_dom, is_fresh).
  split; [by apply wf_fresh_sub|]. split; [done|].
  simpl. by rewrite lookup_insert_eq.
Qed.

Lemma wf_Subscribe (h h' : Hub) (sym : string) (p : nat) :
  wf h -> Subscribe h sym p = Ok h' -> wf h'.
Proof.
  intros Hwf. unfold Subscribe, deref.
  destruct (heap h !! p) as [sub|] eqn:Hp; [|done]. simpl. intros [= <-].
  apply wf_add_active, wf_set_topic; [done|]. simpl. intros id q.
  destruct (decide (ID sub = id)) as [<-|Hne].
  - rewrite lookup_insert_eq. intros [= <-]. eauto.
  - rewrite lookup_insert_ne by done. intros Hq.
    apply (wf_registered h Hwf sym id q). unfold subs_of.
    by destruct (topics h !! sym).
Qed.

(** *** One subscriber under one publish *)

Lemma deliver_registered (sym : string) (u : MarketDataUpdate) (now : Z)
      (h : Hub) (id : string) (p : nat) (sub : Subscriber) :
  wf h -> subs_of h sym !! id = Some p -> heap h !! p = Some sub -> ID sub = id ->
  exists h',
    deliver sym u now h p = Ok h' /\ wf h' /\
    heap h' = <[p := served (slowThreshold h) u now sub]> (heap h) /\
    subs_of h' sym = after_serving (slowThreshold h) id sub (subs_of h sym) /\
    (forall sym', sym' <> sym -> topics h' !! sym' = topics h !! sym') /\
    bufferSize h' = bufferSize h /\ slowThreshold h' = slowThreshold h /\
    droppedMessages h' =
      (if drops sub then int_add (droppedMessages h) 1 else droppedMessages h) /\
    activeSubscribers h' =
      (if evicts (slowThreshold h) sub
       then int_add (activeSubscribers h) (-1) else activeSubscribers h).
Proof.
  intros Hwf Hreg Hp Hid.
  pose proof (wf_closed h Hwf p sub Hp) as Hflag.
  unfold deliver, deref. rewrite Hp. simpl.
  unfold served, after_serving, evicts, drops, try_send, has_room.
  destruct (closed sub) eqn:Hclosed; simpl.
  { exists h. split_and!; try done. by rewrite insert_id. }
  rewrite Hflag.
  destruct (Z.of_nat (length (ch_buf (SendChan sub))) <? ch_cap (SendChan sub));
    simpl.
  { eexists. split; [reflexivity|]. split_and!; try done.
    by eapply wf_set_sub. }
  destruct (int_add (Dropped sub) 1 >? slowThreshold h) eqn:Hslow.
  - unfold handleSlowConsumer, Unsubscribe. simpl.
    unfold subs_of in Hreg.
    destruct (topics h !! sym) as [topic|] eqn:Htopic; [|by rewrite lookup_empty in Hreg].
    rewrite Hid, Hreg. unfold close_and_remove, deref. simpl.
    rewrite lookup_insert_eq. simpl. unfold close_chan. simpl. rewrite Hflag. simpl.
    eexists. split; [reflexivity|]. split_and!; try done.
    + apply wf_add_active, wf_set_topic.
      * eapply wf_set_sub; [|simpl; apply lookup_insert_eq|done|done].
        apply wf_add_dropped. by eapply wf_set_sub.
      * simpl. intros id' q Hq. apply lookup_delete_Some in Hq as [_ Hq].
        destruct (wf_registered h Hwf sym id' q) as (s & Hs & Hids).
        { unfold subs_of. by rewrite Htopic. }
        rewrite insert_insert_eq. destruct (decide (p = q)) as [->|Hne].
        -- rewrite lookup_insert_eq. eexists. split; [done|]. simpl. congruence.
        -- rewrite lookup_insert_ne by done. eauto.
    + simpl. by rewrite insert_insert_eq.
    + unfold subs_of. simpl. rewrite lookup_insert_eq. simpl. by rewrite Htopic.
    + intros sym' Hne. simpl. by rewrite lookup_insert_ne.
  - eexists. split; [reflexivity|]. split_and!; try done.
    apply wf_add_dropped. by eapply wf_set_sub.
Qed.

(** *** The publish loop *)

Lemma drop_count_frame (h h' : Hub) (ps : list nat) :
  (forall p, p ∈ ps -> heap h' !! p = heap h !! p) ->
  drop_count h' ps = drop_count h ps.
Proof.
  induction ps as [|p ps IH]; intros Hframe; simpl; [done|].
  rewrite Hframe by left. rewrite IH; [done|].
  intros q Hq. apply Hframe. by right.
Qed.

Lemma drop_count_bounds (h : Hub) (ps : list nat) :
  0 <= drop_count h ps <= Z.of_nat (length ps).
Proof.
  induction ps as [|p ps IH]; simpl; [lia|].
  destruct (heap h !! p) as [sub|]; [destruct (drops sub)|]; lia.
Qed.

Lemma deliver_all_registered (sym : string) (u : MarketDataUpdate) (now : Z)
      (es : list (string * nat)) (h : Hub) :
  wf h -> NoDup es.*1 ->
  (forall id p, (id, p) ∈ es -> subs_of h sym !! id = Some p) ->
  exists h',
    deliver_all sym u now h es.*2 = Ok h' /\ wf h' /\
    (forall p, p ∉ es.*2 -> heap h' !! p = heap h !! p) /\
    (forall id, id ∉ es.*1 -> subs_of h' sym !! id = subs_of h sym !! id) /\
    (forall id p sub, (id, p) ∈ es -> heap h !! p = Some sub ->
       heap h' !! p = Some (served (slowThreshold h) u now sub) /\
       subs_of h' sym !! id =
         if evicts (slowThreshold h) sub then None else Some p) /\
    subs_of h' sym ⊆ subs_of h sym /\
    (forall sym', sym' <> sym -> topics h' !! sym' = topics h !! sym') /\
    bufferSize h' = bufferSize h /\ slowThreshold h' = slowThreshold h /\
    droppedMessages h' = wrap64 (droppedMessages h + drop_count h es.*2).
Proof.
  revert h. induction es as [|[id0 p0] es IH]; intros h Hwf Hnodup Hreg.
  { exists h. simpl. split_and!; try done.
    - intros id p sub Hin. by apply elem_of_nil in Hin.
    - rewrite Z.add_0_r. symmetry. apply wrap64_id, (wf_dropped h Hwf). }
  rewrite fmap_cons in Hnodup. apply NoDup_cons in Hnodup as [Hid0 Hnodup].
  assert (Hreg0 : subs_of h sym !! id0 = Some p0) by (apply Hreg; left).
  destruct (wf_registered h Hwf sym id0 p0 Hreg0) as (sub0 & Hp0 & Hsub0).
  destruct (deliver_registered sym u now h id0 p0 sub0 Hwf Hreg0 Hp0 Hsub0)
    as (h1 & Hstep & Hwf1 & Hheap1 & Hsubs1 & Htopics1 & Hbuf1 & Hthr1 & Hdm1 & _).
  assert (Hother : forall id p, (id, p) ∈ es -> id <> id0 /\ p <> p0).
  { intros id p Hin.
    assert (Hne : id <> id0).
    { intros ->. apply Hid0. apply list_elem_of_fmap. by exists (id0, p). }
    split; [done|]. intros ->.
    assert (Hregp : subs_of h sym !! id = Some p0) by (apply Hreg; by right).
    destruct (wf_registered h Hwf sym id p0 Hregp) as (s & Hs & Hids).
    congruence. }
  assert (Hp0_fresh : p0 ∉ es.*2).
  { intros Hin. apply list_elem_of_fmap in Hin as ([id p] & Heq & Hin).
    simpl in Heq. subst p. by destruct (Hother id p0 Hin). }
  assert (Hsubs1_ne : forall id, id <> id0 -> subs_of h1 sym !! id = subs_of h sym !! id).
  { intros id Hne. rewrite Hsubs1. unfold after_serving.
    destruct (evicts _ _); [|done]. by rewrite lookup_delete_ne. }
  destruct (IH h1 Hwf1 Hnodup) as
    (h' & Hall & Hwf' & Hframe & Hsubs & Heffect & Hsub & Htopics & Hbuf & Hthr & Hdm).
  { intros id p Hin. destruct (Hother id p Hin) as [Hne _].
    rewrite Hsubs1_ne by done. apply Hreg. by right. }
  exists h'. simpl. rewrite Hstep. simpl. split_and!; try done.
  - intros p Hp. apply not_elem_of_cons in Hp as [Hne Hp].
    rewrite Hframe by done. rewrite Hheap1. by rewrite lookup_insert_ne.
  - intros id Hid. apply not_elem_of_cons in Hid as [Hne Hid].
    rewrite Hsubs by done. by apply Hsubs1_ne.
  - intros id p sub Hin Hp. apply elem_of_cons in Hin as [[= -> ->]|Hin].
    + assert (sub = sub0) as -> by congruence.
      rewrite Hframe by done. rewrite Hheap1, lookup_insert_eq.
      split; [done|]. rewrite Hsubs by done. rewrite Hsubs1.
      unfold after_serving. destruct (evicts _ _); [|done].
      apply lookup_delete_eq.
    + destruct (Hother id p Hin) as [Hne Hnep].
      rewrite <- Hthr1. apply Heffect; [done|].
      rewrite Hheap1. by rewrite lookup_insert_ne.
  - etrans; [done|]. rewrite Hsubs1. unfold after_serving.
    destruct (evicts _ _); [|done]. apply delete_subseteq.
  - intros sym' Hne. rewrite Htopics by done. by apply Htopics1.
  - congruence.
  - congruence.
  - rewrite Hdm, Hdm1, Hp0.
    rewrite (drop_count_frame h h1 es.*2).
    + destruct (drops sub0).
      * unfold int_add. rewrite wrap64_add_l. apply (f_equal wrap64).
        symmetry. apply Z.add_assoc.
      * reflexivity.
    + intros p Hp. rewrite Hheap1. rewrite lookup_insert_ne; [done|].
      intros ->. done.
Qed.

(** *** One publish *)

Lemma Publish_spec (h : Hub) (sym : string) (u : MarketDataUpdate) (now : Z) :
  wf h ->
  exists h',
    Publish h sym u now = Ok h' /\ wf h' /\
    (forall id p sub, subs_of h sym !! id = Some p -> heap h !! p = Some sub ->
       heap h' !! p = Some (served (slowThreshold h) u now sub) /\
       subs_of h' sym !! id =
         if evicts (slowThreshold h) sub then None else Some p) /\
    subs_of h' sym ⊆ subs_of h sym /\
    (forall sym', sym' <> sym -> topics h' !! sym' = topics h !! sym') /\
    bufferSize h' = bufferSize h /\ slowThreshold h' = slowThreshold h /\
    droppedMessages h' =
      wrap64 (droppedMessages h + drop_count h (map_to_list (subs_of h sym)).*2).
Proof.
  intros Hwf. unfold Publish, subs_of.
  destruct (topics h !! sym) as [topic|] eqn:Htopic.
  - set (h1 := set_topic h sym (mkTopic (symbol topic) (subscribers topic) now)).
    assert (Hsubs1 : subs_of h1 sym = subscribers topic).
    { unfold h1. rewrite subs_of_set_topic. by rewrite decide_True. }
    assert (Hwf1 : wf h1).
    { apply wf_set_topic; [done|]. simpl. intros id p Hp.
      apply (wf_registered h Hwf sym). unfold subs_of. by rewrite Htopic. }
    destruct (deliver_all_registered sym u now (map_to_list (subscribers topic)) h1)
      as (h' & Hall & Hwf' & _ & _ & Heffect & Hsub & Htopics & Hbuf & Hthr & Hdm).
    + done.
    + apply NoDup_fst_map_to_list.
    + intros id p Hin. rewrite Hsubs1. by apply elem_of_map_to_list.
    + exists h'. split; [done|]. split; [done|]. split_and!; try done.
      * intros id p sub Hp Hsub0. fold (subs_of h' sym).
        apply Heffect; [|done]. by apply elem_of_map_to_list.
      * fold (subs_of h' sym). by rewrite <- Hsubs1.
      * intros sym' Hne. rewrite Htopics by done. unfold h1. simpl.
        by rewrite lookup_insert_ne.
      * rewrite Hdm. apply (f_equal wrap64). simpl. f_equal.
        by apply drop_count_frame.
  - exists h. split; [done|]. split; [done|]. split_and!; try done.
    + by rewrite Htopic.
    + rewrite map_to_list_empty. simpl. rewrite Z.add_0_r.
      symmetry. apply wrap64_id, (wf_dropped h Hwf).
Qed.

Lemma Publish_all_snoc (h : Hub) (sym : string)
      (ups : list (MarketDataUpdate * Z)) (u : MarketDataUpdate * Z) :
  Publish_all h sym (ups ++ [u]) =
  (h' ← Publish_all h sym ups; Publish h' sym u.1 u.2).
Proof.
  revert h. induction ups as [|v ups IH]; intros h; simpl.
  - by destruct (Publish h sym u.1 u.2).
  - destruct (Publish h sym v.1 v.2) as [h1|]; simpl; [apply IH|done].
Qed.

(** *** Well-formedness is an invariant of the hub *)

Lemma wf_close_and_remove (h h' : Hub) (sym subID : string) (topic : Topic) (p : nat) :
  wf h -> topics h !! sym = Some topic ->
  close_and_remove h sym subID topic p = Ok h' -> wf h'.
Proof.
  intros Hwf Htopic. unfold close_and_remove, deref, close_chan.
  destruct (heap h !! p) as [sub|] eqn:Hp; [|done]. simpl.
  destruct (ch_closed (SendChan sub)); [done|]. simpl. intros [= <-].
  apply wf_add_active, wf_set_topic.
  - by eapply wf_set_sub.
  - simpl. intros id q Hq. apply lookup_delete_Some in Hq as [_ Hq].
    destruct (wf_registered h Hwf sym id q) as (s & Hs & Hid).
    { unfold subs_of. by rewrite Htopic. }
    destruct (decide (p = q)) as [->|Hne].
    + rewrite lookup_insert_eq. eexists. split; [done|]. simpl. congruence.
    + rewrite lookup_insert_ne by done. eauto.
Qed.

Lemma wf_Unsubscribe (h h' : Hub) (sym subID : string) :
  wf h -> Unsubscribe h sym subID = Ok h' -> wf h'.
Proof.
  intros Hwf. unfold Unsubscribe.
  destruct (topics h !! sym) as [topic|] eqn:Htopic; [|by intros [= <-]].
  destruct (subscribers topic !! subID) as [p|]; [|by intros [= <-]].
  by apply wf_close_and_remove.
Qed.

Lemma wf_sweep_topic (now : Z) (sym : string) (entries : list (string * nat))
      (h h' : Hub) :
  wf h -> sweep_topic now sym h entries = Ok h' -> wf h'.
Proof.
  revert h. induction entries as [|[subID p] entries IH]; intros h Hwf; simpl.
  { by intros [= <-]. }
  unfold deref. destruct (heap h !! p) as [sub|]; [|done]. simpl.
  destruct (_ && _).
  - destruct (topics h !! sym) as [topic|] eqn:Htopic; [|by apply IH].
    destruct (close_and_remove h sym subID topic p) as [h1|] eqn:Hclose; [|done].
    simpl. apply IH. by eapply wf_close_and_remove.
  - by apply IH.
Qed.

Lemma wf_sweep_topics (now : Z) (syms : list string) (h h' : Hub) :
  wf h -> sweep_topics now h syms = Ok h' -> wf h'.
Proof.
  revert h. induction syms as [|sym syms IH]; intros h Hwf; simpl.
  { by intros [= <-]. }
  destruct (topics h !! sym) as [topic|]; [|by apply IH].
  destruct (sweep_topic now sym h _) as [h1|] eqn:Hsweep; [|done].
  simpl. apply IH. by eapply wf_sweep_topic.
Qed.

Lemma wf_read_one (h : Hub) (p : nat) : wf h -> wf (read_one h p).
Proof.
  intros Hwf. unfold read_one, receive.
  destruct (heap h !! p) as [sub|] eqn:Hp; [|done].
  destruct (ch_buf (SendChan sub)); [done|].
  eapply wf_set_sub; [done|done|done|]. simpl. by apply (wf_closed h Hwf p).
Qed.

Lemma wf_hub_step (h h' : Hub) (o : hub_op) :
  wf h -> hub_step h o = Ok h' -> wf h'.
Proof.
  intros Hwf. destruct o as [id t k now|sym p|sym subID|sym u now|now|p]; simpl.
  - destruct (CreateSubscriber h id t k now) as [[p h1]|] eqn:Hcreate; [|done].
    simpl. intros [= <-]. by destruct (wf_CreateSubscriber h h1 id t k now p).
  - by apply wf_Subscribe.
  - by apply wf_Unsubscribe.
  - destruct (Publish_spec h sym u now Hwf) as (h1 & -> & Hwf1 & _).
    by intros [= <-].
  - by apply wf_sweep_topics.
  - intros [= <-]. by apply wf_read_one.
Qed.

(** Every hub reached from [NewHub] through the operations is
    well-formed. *)
Lemma wf_reachable (b t z : Z) (ops : list hub_op) (h : Hub) :
  hub_run (NewHub b t z) ops = Ok h -> wf h.
Proof.
  assert (Hgen : forall h0, wf h0 -> hub_run h0 ops = Ok h -> wf h).
  { induction ops as [|o ops IH]; intros h0 Hwf; simpl.
    - by intros [= <-].
    - destruct (hub_step h0 o) as [h1|] eqn:Hstep; [|done]. simpl.
      apply IH. by eapply wf_hub_step. }
  apply Hgen, wf_NewHub.
Qed.

Lemma drop_count_others (h : Hub) (ps : list nat) (p : nat) (sub : Subscriber) :
  p ∈ ps -> heap h !! p = Some sub ->
  0 <= drop_count h ps - (if drops sub then 1 else 0) <= Z.of_nat (length ps) - 1.
Proof.
  induction ps as [|q ps IH]; intros Hin Hp; [by apply elem_of_nil in Hin|].
  pose proof (drop_count_bounds h ps) as Hb. simpl.
  apply elem_of_cons in Hin as [->|Hin].
  - rewrite Hp. destruct (drops sub); lia.
  - specialize (IH Hin Hp).
    destruct (heap h !! q) as [s|]; [destruct (drops s)|]; lia.
Qed.

(** *** A subscriber that never reads *)

Lemma publish_backpressure_steps (h : Hub) (sym id : string) (p : nat)
      (sub : Subscriber) (ups : list (MarketDataUpdate * Z)) :
  wf h ->
  0 <= bufferSize h -> 0 <= slowThreshold h < int_max ->
  subs_of h sym !! id = Some p -> heap h !! p = Some sub ->
  (forall sym' id', sym' <> sym -> subs_of h sym' !! id' <> Some p) ->
  SendChan sub = mkChan [] (bufferSize h) false ->
  Dropped sub = 0 -> closed sub = false ->
  forall j : nat,
    Z.of_nat j <= bufferSize h + slowThreshold h + 1 ->
    Z.of_nat j <= Z.of_nat (length ups) ->
    exists hj,
      Publish_all h sym (take j ups) = Ok hj /\
      wf hj /\ bufferSize hj = bufferSize h /\ slowThreshold hj = slowThreshold h /\
      subs_of hj sym ⊆ subs_of h sym /\
      after_publishes h sym id p ups j hj.
Proof.
  intros Hwf HB HT Hreg Hp Hone Hchan Hdropped Hclosed.
  set (B := bufferSize h) in *. set (T := slowThreshold h) in *.
  induction j as [|j IH]; intros Hj Hlen.
  { exists h. rewrite take_0. split; [done|]. split_and!; try done.
    unfold after_publishes. fold B T.
    rewrite bool_decide_eq_false_2 by lia. split_and!; try done.
    - exists sub. rewrite Hchan. simpl. split_and!; try done.
      + by replace (Z.to_nat (Z.min (Z.of_nat 0) B)) with 0%nat by lia.
      + lia.
    - exists 0. split; [lia|]. rewrite Z.max_l by lia. rewrite !Z.add_0_r.
      symmetry. apply wrap64_id, (wf_dropped h Hwf). }
  destruct IH as (hj & Hrun & Hwfj & HBj & HTj & Hsubj & Hstate); [lia|lia|].
  destruct Hstate as ((subj & Hpj & Hbuf & Hcap & Hdr & Hcl & Hchcl) & Hregj & Honej
                      & others & Hothers & Hdm).
  fold B T in Hbuf, Hcap, Hdr, Hcl, Hchcl, Hregj, Hdm.
  rewrite bool_decide_eq_false_2 in Hcl, Hchcl, Hregj by lia.
  destruct (lookup_lt_is_Some_2 ups j) as [u Hu]; [lia|].
  rewrite (take_S_r ups j u Hu), Publish_all_snoc, Hrun. simpl.
  destruct (Publish_spec hj sym u.1 u.2 Hwfj) as
    (h' & Hpub & Hwf' & Heffect & Hsub' & Htopics & HB' & HT' & Hdm').
  destruct (Heffect id p subj Hregj Hpj) as [Hp' Hreg'].
  rewrite HTj in Hp', Hreg'. fold T in Hp', Hreg'.
  assert (Hmember : p ∈ (map_to_list (subs_of hj sym)).*2).
  { apply list_elem_of_fmap. exists (id, p). split; [done|].
    by apply elem_of_map_to_list. }
  pose proof (drop_count_others hj _ p subj Hmember Hpj) as Hstep.
  rewrite length_fmap, length_map_to_list in Hstep.
  pose proof (map_subseteq_size _ _ Hsubj) as Hsize.
  exists h'. split; [done|]. split; [done|].
  split; [congruence|]. split; [congruence|].
  split; [by etrans|].
  assert (Hlenbuf : Z.of_nat (length (ch_buf (SendChan subj)))
                    = Z.min (Z.of_nat j) B).
  { rewrite Hbuf, length_fmap, length_take. lia. }
  unfold after_publishes. fold B T.
  assert (Hdm_sum : forall own,
             own = (if drops subj then 1 else 0) ->
             Z.max 0 (Z.of_nat (S j) - B) = Z.max 0 (Z.of_nat j - B) + own ->
             exists others0,
               0 <= others0 <= Z.of_nat (S j) * (Z.of_nat (size (subs_of h sym)) - 1) /\
               droppedMessages h' =
                 wrap64 (droppedMessages h + Z.max 0 (Z.of_nat (S j) - B) + others0)).
  { intros own Hown Hmax.
    exists (others + (drop_count hj (map_to_list (subs_of hj sym)).*2 - own)).
    split; [subst own; nia|].
    rewrite Hdm', Hdm, wrap64_add_l, Hmax. apply (f_equal wrap64). lia. }
  assert (Hone' : forall sym' id', sym' <> sym -> subs_of h' sym' !! id' <> Some p).
  { intros sym' id' Hne. unfold subs_of. rewrite Htopics by done.
    by apply Honej. }
  unfold served, evicts, drops, has_room in Hp', Hreg', Hdm_sum.
  rewrite Hcl, Hlenbuf, Hcap in Hp', Hreg', Hdm_sum. simpl in Hp', Hreg', Hdm_sum.
  destruct (Z.ltb_spec (Z.min (Z.of_nat j) B) B) as [Hroom|Hfull];
    simpl in Hp', Hreg', Hdm_sum.
  - (* the queue has room: the update is enqueued *)
    rewrite bool_decide_eq_false_2 by lia.
    split_and!; try done.
    + eexists. split; [exact Hp'|]. simpl. split_and!; try done.
      * rewrite Hbuf. replace (Z.to_nat (Z.min (Z.of_nat j) B)) with j by lia.
        replace (Z.to_nat (Z.min (Z.of_nat (S j)) B)) with (S j) by lia.
        by rewrite (take_S_r ups j u Hu), fmap_app.
      * rewrite Hdr. lia.
    + apply (Hdm_sum 0); [done|lia].
  - (* the queue is full: the update is dropped *)
    rewrite Hdr in Hp', Hreg'.
    rewrite int_add_exact in Hp', Hreg' by (unfold int_min, int_max in *; lia).
    destruct (Z.gtb_spec (Z.max 0 (Z.of_nat j - B) + 1) T) as [Hslow|Hok].
    + rewrite bool_decide_eq_true_2 by lia.
      split_and!; try done.
      * eexists. split; [exact Hp'|]. simpl. split_and!; try done.
        -- rewrite Hbuf. do 2 f_equal. lia.
        -- lia.
      * apply (Hdm_sum 1); [done|lia].
    + rewrite bool_decide_eq_false_2 by lia.
      split_and!; try done.
      * eexists. split; [exact Hp'|]. simpl. split_and!; try done.
        -- rewrite Hbuf. do 2 f_equal. lia.
        -- lia.
      * apply (Hdm_sum 1); [done|lia].
Qed.

(** C2.  On a well-formed hub with queue capacity [buffer_size >= 0] and
    threshold [0 <= slow_consumer_threshold < max int64], take a
    subscriber of exactly one symbol with an empty queue of that capacity
    and no drops, whose reader never receives.  Over
    [buffer_size + slow_consumer_threshold + 1] successive publishes on
    that symbol, every prefix of the publishes succeeds, the first
    [buffer_size] updates are enqueued, every later publish increments
    [dropped_count] and the hub-wide dropped counter, and the last
    publish, on which [dropped_count] first exceeds the threshold, sets
    the flag, closes the queue and leaves the subscriber registered in no
    topic.  (With the threshold at max int64 no [int64] count exceeds
    it.) *)
Theorem publish_backpressure (h : Hub) (sym id : string) (p : nat)
        (sub : Subscriber) (ups : list (MarketDataUpdate * Z)) :
  wf h ->
  0 <= bufferSize h -> 0 <= slowThreshold h < int_max ->
  subs_of h sym !! id = Some p -> heap h !! p = Some sub ->
  (forall sym' id', sym' <> sym -> subs_of h sym' !! id' <> Some p) ->
  SendChan sub = mkChan [] (bufferSize h) false ->
  Dropped sub = 0 -> closed sub = false ->
  Z.of_nat (length ups) = bufferSize h + slowThreshold h + 1 ->
  (forall j : nat,
     Z.of_nat j <= bufferSize h + slowThreshold h + 1 ->
     exists hj,
       Publish_all h sym (take j ups) = Ok hj /\
       after_publishes h sym id p ups j hj) /\
  exists h' sub',
    Publish_all h sym ups = Ok h' /\ heap h' !! p = Some sub' /\
    closed sub' = true /\ ch_closed (SendChan sub') = true /\
    ch_buf (SendChan sub') = (take (Z.to_nat (bufferSize h)) ups).*1 /\
    Dropped sub' = slowThreshold h + 1 /\
    forall sym' id', subs_of h' sym' !! id' <> Some p.
Proof.
  intros Hwf HB HT Hreg Hp Hone Hchan Hdropped Hclosed Hlen.
  pose proof (publish_backpressure_steps h sym id p sub ups
                Hwf HB HT Hreg Hp Hone Hchan Hdropped Hclosed) as Hsteps.
  split.
  - intros j Hj. destruct (Hsteps j) as (hj & Hrun & _ & _ & _ & _ & Hstate);
      [lia|lia|]. eauto.
  - destruct (Hsteps (length ups)) as (h' & Hrun & Hwf' & _ & _ & Hsub & Hstate);
      [lia|lia|].
    rewrite firstn_all in Hrun.
    destruct Hstate as ((sub' & Hp' & Hbuf & _ & Hdr & Hcl & Hchcl) & Hreg' & Hone' & _).
    rewrite bool_decide_eq_true_2 in Hcl, Hchcl, Hreg' by lia.
    exists h', sub'. split_and!; try done.
    + rewrite Hbuf. do 2 f_equal. lia.
    + rewrite Hdr. lia.
    + intros sym' id' Hin. destruct (decide (sym' = sym)) as [->|Hne].
      * assert (Hin0 : subs_of h sym !! id' = Some p)
          by (eapply lookup_weaken; done).
        destruct (wf_registered h Hwf sym id p Hreg) as (s1 & Hs1 & Hid1).
        destruct (wf_registered h Hwf sym id' p Hin0) as (s2 & Hs2 & Hid2).
        assert (id' = id) as -> by congruence.
        rewrite Hreg' in Hin. discriminate.
      * by apply (Hone' sym' id').
Qed.

Lemma slow_hub_wf : wf slow_hub.
Proof.
  split.
  - intros sym id q. unfold subs_of, slow_hub. simpl.
    destruct (decide (sym = "BTC")) as [->|Hne].
    + rewrite lookup_singleton_eq. simpl. intros Hq.
      apply lookup_singleton_Some in Hq as [<- <-].
      eexists. split; [apply lookup_singleton_eq|done].
    + rewrite lookup_singleton_ne by done. by rewrite lookup_empty.
  - intros q s. unfold slow_hub. simpl. intros Hq.
    by apply lookup_singleton_Some in Hq as [<- <-].
  - unfold slow_hub, int_min, int_max. simpl. lia.
Qed.

(** C2 with [buffer_size = 1] and [slow_consumer_threshold = 1]: three
    publishes evict the subscriber. *)
Lemma publish_backpressure_witness :
  exists h' sub',
    Publish_all slow_hub "BTC" [tick 1; tick 2; tick 3] = Ok h' /\
    heap h' !! 0%nat = Some sub' /\
    closed sub' = true /\ ch_closed (SendChan sub') = true /\
    ch_buf (SendChan sub') = [(tick 1).1] /\ Dropped sub' = 2 /\
    subs_of h' "BTC" !! "a" <> Some 0%nat.
Proof.
  destruct (publish_backpressure slow_hub "BTC" "a" 0%nat
              (mkSubscriber "a" 1 1 (mkChan [] 1 false) 0 0 0 false)
              [tick 1; tick 2; tick 3])
    as (_ & h' & sub' & Hrun & Hp & Hcl & Hchcl & Hbuf & Hdr & Hgone).
  - apply slow_hub_wf.
  - simpl. lia.
  - unfold int_max. simpl. lia.
  - reflexivity.
  - reflexivity.
  - intros sym' id' Hne. unfold subs_of, slow_hub. simpl.
    rewrite lookup_singleton_ne by done. by rewrite lookup_empty.
  - reflexivity.
  - reflexivity.
  - reflexivity.
  - reflexivity.
  - exists h', sub'. split_and!; try done; apply Hgone.
Defined.

(** C1, at the input where the code departs from the claim: for a
    subscriber registered in two topics, the second [Unsubscribe]
    closes the already closed queue, which is a run-time panic; the
    zombie sweep, which tests the flag first, closes it once. *)
Theorem Unsubscribe_both_topics_closes_twice :
  ('(p, h) ← two_topics; h ← Unsubscribe h "BTC" "a"; Ok (closed <$> heap h !! p))
  = Ok (Some true) /\
  ('(p, h) ← two_topics; h ← Unsubscribe h "BTC" "a"; Unsubscribe h "ETH" "a")
  = Panic "close of closed channel" /\
  is_ok ('(p, h) ← two_topics; CleanupZombies h (2 * minute)) = true.
Proof. repeat split; vm_compute; reflexivity. Qed.

(** C4, at the input where the code departs from the claim: after two
    [Subscribe] calls with the same symbol and subscriber the counter
    is 2 while one subscriber is registered; after the matching
    [Unsubscribe] the counter is 1 while none is. *)
Theorem Subscribe_twice_overcounts :
  (h ← subscribed_twice; Ok (activeSubscribers h, registered h)) = Ok (2, 1) /\
  (h ← subscribed_twice; h ← Unsubscribe h "BTC" "a";
   Ok (activeSubscribers h, registered h)) = Ok (1, 0).
Proof. split; vm_compute; reflexivity. Qed.

End HubFacts.

Module AuthFacts.
Import Auth AuthSpec.

Lemma IsValid_spec (ac : AuthContext) (now : Z) :
  IsValid ac now = true <->
  TenantStatus ac = "active" /\ APIKeyStatus ac = "active" /\ expired_at ac now = false.
Proof.
  unfold IsValid, TenantStatusActive, APIKeyStatusActive.
  destruct (String.eqb_spec (TenantStatus ac) "active");
    destruct (String.eqb_spec (APIKeyStatus ac) "active");
    destruct (expired_at ac now); simpl; intuition congruence.
Qed.

Section WithHash.
Variable hashAPIKey : string -> string.

Lemma authenticate_redis_db (s : Service) (keyHash : string) (now : Z) :
  authenticate_redis s keyHash now = authenticate_db s keyHash now.
Proof. unfold authenticate_redis, getFromRedis. by destruct (redis s). Qed.

Lemma Authenticate_miss (s : Service) (apiKey : string) (now : Z) :
  apiKey <> "" -> cache_hit s (hashAPIKey apiKey) now = None ->
  (Authenticate hashAPIKey s apiKey now).1 =
  (authenticate_db s (hashAPIKey apiKey) now).1.
Proof.
  intros Hkey Hmiss. unfold Authenticate, cache_hit in *.
  apply String.eqb_neq in Hkey. rewrite Hkey.
  destruct (getFromCache s (hashAPIKey apiKey) now) as [ac|].
  - destruct (IsValid ac now); [done|].
    rewrite authenticate_redis_db. unfold authenticate_db, queryAuthContext. simpl.
    destruct (db s (hashAPIKey apiKey)) as [r| |]; [|done|done].
    destruct (IsValid r now); simpl; [done|]. by repeat case_match.
  - by rewrite authenticate_redis_db.
Qed.

Lemma expired_at_spec (r : AuthContext) (now : Z) :
  expired_at r now = true <-> expiry_past r now.
Proof.
  unfold expired_at, expiry_past, Before. destruct (ExpiresAt r) as [t|].
  - split.
    + intros Ht. exists t. split; [done|lia].
    + intros (t' & [= <-] & Ht). lia.
  - split; [done|]. by intros (t' & Ht & _).
Qed.

Lemma IsValid_valid_record (r : AuthContext) (now : Z) :
  IsValid r now = true <-> valid_record r now.
Proof.
  rewrite IsValid_spec. unfold valid_record. split.
  - intros (Ht & Hk & He). split_and!; [done|done|]. intros t Hexp.
    destruct (Z.le_gt_cases now t) as [Hle|Hgt]; [done|].
    assert (Hpast : expired_at r now = true).
    { apply expired_at_spec. exists t. split; [done|lia]. }
    congruence.
  - intros (Ht & Hk & He). split_and!; [done|done|].
    destruct (expired_at r now) eqn:Hexp; [|done].
    apply expired_at_spec in Hexp as (t & Hsome & Hlt). specialize (He t Hsome). lia.
Qed.

Lemma cache_hit_cached (s : Service) (keyHash : string) (now : Z) (ac : AuthContext) :
  cache_hit s keyHash now = Some ac <-> cached s keyHash now ac.
Proof.
  unfold cache_hit, getFromCache, cached.
  destruct (cache s !! keyHash) as [ac'|]; [|by split; [|intros [? _]]].
  destruct (Z.gtb_spec (time_Sub now (CachedAt ac')) (cacheTTL s)) as [Hold|Hfresh].
  - split; [done|]. intros ([= ->] & Hage & _). lia.
  - destruct (IsValid ac' now) eqn:Hvalid.
    + apply IsValid_valid_record in Hvalid. split.
      * by intros [= <-].
      * by intros ([= ->] & _).
    + split; [done|]. intros ([= ->] & _ & Hv).
      apply IsValid_valid_record in Hv. congruence.
Qed.

(** C8.  [Authenticate] classifies a credential as the pipeline
    prescribes.  An empty credential is [MissingCredential].  A valid
    record that the in-process cache holds, stamped no longer ago than
    the TTL, is returned as it is.  Otherwise the repository decides: no
    row is [InvalidCredential]; a valid record (tenant active, key
    active, expiry absent or not past) is returned with [cached_at] set
    to the time of the call; a record of a suspended tenant is
    [SuspendedTenant]; else a revoked key is [RevokedCredential]; else a
    key marked expired or with a past expiry is [ExpiredCredential];
    and every other record that is not valid (for example one of a
    deleted tenant) is [InvalidCredential]. *)
Theorem Authenticate_classifies (s : Service) (apiKey : string) (now : Z) :
  let keyHash := hashAPIKey apiKey in
  let outcome := (Authenticate hashAPIKey s apiKey now).1 in
  (apiKey = "" -> outcome = inl ErrMissingAPIKey) /\
  (apiKey <> "" -> forall ac, cached s keyHash now ac -> outcome = inr ac) /\
  (apiKey <> "" -> (forall ac, ~ cached s keyHash now ac) ->
   (db s keyHash = ErrNoRows -> outcome = inl ErrInvalidAPIKey) /\
   (forall r, db s keyHash = Row r ->
      (valid_record r now -> outcome = inr (stamped r now)) /\
      (TenantStatus r = "suspended" -> outcome = inl ErrSuspendedTenant) /\
      (TenantStatus r <> "suspended" -> APIKeyStatus r = "revoked" ->
       outcome = inl ErrRevokedAPIKey) /\
      (TenantStatus r <> "suspended" -> APIKeyStatus r <> "revoked" ->
       APIKeyStatus r = "expired" \/ expiry_past r now ->
       outcome = inl ErrExpiredAPIKey) /\
      (TenantStatus r <> "suspended" -> APIKeyStatus r <> "revoked" ->
       APIKeyStatus r <> "expired" -> ~ expiry_past r now ->
       ~ valid_record r now -> outcome = inl ErrInvalidAPIKey))).
Proof.
  intros keyHash outcome. subst outcome keyHash. split_and!.
  - intros ->. done.
  - intros Hkey ac Hhit. apply cache_hit_cached in Hhit.
    unfold Authenticate, cache_hit in *.
    apply String.eqb_neq in Hkey. rewrite Hkey.
    destruct (getFromCache s (hashAPIKey apiKey) now) as [ac'|]; [|done].
    destruct (IsValid ac' now); [|done]. by injection Hhit as ->.
  - intros Hkey Hnone.
    assert (Hmiss : cache_hit s (hashAPIKey apiKey) now = None).
    { destruct (cache_hit s (hashAPIKey apiKey) now) as [ac|] eqn:Hhit; [|done].
      apply cache_hit_cached in Hhit. by destruct (Hnone ac). }
    rewrite (Authenticate_miss s apiKey now Hkey Hmiss).
    unfold authenticate_db, queryAuthContext. split.
    + by intros ->.
    + intros r ->.
      pose proof (IsValid_valid_record r now) as Hvalid.
      pose proof (expired_at_spec r now) as Hexpired.
      unfold valid_record in *.
      unfold TenantStatusSuspended, APIKeyStatusRevoked, APIKeyStatusExpired.
      destruct (IsValid r now); simpl.
      * destruct (proj1 Hvalid eq_refl) as (Ht & Hk & He).
        split_and!; try done; try congruence.
        -- intros _ _ [Hk'|(t & Hsome & Hlt)]; [congruence|].
           specialize (He t Hsome). lia.
        -- intros _ _ _ _ Hnot. destruct Hnot. by split_and!.
      * assert (Hinvalid : ~ (TenantStatus r = "active" /\ APIKeyStatus r = "active" /\
                              forall t, ExpiresAt r = Some t -> now <= t)).
        { intros Hv. apply Hvalid in Hv. done. }
        destruct (String.eqb_spec (TenantStatus r) "suspended");
          destruct (String.eqb_spec (APIKeyStatus r) "revoked");
          destruct (String.eqb_spec (APIKeyStatus r) "expired");
          destruct (expired_at r now); simpl;
          split_and!; try done; try congruence;
          try (intros; exfalso; intuition congruence);
          try (intros ? ? [?|Hp]; [congruence|apply Hexpired in Hp; congruence]).
Qed.

End WithHash.

(** C8 on the sample repository at time 100: an empty credential; an
    unknown key; an accepted key, and the same key again from the
    cache; keys that are revoked, of a suspended tenant, past their
    expiry, marked expired, and of a deleted tenant. *)
Lemma Authenticate_classifies_witness :
  (Authenticate sample_hash full_service "" 100).1 = inl ErrMissingAPIKey /\
  (Authenticate sample_hash full_service "unknown" 100).1 = inl ErrInvalidAPIKey /\
  (Authenticate sample_hash full_service "valid" 100).1
  = inr (stamped (sample_record "active" "active" None) 100) /\
  (Authenticate sample_hash
     (Authenticate sample_hash full_service "valid" 100).2 "valid" 200).1
  = inr (stamped (sample_record "active" "active" None) 100) /\
  (Authenticate sample_hash full_service "revoked" 100).1 = inl ErrRevokedAPIKey /\
  (Authenticate sample_hash full_service "suspended" 100).1 = inl ErrSuspendedTenant /\
  (Authenticate sample_hash full_service "late" 100).1 = inl ErrExpiredAPIKey /\
  (Authenticate sample_hash full_service "expired" 100).1 = inl ErrExpiredAPIKey /\
  (Authenticate sample_hash full_service "deleted" 100).1 = inl ErrInvalidAPIKey.
Proof.
  assert (Hempty : forall keyHash ac, ~ cached full_service keyHash 100 ac).
  { intros keyHash ac [Hc _]. simpl in Hc. by rewrite lookup_empty in Hc. }
  split_and!.
  - by apply (Authenticate_classifies sample_hash full_service "" 100).
  - destruct (Authenticate_classifies sample_hash full_service "unknown" 100)
      as (_ & _ & Hdb).
    destruct Hdb as [Hnone _]; [done|apply Hempty|]. by apply Hnone.
  - destruct (Authenticate_classifies sample_hash full_service "valid" 100)
      as (_ & _ & Hdb).
    destruct Hdb as [_ Hrow]; [done|apply Hempty|].
    destruct (Hrow (sample_record "active" "active" None)) as [Hvalid _]; [done|].
    apply Hvalid. by split_and!.
  - destruct (Authenticate_classifies sample_hash
                (Authenticate sample_hash full_service "valid" 100).2 "valid" 200)
      as (_ & Hhit & _).
    apply Hhit; [done|]. split_and!; first [done | vm_compute; discriminate].
  - destruct (Authenticate_classifies sample_hash full_service "revoked" 100)
      as (_ & _ & Hdb).
    destruct Hdb as [_ Hrow]; [done|apply Hempty|].
    destruct (Hrow (sample_record "active" "revoked" None))
      as (_ & _ & Hrevoked & _); [done|]. by apply Hrevoked.
  - destruct (Authenticate_classifies sample_hash full_service "suspended" 100)
      as (_ & _ & Hdb).
    destruct Hdb as [_ Hrow]; [done|apply Hempty|].
    destruct (Hrow (sample_record "suspended" "active" None))
      as (_ & Hsuspended & _); [done|]. by apply Hsuspended.
  - destruct (Authenticate_classifies sample_hash full_service "late" 100)
      as (_ & _ & Hdb).
    destruct Hdb as [_ Hrow]; [done|apply Hempty|].
    destruct (Hrow (sample_record "active" "active" (Some 99)))
      as (_ & _ & _ & Hexpired & _); [done|].
    apply Hexpired; [done|done|]. right. exists 99. split; [done|lia].
  - destruct (Authenticate_classifies sample_hash full_service "expired" 100)
      as (_ & _ & Hdb).
    destruct Hdb as [_ Hrow]; [done|apply Hempty|].
    destruct (Hrow (sample_record "active" "expired" None))
      as (_ & _ & _ & Hexpired & _); [done|].
    apply Hexpired; [done|done|]. by left.
  - destruct (Authenticate_classifies sample_hash full_service "deleted" 100)
      as (_ & _ & Hdb).
    destruct Hdb as [_ Hrow]; [done|apply Hempty|].
    destruct (Hrow (sample_record "deleted" "active" None))
      as (_ & _ & _ & _ & Hother); [done|].
    apply Hother; try done.
    + by intros (t & Ht & _).
    + by intros [Ht _].
Defined.

End AuthFacts.

Module CacheMore.
Import Types Cache.
Import CacheSpec CacheTrace CacheFacts.

Lemma copyOrderbook_id (s : OrderbookSnapshot) : copyOrderbook s = s.
Proof. by destruct s. Qed.

(** X1.  An update followed by a read: with a non-negative [max_depth],
    [GetOrderbook] of the updated symbol returns the snapshot with each
    side cut to its first [max_depth] levels (the snapshot itself when
    both sides are within the depth); the snapshots of the other symbols
    and all trade rings are as before. *)
Theorem UpdateOrderbook_then_GetOrderbook (l : Layer) (snapshot : OrderbookSnapshot) :
  0 <= maxDepth l ->
  exists l',
    UpdateOrderbook l snapshot = Ok l' /\
    GetOrderbook l' (ob_Symbol snapshot) =
      Some (mkOrderbookSnapshot (ob_Symbol snapshot) (ob_Timestamp snapshot)
              (ob_Sequence snapshot)
              (take (Z.to_nat (maxDepth l)) (ob_Asks snapshot))
              (take (Z.to_nat (maxDepth l)) (ob_Bids snapshot))) /\
    (len (ob_Asks snapshot) <= maxDepth l -> len (ob_Bids snapshot) <= maxDepth l ->
     GetOrderbook l' (ob_Symbol snapshot) = Some snapshot) /\
    (forall sym, sym <> ob_Symbol snapshot -> GetOrderbook l' sym = GetOrderbook l sym) /\
    trades l' = trades l /\ maxDepth l' = maxDepth l /\ tradeSize l' = tradeSize l.
Proof.
  intros Hd. rewrite UpdateOrderbook_ok by done.
  eexists. split; [reflexivity|]. unfold GetOrderbook. simpl.
  rewrite lookup_insert_eq. split_and!; try done.
  - intros Ha Hb. unfold trim. rewrite !take_ge by (unfold len in *; lia).
    by destruct snapshot.
  - intros sym Hne. by rewrite lookup_insert_ne.
Qed.

Lemma UpdateOrderbook_then_GetOrderbook_example :
  exists l',
    UpdateOrderbook (NewLayer 2 10) deep_book = Ok l' /\
    (ob_Asks <$> GetOrderbook l' "BTC") = Some [level price1; level price2] /\
    GetOrderbook l' "ETH" = None.
Proof.
  destruct (UpdateOrderbook_then_GetOrderbook (NewLayer 2 10) deep_book)
    as (l' & Hup & Hget & _ & Hother & _).
  - simpl. lia.
  - exists l'. split; [done|]. split.
    + simpl in Hget. by rewrite Hget.
    + by rewrite (Hother "ETH").
Defined.

(** X2.  [UpdateOrderbook] on a layer with a negative [max_depth] panics
    for every snapshot, an empty one included, and stores nothing. *)
Theorem UpdateOrderbook_negative_depth (l : Layer) (snapshot : OrderbookSnapshot) :
  maxDepth l < 0 ->
  UpdateOrderbook l snapshot = Panic "slice bounds out of range".
Proof.
  intros Hd. unfold UpdateOrderbook, slice_to.
  assert (Hlen : 0 <= len (ob_Asks snapshot)) by (unfold len; lia).
  replace (len (ob_Asks snapshot) >? maxDepth l) with true by lia.
  replace (maxDepth l <? 0) with true by lia. done.
Qed.

Lemma UpdateOrderbook_negative_depth_example :
  UpdateOrderbook (NewLayer (-1) 10) (book_seq 1) = Panic "slice bounds out of range".
Proof. apply UpdateOrderbook_negative_depth. simpl. lia. Defined.

(** X3.  [Cleanup] at time [now].  A symbol whose snapshot is older
    than the threshold ([now - timestamp > stale_threshold]) loses its
    snapshot and its trade ring.  A symbol whose snapshot is not older
    keeps both unchanged.  A symbol without a snapshot keeps its trade
    ring, whatever its age.  The settings are unchanged. *)
Theorem Cleanup_drops_stale (l : Layer) (now staleThreshold : Z) (sym : string) :
  let l' := Cleanup l now staleThreshold in
  (forall s, orderbooks l !! sym = Some s ->
             staleThreshold < time_Sub now (ob_Timestamp s) ->
             GetOrderbook l' sym = None /\ trades l' !! sym = None) /\
  (forall s, orderbooks l !! sym = Some s ->
             time_Sub now (ob_Timestamp s) <= staleThreshold ->
             GetOrderbook l' sym = Some s /\ trades l' !! sym = trades l !! sym) /\
  (orderbooks l !! sym = None ->
   GetOrderbook l' sym = None /\ trades l' !! sym = trades l !! sym) /\
  maxDepth l' = maxDepth l /\ tradeSize l' = tradeSize l.
Proof.
  intros l'. subst l'. unfold GetOrderbook, Cleanup, stale. simpl.
  assert (Htrades : forall gone : gmap string OrderbookSnapshot,
             gone !! sym = None ->
             filter (fun kv : string * TradeRingBuffer => gone !! kv.1 = None)
                    (trades l) !! sym = trades l !! sym).
  { intros gone Hgone. destruct (trades l !! sym) as [rb|] eqn:Hrb.
    - by apply map_lookup_filter_Some_2.
    - apply map_lookup_filter_None_2. by left. }
  split_and!; try done.
  - intros s Hs Hold.
    assert (Hstale : (time_Sub now (ob_Timestamp s) >? staleThreshold) = true) by lia.
    split.
    + rewrite map_lookup_filter_None_2; [done|]. right. intros s' Hs'. simpl.
      congruence.
    + apply map_lookup_filter_None_2. right. intros rb Hrb. simpl.
      by rewrite (map_lookup_filter_Some_2 _ _ sym s).
  - intros s Hs Hfresh.
    assert (Hstale : (time_Sub now (ob_Timestamp s) >? staleThreshold) = false) by lia.
    split.
    + rewrite (map_lookup_filter_Some_2 _ _ sym s); [by rewrite copyOrderbook_id|done|done].
    + apply Htrades. apply map_lookup_filter_None_2. right. intros s' Hs'. simpl.
      congruence.
  - intros Hnone. split.
    + rewrite map_lookup_filter_None_2; [done|]. by left.
    + apply Htrades. apply map_lookup_filter_None_2. by left.
Qed.

(** A stale book goes with its trades, a fresh book stays with its
    trades, and trades without a book stay. *)
Lemma Cleanup_drops_stale_example :
  let l' := Cleanup aged_layer 100 50 in
  (GetOrderbook l' "BTC" = None /\ trades l' !! "BTC" = None) /\
  (GetOrderbook l' "ETH" = Some (mkOrderbookSnapshot "ETH" 90 1 [] []) /\
   trades l' !! "ETH" = trades aged_layer !! "ETH") /\
  (GetOrderbook l' "SOL" = None /\ trades l' !! "SOL" = trades aged_layer !! "SOL").
Proof.
  intros l'. split_and!.
  - destruct (Cleanup_drops_stale aged_layer 100 50 "BTC") as (Hold & _).
    apply (Hold (mkOrderbookSnapshot "BTC" 0 1 [] [])); [reflexivity|].
    vm_compute. reflexivity.
  - destruct (Cleanup_drops_stale aged_layer 100 50 "BTC") as (Hold & _).
    apply (Hold (mkOrderbookSnapshot "BTC" 0 1 [] [])); [reflexivity|].
    vm_compute. reflexivity.
  - destruct (Cleanup_drops_stale aged_layer 100 50 "ETH") as (_ & Hfresh & _).
    apply (Hfresh (mkOrderbookSnapshot "ETH" 90 1 [] [])); [reflexivity|].
    vm_compute. discriminate.
  - destruct (Cleanup_drops_stale aged_layer 100 50 "ETH") as (_ & Hfresh & _).
    apply (Hfresh (mkOrderbookSnapshot "ETH" 90 1 [] [])); [reflexivity|].
    vm_compute. discriminate.
  - destruct (Cleanup_drops_stale aged_layer 100 50 "SOL") as (_ & _ & Hnone & _).
    by apply Hnone.
  - destruct (Cleanup_drops_stale aged_layer 100 50 "SOL") as (_ & _ & Hnone & _).
    by apply Hnone.
Defined.

(** X4.  A ring at any fill level: after any number [k] of inserts into a
    ring of capacity [cap], [count] is [min k cap], [head] is a valid
    index, and [GetAll] returns the last [min k cap] trades in insertion
    order: all of them, in order, while [k <= cap]. *)
Theorem ring_fill (cap : Z) (ts : list Trade) :
  0 < cap < 2 ^ 62 ->
  exists rb0 rb,
    NewTradeRingBuffer cap = Ok rb0 /\ Add_all rb0 ts = Ok rb /\
    rb_count rb = Z.min (len ts) cap /\
    0 <= rb_head rb < cap /\
    len (rb_trades rb) = cap /\
    GetAll rb = Ok (last_n cap ts) /\
    (len ts <= cap -> GetAll rb = Ok ts).
Proof.
  intros Hcap.
  destruct (ring_of_new cap) as (rb0 & Hnew & Hrb0); [lia|].
  destruct (ring_of_Add_all cap [] ts rb0 Hcap Hrb0) as (rb & Hall & Hrb).
  simpl in Hrb. exists rb0, rb.
  pose proof (ring_of_GetAll cap ts rb Hcap Hrb) as Hget.
  destruct Hrb as [Hlen Hhead Hcount _].
  split_and!; try done.
  - rewrite Hhead. apply Z.mod_pos_bound. lia.
  - rewrite Hhead. apply Z.mod_pos_bound. lia.
  - intros Hk. rewrite Hget. unfold last_n.
    replace (length ts - Z.to_nat cap)%nat with 0%nat by (unfold len in *; lia).
    done.
Qed.

Lemma ring_fill_example :
  exists rb0 rb,
    NewTradeRingBuffer 3 = Ok rb0 /\
    Add_all rb0 [sample_trade "a"; sample_trade "b"] = Ok rb /\
    rb_count rb = 2 /\
    GetAll rb = Ok [sample_trade "a"; sample_trade "b"].
Proof.
  destruct (ring_fill 3 [sample_trade "a"; sample_trade "b"])
    as (rb0 & rb & Hnew & Hall & Hcount & _ & _ & _ & Hget).
  - lia.
  - exists rb0, rb. split_and!; try done. apply Hget. unfold len. simpl. lia.
Defined.

(** X5.  With [trade_history_size <= 0] the first trade of a symbol makes
    [AddTrade] panic: in the allocation of the ring when the size is
    negative, in the first store into the empty ring when it is zero. *)
Theorem AddTrade_without_capacity (l : Layer) (trade : Trade) :
  tradeSize l <= 0 -> trades l !! tr_Symbol trade = None ->
  AddTrade l trade =
  Panic (if tradeSize l <? 0 then "makeslice: len out of range"
         else "index out of range").
Proof.
  intros Hsize Hnone. unfold AddTrade. rewrite Hnone.
  unfold NewTradeRingBuffer, make_slice.
  destruct (Z.ltb_spec (tradeSize l) 0) as [Hneg|Hzero]; [done|].
  replace (tradeSize l) with 0 by lia. done.
Qed.

Lemma AddTrade_without_capacity_example :
  AddTrade (NewLayer 100 0) (sample_trade "a") = Panic "index out of range".
Proof.
  apply (AddTrade_without_capacity (NewLayer 100 0) (sample_trade "a")).
  - simpl. lia.
  - reflexivity.
Defined.

(** X6.  [GetSymbols] lists, without repetition, exactly the symbols for
    which [GetOrderbook] finds a snapshot. *)
Theorem GetSymbols_are_cached (l : Layer) :
  NoDup (GetSymbols l) /\
  forall sym, sym ∈ GetSymbols l <-> is_Some (GetOrderbook l sym).
Proof.
  unfold GetSymbols, GetOrderbook. split.
  - apply NoDup_fst_map_to_list.
  - intros sym. rewrite list_elem_of_fmap. split.
    + intros ([k s] & -> & Hin). apply elem_of_map_to_list in Hin.
      simpl. by rewrite Hin.
    + intros Hsome. destruct (orderbooks l !! sym) as [s|] eqn:Hs.
      * exists (sym, s). split; [done|]. by apply elem_of_map_to_list.
      * by destruct Hsome.
Qed.

(** X7.  The HTTP trade query on a layer maintained by [AddTrade]: an
    empty symbol is refused; otherwise a non-negative count is answered
    with at most [count], at most 1000 and at most [trade_history_size]
    trades, the most recent ones of the symbol. *)
Theorem handleGetTrades_bounds (cap : Z) (ts : list Trade) (l : Layer)
        (sym : string) (count : Z) :
  0 < cap < 2 ^ 62 -> layer_of cap ts l -> 0 <= count ->
  Api.handleGetTrades l "" count = Ok None /\
  (sym <> "" ->
   exists r,
     Api.handleGetTrades l sym count = Ok (Some r) /\
     r = last_n (Z.of_nat (length r)) (of_symbol sym ts) /\
     len r = Z.min (Z.min count 1000) (Z.min (len (of_symbol sym ts)) cap)).
Proof.
  intros Hcap Hl Hcount. split; [done|].
  intros Hsym. unfold Api.handleGetTrades.
  apply String.eqb_neq in Hsym. rewrite Hsym.
  set (n := if count >? 1000 then 1000 else count).
  assert (Hn : n = Z.min count 1000) by (subst n; destruct (Z.gtb_spec count 1000); lia).
  rewrite (layer_of_GetRecentTrades cap ts) by (try done; lia). simpl.
  eexists. split; [reflexivity|].
  assert (Hlen : forall m (xs : list Trade), 0 <= m <= len xs ->
                 length (last_n m xs) = Z.to_nat m).
  { intros m xs Hm. unfold last_n. rewrite length_drop. unfold len in *. lia. }
  assert (Hts : 0 <= len (of_symbol sym ts)) by (unfold len; lia).
  rewrite Hlen by lia. split.
  - by rewrite Z2Nat.id by lia.
  - unfold len at 1. rewrite Hlen by lia. lia.
Qed.

Lemma handleGetTrades_bounds_example :
  Api.handleGetTrades one_trade_layer "BTC" 5000 = Ok (Some [sample_trade "a"]).
Proof.
  destruct (handleGetTrades_bounds 2 [sample_trade "a"] one_trade_layer "BTC" 5000)
    as (_ & Hget).
  - lia.
  - split; [done|]. intros sym. unfold one_trade_layer. simpl.
    destruct (decide (sym = "BTC")) as [->|Hne].
    + rewrite lookup_singleton_eq. split; try done.
      intros k Hk. unfold len in Hk. simpl in Hk.
      assert (k = 0%nat) as -> by lia. done.
    + rewrite lookup_singleton_ne by done. unfold of_symbol.
      rewrite filter_cons, filter_nil. rewrite decide_False; [done|]. simpl. congruence.
  - lia.
  - destruct Hget as (r & Hr & Hlast & Hlen); [done|].
    rewrite Hr. do 2 f_equal. rewrite Hlast.
    assert (Hone : length r = 1%nat) by (unfold len in Hlen; simpl in Hlen; lia).
    by rewrite Hone.
Defined.

End CacheMore.

Module RateLimitMore.
Import Types RateLimit RateLimitGC RateLimitTrace.
Import RateLimitSpec RateLimitFacts.

Section WithRate.
Context `{RateLib}.

Lemma sem_ok_new (m : Z) : m <= int_max -> sem_ok (NewStreamLimiter m).
Proof. intros Hm. unfold sem_ok. simpl. lia. Qed.

Lemma sem_ok_Acquire (sl : StreamLimiter) : sem_ok sl -> sem_ok (Acquire sl).2.
Proof.
  intros [Hact Hmax]. unfold Acquire.
  destruct (Z.geb_spec (activeStreams sl) (maxStreams sl)); simpl; [done|].
  unfold sem_ok. simpl.
  rewrite int_add_exact by (unfold int_min, int_max in *; lia). lia.
Qed.

Lemma sem_ok_Release (sl : StreamLimiter) : sem_ok sl -> sem_ok (Release sl).
Proof.
  intros [Hact Hmax]. unfold Release.
  destruct (Z.gtb_spec (activeStreams sl) 0); [|done].
  unfold sem_ok. simpl.
  rewrite int_sub_exact by (unfold int_min, int_max in *; lia). lia.
Qed.

Lemma all_sem_ok_store (l : Limiter) (key : string) (cl : ClientLimiter) :
  all_sem_ok l -> sem_ok (Streams cl) -> all_sem_ok (store l key cl).
Proof.
  intros [Hrps Hall] Hcl. split; [done|]. intros k c. unfold store. simpl.
  destruct (decide (key = k)) as [->|Hne].
  - rewrite lookup_insert_eq. by intros [= <-].
  - rewrite lookup_insert_ne by done. apply Hall.
Qed.

Lemma all_sem_ok_getOrCreate (l : Limiter) (key : string) (rps m now : Z) :
  all_sem_ok l -> m <= int_max ->
  all_sem_ok (getOrCreate l key rps m now).2 /\
  sem_ok (Streams (getOrCreate l key rps m now).1).
Proof.
  intros Hl Hm. unfold getOrCreate.
  destruct (limiters l !! key) as [cl|] eqn:Hcl; simpl.
  - split; [done|]. by apply (proj2 Hl key).
  - split; [|by apply sem_ok_new].
    apply (all_sem_ok_store l key (mkClientLimiter _ _ now)); [done|].
    by apply sem_ok_new.
Qed.

Lemma all_sem_ok_step (l : Limiter) (o : lim_op) :
  all_sem_ok l -> int_arg o -> all_sem_ok (lim_step l o).
Proof.
  intros Hl Ho. destruct o as [key now|key n now|key m now|key|key rps m now|now]; simpl.
  - unfold Allow.
    destruct (all_sem_ok_getOrCreate l key (defaultRPS l) (defaultRPS l) now Hl
                (proj1 Hl)) as [Hl1 Hcl].
    destruct (getOrCreate l key (defaultRPS l) (defaultRPS l) now) as [cl l1].
    destruct (rate_AllowN now 1 (RPS cl)). simpl. by apply all_sem_ok_store.
  - unfold AllowN.
    destruct (all_sem_ok_getOrCreate l key (defaultRPS l) (defaultRPS l) now Hl
                (proj1 Hl)) as [Hl1 Hcl].
    destruct (getOrCreate l key (defaultRPS l) (defaultRPS l) now) as [cl l1].
    destruct (rate_AllowN now n (RPS cl)). simpl. by apply all_sem_ok_store.
  - unfold AcquireStream.
    destruct (all_sem_ok_getOrCreate l key (defaultRPS l) m now Hl Ho) as [Hl1 Hcl].
    destruct (getOrCreate l key (defaultRPS l) m now) as [cl l1].
    pose proof (sem_ok_Acquire (Streams cl) Hcl) as Hacq.
    destruct (Acquire (Streams cl)). simpl in *. by apply all_sem_ok_store.
  - unfold ReleaseStream. destruct (limiters l !! key) as [cl|] eqn:Hcl; [|done].
    apply all_sem_ok_store; [done|]. simpl. apply sem_ok_Release.
    by apply (proj2 Hl key).
  - unfold SetLimit. destruct (limiters l !! key) as [cl|];
      (apply all_sem_ok_store; [done|]); simpl; by apply sem_ok_new.
  - split; [apply Hl|]. intros key cl. unfold cleanup. simpl. intros Hcl.
    apply map_lookup_filter_Some in Hcl as [Hcl _]. by apply (proj2 Hl key).
Qed.

Lemma all_sem_ok_run (ops : list lim_op) (l : Limiter) :
  all_sem_ok l -> Forall int_arg ops -> all_sem_ok (lim_run l ops).
Proof.
  revert l. induction ops as [|o ops IH]; intros l Hl Hops; [done|].
  apply Forall_cons in Hops as [Ho Hops]. simpl.
  apply IH; [|done]. by apply all_sem_ok_step.
Qed.

(** X8.  Semaphore safety.  Whatever calls are made on a limiter built
    by [NewLimiter] ([Allow], [AllowN], [AcquireStream], [ReleaseStream],
    [SetLimit], the cleanup), in any order and on any keys, the active
    count of every key stays between 0 and its maximum (0 when the
    maximum is negative): an acquisition never exceeds the maximum and a
    release never goes below zero. *)
Theorem semaphore_safety (cfg : Config) (ops : list lim_op) (key : string)
        (sl : StreamLimiter) :
  DefaultRPS cfg <= int_max -> Forall int_arg ops ->
  streams_of (lim_run (NewLimiter cfg) ops) key = Some sl ->
  0 <= activeStreams sl <= Z.max 0 (maxStreams sl).
Proof.
  intros Hrps Hops Hsl.
  assert (Hnew : all_sem_ok (NewLimiter cfg)).
  { split; [done|]. intros k cl. simpl. by rewrite lookup_empty. }
  destruct (all_sem_ok_run ops (NewLimiter cfg) Hnew Hops) as [_ Hall].
  unfold streams_of in Hsl.
  destruct (limiters (lim_run (NewLimiter cfg) ops) !! key) as [cl|] eqn:Hcl; [|done].
  injection Hsl as <-. by apply (Hall key cl).
Qed.

(** X9.  An admitted [AcquireStream] followed by [ReleaseStream] leaves
    the semaphore of the key as it was, and a refused [AcquireStream]
    does not change it. *)
Theorem AcquireStream_ReleaseStream (l : Limiter) (key : string) (m now : Z)
        (cl : ClientLimiter) :
  limiters l !! key = Some cl -> sem_ok (Streams cl) ->
  (AcquireStream l key m now).1 =
    bool_decide (activeStreams (Streams cl) < maxStreams (Streams cl)) /\
  ((AcquireStream l key m now).1 = true ->
   streams_of (ReleaseStream (AcquireStream l key m now).2 key) key
   = Some (Streams cl)) /\
  ((AcquireStream l key m now).1 = false ->
   streams_of (AcquireStream l key m now).2 key = Some (Streams cl)).
Proof.
  intros Hcl [Hact Hmax]. rewrite (AcquireStream_existing l key m now cl) by done.
  unfold Acquire. simpl.
  destruct (Z.geb_spec (activeStreams (Streams cl)) (maxStreams (Streams cl)))
    as [Hfull|Hroom]; simpl.
  - rewrite bool_decide_eq_false_2 by lia. split_and!; try done.
    intros _. by rewrite streams_of_store.
  - rewrite bool_decide_eq_true_2 by lia. split_and!; try done.
    intros _. unfold ReleaseStream, store at 1. simpl.
    rewrite lookup_insert_eq. rewrite streams_of_store. simpl.
    unfold Release. simpl.
    rewrite int_add_exact by (unfold int_min, int_max in *; lia).
    replace (activeStreams (Streams cl) + 1 >? 0) with true by lia.
    rewrite int_sub_exact by (unfold int_min, int_max in *; lia).
    f_equal. destruct (Streams cl) as [mx ac]. simpl. f_equal. lia.
Qed.

(** X10.  Isolation between keys: a call on one key ([Allow], [AllowN],
    [AcquireStream], [ReleaseStream], [SetLimit]) leaves the limiter
    entry of every other key untouched. *)
Theorem calls_touch_one_key (l : Limiter) (o : lim_op) (key other : string) :
  op_key o = Some key -> other <> key ->
  limiters (lim_step l o) !! other = limiters l !! other.
Proof.
  intros Hkey Hne.
  assert (Hget : forall rps m now,
             limiters (getOrCreate l key rps m now).2 !! other = limiters l !! other).
  { intros rps m now. unfold getOrCreate. destruct (limiters l !! key); [done|].
    simpl. by rewrite lookup_insert_ne. }
  destruct o as [k now|k n now|k m now|k|k rps m now|now]; simpl in *;
    try discriminate; injection Hkey as ->.
  - unfold Allow. specialize (Hget (defaultRPS l) (defaultRPS l) now).
    destruct (getOrCreate l key _ _ now) as [cl l1].
    destruct (rate_AllowN now 1 (RPS cl)). unfold store. simpl in *. by rewrite lookup_insert_ne.
  - unfold AllowN. specialize (Hget (defaultRPS l) (defaultRPS l) now).
    destruct (getOrCreate l key _ _ now) as [cl l1].
    destruct (rate_AllowN now n (RPS cl)). unfold store. simpl in *. by rewrite lookup_insert_ne.
  - unfold AcquireStream. specialize (Hget (defaultRPS l) m now).
    destruct (getOrCreate l key _ _ now) as [cl l1].
    destruct (Acquire (Streams cl)). unfold store. simpl in *. by rewrite lookup_insert_ne.
  - unfold ReleaseStream. destruct (limiters l !! key); [|done]. unfold store. simpl. by rewrite lookup_insert_ne.
  - unfold SetLimit. destruct (limiters l !! key); unfold store; simpl; by rewrite lookup_insert_ne.
Qed.

(** X11.  A key whose first contact with the limiter is a request-rate
    call gets a stream semaphore whose maximum is the default request
    rate: the [AcquireStream] calls that follow are admitted exactly
    [default_rps] times, whatever [max_streams] they pass. *)
Theorem rate_call_fixes_stream_maximum (l : Limiter) (key : string) (now m now' : Z) :
  limiters l !! key = None -> 0 <= defaultRPS l <= int_max ->
  streams_of (Allow l key now).2 key = Some (mkStreamLimiter (defaultRPS l) 0) /\
  (AcquireStream_n (Z.to_nat (defaultRPS l) + 1) (Allow l key now).2 key m now').1
  = replicate (Z.to_nat (defaultRPS l)) true ++ [false].
Proof.
  intros Hnone Hrps. split; [by apply Allow_first|].
  pose proof (Allow_first l key now Hnone) as Hfirst.
  unfold streams_of in Hfirst.
  destruct (limiters (Allow l key now).2 !! key) as [cl|] eqn:Hcl; [|done].
  injection Hfirst as Hstreams.
  apply (acquire_until_full key (defaultRPS l) m now' _ _ cl); try done.
  - by rewrite Hstreams.
  - rewrite Hstreams. simpl. lia.
  - lia.
  - unfold int_min, int_max in *. lia.
Qed.

(** The cleanup removes exactly the keys whose last access is older
    than twice the cleanup interval and that hold no stream; a key that
    holds a stream is never removed, and a key that stays keeps its
    entry unchanged. *)
Lemma cleanup_keeps_busy_keys (l : Limiter) (now : Z) (key : string) :
  limiters (cleanup l now) !! key =
    match limiters l !! key with
    | Some cl => if idle l now cl then None else Some cl
    | None => None
    end /\
  (forall cl, limiters l !! key = Some cl -> activeStreams (Streams cl) <> 0 ->
              limiters (cleanup l now) !! key = Some cl).
Proof.
  assert (Hchar : limiters (cleanup l now) !! key =
                  match limiters l !! key with
                  | Some cl => if idle l now cl then None else Some cl
                  | None => None
                  end).
  { unfold cleanup. simpl. destruct (limiters l !! key) as [cl|] eqn:Hcl.
    - destruct (idle l now cl) eqn:Hidle.
      + apply map_lookup_filter_None_2. right. intros cl' Hcl'. simpl. congruence.
      + by apply map_lookup_filter_Some_2.
    - apply map_lookup_filter_None_2. by left. }
  split; [done|]. intros cl Hcl Hbusy. rewrite Hchar, Hcl.
  unfold idle, ActiveCount.
  replace (activeStreams (Streams cl) =? 0) with false by lia.
  by rewrite andb_false_r.
Qed.

End WithRate.

Lemma semaphore_safety_example :
  0 <= activeStreams (mkStreamLimiter 1 0)
    <= Z.max 0 (maxStreams (mkStreamLimiter 1 0)).
Proof.
  apply (semaphore_safety (H := counting_rate) sample_config
           [LAcquireStream "k" 1 0; LAcquireStream "k" 1 1;
            LReleaseStream "k"; LReleaseStream "k"; LReleaseStream "k"] "k"
           (mkStreamLimiter 1 0)).
  - unfold int_max. simpl. lia.
  - repeat (apply Forall_cons; split); try apply Forall_nil; simpl; unfold int_max; lia.
  - reflexivity.
Defined.

(** A key holding one of its two slots. *)
Lemma AcquireStream_ReleaseStream_example :
  let l := (AcquireStream (H := counting_rate)
              (NewLimiter (H := counting_rate) sample_config) "k" 2 0).2 in
  (AcquireStream l "k" 2 1).1 = true /\
  streams_of (ReleaseStream (AcquireStream l "k" 2 1).2 "k") "k"
  = Some (mkStreamLimiter 2 1).
Proof.
  intros l.
  destruct (AcquireStream_ReleaseStream (H := counting_rate) l "k" 2 1
              (mkClientLimiter (H := counting_rate) 200 (mkStreamLimiter 2 1) 0))
    as (Hok & Hback & _).
  - reflexivity.
  - unfold sem_ok, int_max. simpl. lia.
  - split; [reflexivity|]. apply Hback. reflexivity.
Defined.

Lemma calls_touch_one_key_example :
  limiters (lim_step (H := counting_rate) busy_limiter (LSetLimit "j" 5 1 3)) !! "k"
  = limiters busy_limiter !! "k".
Proof.
  apply (calls_touch_one_key (H := counting_rate) busy_limiter
           (LSetLimit "j" 5 1 3) "j" "k"); [reflexivity|discriminate].
Defined.

Lemma rate_call_fixes_stream_maximum_example :
  let l := NewLimiter (H := counting_rate) (mkConfig 3 10 float64_two 0) in
  streams_of (Allow l "k" 0).2 "k" = Some (mkStreamLimiter 3 0) /\
  (AcquireStream_n 4 (Allow l "k" 0).2 "k" 1 1).1 = [true; true; true; false].
Proof.
  intros l.
  apply (rate_call_fixes_stream_maximum (H := counting_rate) l "k" 0 1 1).
  - reflexivity.
  - unfold int_max. simpl. lia.
Defined.

End RateLimitMore.

Module HubMore.
Import Types Fanout HubSpec HubTrace HubFacts.

Lemma evolves_refl (h : Hub) : evolves h h.
Proof.
  split; try done.
  - intros p sub Hp. exists sub. split; [done|]. apply rtc_refl.
  - intros p sub' Hp Hnone. congruence.
Qed.

Lemma evolves_trans (h1 h2 h3 : Hub) : evolves h1 h2 -> evolves h2 h3 -> evolves h1 h3.
Proof.
  intros H12 H23. split.
  - rewrite (ev_buffer _ _ H23). apply H12.
  - rewrite (ev_threshold _ _ H23). apply H12.
  - rewrite (ev_timeout _ _ H23). apply H12.
  - intros p sub Hp.
    destruct (ev_old _ _ H12 p sub Hp) as (sub2 & Hp2 & Hsteps).
    destruct (ev_old _ _ H23 p sub2 Hp2) as (sub3 & Hp3 & Hsteps').
    exists sub3. split; [done|]. by etrans.
  - intros p sub3 Hp3 Hnone.
    destruct (heap h2 !! p) as [sub2|] eqn:Hp2.
    + destruct (ev_new _ _ H12 p sub2 Hp2 Hnone) as (Hb & id & t & k & now & Hsteps).
      split; [done|]. exists id, t, k, now.
      destruct (ev_old _ _ H23 p sub2 Hp2) as (sub3' & Hp3' & Hsteps').
      assert (sub3' = sub3) as -> by congruence. by etrans.
    + destruct (ev_new _ _ H23 p sub3 Hp3 Hp2) as (Hb & id & t & k & now & Hsteps).
      rewrite (ev_buffer _ _ H12) in Hb, Hsteps. split; [done|]. by exists id, t, k, now.
Qed.

Lemma evolves_same_heap (h h' : Hub) :
  heap h' = heap h -> bufferSize h' = bufferSize h ->
  slowThreshold h' = slowThreshold h -> zombieTimeout h' = zombieTimeout h ->
  evolves h h'.
Proof.
  intros Hheap Hb Ht Hz. split; try done.
  - intros p sub Hp. exists sub. rewrite Hheap. split; [done|]. apply rtc_refl.
  - intros p sub' Hp Hnone. rewrite Hheap in Hp. congruence.
Qed.

Lemma evolves_set_sub (h : Hub) (p : nat) (sub sub' : Subscriber) :
  heap h !! p = Some sub -> cell_step sub sub' -> evolves h (set_sub h p sub').
Proof.
  intros Hp Hstep. split; try done.
  - intros q s Hq. simpl. destruct (decide (p = q)) as [->|Hne].
    + rewrite lookup_insert_eq. exists sub'. split; [done|].
      assert (s = sub) as -> by congruence. by apply rtc_once.
    + rewrite lookup_insert_ne by done. exists s. split; [done|]. apply rtc_refl.
  - intros q s Hq Hnone. simpl in Hq. destruct (decide (p = q)) as [->|Hne].
    + congruence.
    + rewrite lookup_insert_ne in Hq by done. congruence.
Qed.

Lemma evolves_CreateSubscriber (h h' : Hub) (id : string) (tenant key now : Z) (p : nat) :
  CreateSubscriber h id tenant key now = Ok (p, h') -> evolves h h'.
Proof.
  unfold CreateSubscriber, make_chan.
  destruct (Z.ltb_spec (bufferSize h) 0) as [Hneg|Hpos]; [done|]. simpl.
  intros [= <- <-].
  assert (Hfresh : heap h !! fresh (dom (heap h)) = None).
  { apply not_elem_of_dom, is_fresh. }
  split; try done.
  - intros q s Hq. simpl. rewrite lookup_insert_ne by congruence.
    exists s. split; [done|]. apply rtc_refl.
  - intros q s Hq Hnone. simpl in Hq. split; [done|].
    destruct (decide (fresh (dom (heap h)) = q)) as [<-|Hne].
    + rewrite lookup_insert_eq in Hq. injection Hq as <-.
      exists id, tenant, key, now. apply rtc_refl.
    + rewrite lookup_insert_ne in Hq by done. congruence.
Qed.

Lemma evolves_Subscribe (h h' : Hub) (sym : string) (p : nat) :
  Subscribe h sym p = Ok h' -> evolves h h'.
Proof.
  unfold Subscribe, deref. destruct (heap h !! p) as [sub|]; [|done]. simpl.
  intros [= <-]. by apply evolves_same_heap.
Qed.

Lemma evolves_close_and_remove (h h' : Hub) (sym subID : string) (topic : Topic)
      (p : nat) :
  close_and_remove h sym subID topic p = Ok h' -> evolves h h'.
Proof.
  unfold close_and_remove, deref, close_chan.
  destruct (heap h !! p) as [sub|] eqn:Hp; [|done]. simpl.
  destruct (ch_closed (SendChan sub)) eqn:Hclosed; [done|]. simpl. intros [= <-].
  eapply evolves_trans; [apply (evolves_set_sub h p sub (shut sub)); [done|]|].
  - by apply cell_shut.
  - by apply evolves_same_heap.
Qed.

Lemma evolves_Unsubscribe (h h' : Hub) (sym subID : string) :
  Unsubscribe h sym subID = Ok h' -> evolves h h'.
Proof.
  unfold Unsubscribe. destruct (topics h !! sym) as [topic|].
  - destruct (subscribers topic !! subID) as [p|].
    + apply evolves_close_and_remove.
    + intros [= <-]. apply evolves_refl.
  - intros [= <-]. apply evolves_refl.
Qed.

Lemma evolves_deliver (sym : string) (u : MarketDataUpdate) (now : Z)
      (h h' : Hub) (p : nat) :
  deliver sym u now h p = Ok h' -> evolves h h'.
Proof.
  unfold deliver, deref. destruct (heap h !! p) as [sub|] eqn:Hp; [|done]. simpl.
  destruct (closed sub) eqn:Hclosed.
  { intros [= <-]. apply evolves_refl. }
  unfold try_send. destruct (ch_closed (SendChan sub)) eqn:Hch; [done|].
  destruct (Z.of_nat (length (ch_buf (SendChan sub))) <? ch_cap (SendChan sub))
    eqn:Hroom.
  - intros [= <-].
    pose proof (evolves_set_sub h p sub (sent sub u now) Hp
                  (cell_sent sub u now Hclosed Hch Hroom)) as Hsent.
    unfold sent in Hsent. by rewrite Hclosed in Hsent.
  - assert (Hmiss : evolves h (add_dropped (set_sub h p (missed sub)) 1)).
    { eapply evolves_trans.
      - apply (evolves_set_sub h p sub (missed sub)); [done|]. by apply cell_missed.
      - by apply evolves_same_heap. }
    unfold missed in Hmiss. rewrite Hclosed in Hmiss.
    destruct (_ >? _).
    + unfold handleSlowConsumer. intros Hunsub.
      eapply evolves_trans; [exact Hmiss|]. by eapply evolves_Unsubscribe.
    + by intros [= <-].
Qed.

Lemma evolves_deliver_all (sym : string) (u : MarketDataUpdate) (now : Z)
      (ps : list nat) (h h' : Hub) :
  deliver_all sym u now h ps = Ok h' -> evolves h h'.
Proof.
  revert h. induction ps as [|p ps IH]; intros h; simpl.
  { intros [= <-]. apply evolves_refl. }
  destruct (deliver sym u now h p) as [h1|] eqn:Hd; [|done]. simpl. intros Hrest.
  eapply evolves_trans; [by eapply evolves_deliver|by apply IH].
Qed.

Lemma evolves_Publish (h h' : Hub) (sym : string) (u : MarketDataUpdate) (now : Z) :
  Publish h sym u now = Ok h' -> evolves h h'.
Proof.
  unfold Publish. destruct (topics h !! sym) as [topic|].
  - intros Hall. eapply evolves_trans; [|by eapply evolves_deliver_all].
    by apply evolves_same_heap.
  - intros [= <-]. apply evolves_refl.
Qed.

Lemma evolves_sweep_topic (now : Z) (sym : string) (entries : list (string * nat))
      (h h' : Hub) :
  sweep_topic now sym h entries = Ok h' -> evolves h h'.
Proof.
  revert h. induction entries as [|[subID p] entries IH]; intros h; simpl.
  { intros [= <-]. apply evolves_refl. }
  unfold deref. destruct (heap h !! p) as [sub|]; [|done]. simpl.
  destruct (_ && _); [|by apply IH].
  destruct (topics h !! sym) as [topic|]; [|by apply IH].
  destruct (close_and_remove h sym subID topic p) as [h1|] eqn:Hclose; [|done].
  simpl. intros Hrest.
  eapply evolves_trans; [by eapply evolves_close_and_remove|by apply IH].
Qed.

Lemma evolves_sweep_topics (now : Z) (syms : list string) (h h' : Hub) :
  sweep_topics now h syms = Ok h' -> evolves h h'.
Proof.
  revert h. induction syms as [|sym syms IH]; intros h; simpl.
  { intros [= <-]. apply evolves_refl. }
  destruct (topics h !! sym) as [topic|]; [|by apply IH].
  destruct (sweep_topic now sym h _) as [h1|] eqn:Hsweep; [|done].
  simpl. intros Hrest.
  eapply evolves_trans; [by eapply evolves_sweep_topic|by apply IH].
Qed.

Lemma evolves_read_one (h : Hub) (p : nat) : evolves h (read_one h p).
Proof.
  unfold read_one. destruct (heap h !! p) as [sub|] eqn:Hp; [|apply evolves_refl].
  destruct (receive (SendChan sub)) as [[u ch]|] eqn:Hrecv; [|apply evolves_refl].
  apply (evolves_set_sub h p sub (drained sub ch)); [done|]. by eapply cell_drained.
Qed.

Lemma evolves_hub_step (h h' : Hub) (o : hub_op) :
  hub_step h o = Ok h' -> evolves h h'.
Proof.
  destruct o as [id t k now|sym p|sym subID|sym u now|now|p]; simpl.
  - destruct (CreateSubscriber h id t k now) as [[p h1]|] eqn:Hcreate; [|done].
    simpl. intros [= <-]. by eapply evolves_CreateSubscriber.
  - apply evolves_Subscribe.
  - apply evolves_Unsubscribe.
  - apply evolves_Publish.
  - apply evolves_sweep_topics.
  - intros [= <-]. apply evolves_read_one.
Qed.

Lemma evolves_hub_run (ops : list hub_op) (h h' : Hub) :
  hub_run h ops = Ok h' -> evolves h h'.
Proof.
  revert h. induction ops as [|o ops IH]; intros h; simpl.
  { intros [= <-]. apply evolves_refl. }
  destruct (hub_step h o) as [h1|] eqn:Hstep; [|done]. simpl. intros Hrest.
  eapply evolves_trans; [by eapply evolves_hub_step|by apply IH].
Qed.

(** What the four changes keep. *)
Lemma cell_steps_bounded (sub sub' : Subscriber) :
  rtc cell_step sub sub' ->
  Z.of_nat (length (ch_buf (SendChan sub))) <= ch_cap (SendChan sub) ->
  ID sub' = ID sub /\ ch_cap (SendChan sub') = ch_cap (SendChan sub) /\
  Z.of_nat (length (ch_buf (SendChan sub'))) <= ch_cap (SendChan sub').
Proof.
  induction 1 as [sub|sub sub1 sub2 Hstep _ IH]; [done|]. intros Hlen.
  assert (Hone : ID sub1 = ID sub /\ ch_cap (SendChan sub1) = ch_cap (SendChan sub) /\
                 Z.of_nat (length (ch_buf (SendChan sub1))) <= ch_cap (SendChan sub1)).
  { destruct Hstep as [s u now _ _ Hroom|s _|s _|s u ch Hrecv]; simpl; try done.
    - unfold has_room in Hroom. rewrite length_app. simpl. split_and!; [done|done|lia].
    - unfold receive in Hrecv. destruct (ch_buf (SendChan s)) as [|u' rest] eqn:Hbuf;
        [done|]. injection Hrecv as <- <-. simpl in *. split_and!; [done|done|lia]. }
  destruct Hone as (Hid & Hcap & Hlen1). destruct (IH Hlen1) as (Hid' & Hcap' & Hlen').
  split_and!; [congruence|congruence|done].
Qed.

Lemma cell_steps_closed (sub sub' : Subscriber) :
  rtc cell_step sub sub' ->
  closed sub = true -> ch_closed (SendChan sub) = true ->
  closed sub' = true /\ ch_closed (SendChan sub') = true /\
  ch_buf (SendChan sub') `suffix_of` ch_buf (SendChan sub) /\
  Dropped sub' = Dropped sub /\ LastSend sub' = LastSend sub.
Proof.
  induction 1 as [sub|sub sub1 sub2 Hstep _ IH]; [done|]. intros Hclosed Hch.
  destruct Hstep as [s u now Hopen _ _|s Hopen|s Hopen|s u ch Hrecv]; try congruence.
  unfold receive in Hrecv. destruct (ch_buf (SendChan s)) as [|u' rest] eqn:Hbuf;
    [done|]. injection Hrecv as <- <-.
  destruct IH as (Hc & Hcc & Hsuf & Hd & Hl); [done|done|]. simpl in *.
  split_and!; try done. etrans; [exact Hsuf|]. by apply suffix_cons_r.
Qed.

(** X12.  Every subscriber of a hub reached from [NewHub] through its
    interface (create, subscribe, unsubscribe, publish, sweep) and the
    readers has a queue of capacity [buffer_size] that holds at most
    [buffer_size] updates. *)
Theorem queues_bounded (b t z : Z) (ops : list hub_op) (h : Hub) (p : nat)
        (sub : Subscriber) :
  hub_run (NewHub b t z) ops = Ok h -> heap h !! p = Some sub ->
  ch_cap (SendChan sub) = b /\
  0 <= Z.of_nat (length (ch_buf (SendChan sub))) <= b.
Proof.
  intros Hrun Hp. pose proof (evolves_hub_run ops _ _ Hrun) as Hev.
  destruct (ev_new _ _ Hev p sub Hp) as (Hb & id & tn & k & now & Hsteps); [done|].
  simpl in Hb, Hsteps.
  destruct (cell_steps_bounded _ _ Hsteps) as (_ & Hcap & Hlen); [simpl; lia|].
  simpl in Hcap. rewrite Hcap in Hlen. split; [done|]. lia.
Qed.

(** X13.  Closing is final.  Once a subscriber of a well-formed hub is
    closed, no operation that follows enqueues an update for it, counts
    a drop for it or reopens it: its queue can only be drained by its
    reader. *)
Theorem closed_is_final (h h' : Hub) (ops : list hub_op) (p : nat) (sub : Subscriber) :
  wf h -> hub_run h ops = Ok h' -> heap h !! p = Some sub -> closed sub = true ->
  exists sub',
    heap h' !! p = Some sub' /\ closed sub' = true /\
    ch_closed (SendChan sub') = true /\
    ch_buf (SendChan sub') `suffix_of` ch_buf (SendChan sub) /\
    Dropped sub' = Dropped sub /\ LastSend sub' = LastSend sub.
Proof.
  intros Hwf Hrun Hp Hclosed. pose proof (evolves_hub_run ops _ _ Hrun) as Hev.
  destruct (ev_old _ _ Hev p sub Hp) as (sub' & Hp' & Hsteps).
  exists sub'. split; [done|]. apply (cell_steps_closed sub sub'); [done|done|].
  by rewrite (wf_closed h Hwf p sub).
Qed.

Lemma Publish_frame (h : Hub) (sym : string) (u : MarketDataUpdate) (now : Z) :
  wf h ->
  exists h',
    Publish h sym u now = Ok h' /\
    (forall p, (forall id, subs_of h sym !! id <> Some p) ->
               heap h' !! p = heap h !! p).
Proof.
  intros Hwf. unfold Publish, subs_of.
  destruct (topics h !! sym) as [topic|] eqn:Htopic; [|by exists h].
  set (h1 := set_topic h sym (mkTopic (symbol topic) (subscribers topic) now)).
  assert (Hsubs1 : subs_of h1 sym = subscribers topic).
  { unfold h1. rewrite subs_of_set_topic. by rewrite decide_True. }
  assert (Hwf1 : wf h1).
  { apply wf_set_topic; [done|]. simpl. intros id p Hp.
    apply (wf_registered h Hwf sym). unfold subs_of. by rewrite Htopic. }
  destruct (deliver_all_registered sym u now (map_to_list (subscribers topic)) h1)
    as (h' & Hall & _ & Hframe & _).
  - done.
  - apply NoDup_fst_map_to_list.
  - intros id p Hin. rewrite Hsubs1. by apply elem_of_map_to_list.
  - exists h'. split; [done|]. intros p Hnot. rewrite Hframe; [done|].
    intros Hin. apply list_elem_of_fmap in Hin as ([id q] & -> & Hin).
    apply elem_of_map_to_list in Hin. by apply (Hnot id).
Qed.

(** X14.  On a hub reached from [NewHub], [Publish] returns: it neither
    panics nor blocks.  It serves each subscriber registered for the
    symbol once (enqueue, or drop, or drop and evict), and touches
    neither the subscribers that are not registered for the symbol nor
    the other topics. *)
Theorem Publish_returns (b t z : Z) (ops : list hub_op) (h : Hub) (sym : string)
        (u : MarketDataUpdate) (now : Z) :
  hub_run (NewHub b t z) ops = Ok h ->
  exists h',
    Publish h sym u now = Ok h' /\
    (forall id p sub, subs_of h sym !! id = Some p -> heap h !! p = Some sub ->
       heap h' !! p = Some (served t u now sub) /\
       subs_of h' sym !! id = if evicts t sub then None else Some p) /\
    (forall p, (forall id, subs_of h sym !! id <> Some p) ->
               heap h' !! p = heap h !! p) /\
    (forall sym', sym' <> sym -> topics h' !! sym' = topics h !! sym').
Proof.
  intros Hrun. pose proof (wf_reachable b t z ops h Hrun) as Hwf.
  pose proof (ev_threshold _ _ (evolves_hub_run ops _ _ Hrun)) as Hthr. simpl in Hthr.
  destruct (Publish_spec h sym u now Hwf)
    as (h' & Hpub & _ & Hserved & _ & Htopics & _).
  destruct (Publish_frame h sym u now Hwf) as (h'' & Hpub' & Hframe).
  assert (h'' = h') as -> by congruence.
  exists h'. rewrite <- Hthr. by split_and!.
Qed.

(** X15.  [Unsubscribe] of a registered subscriber of a well-formed
    hub.  If the subscriber is open, the call closes it, removes its
    registration from this topic only, decrements the active count, and
    a repeated call is a no-op.  If the subscriber is already closed,
    the call panics on the second close of its queue. *)
Theorem Unsubscribe_registered (h : Hub) (sym id : string) (p : nat) (sub : Subscriber) :
  wf h -> subs_of h sym !! id = Some p -> heap h !! p = Some sub ->
  (closed sub = true -> Unsubscribe h sym id = Panic "close of closed channel") /\
  (closed sub = false ->
   exists h1,
     Unsubscribe h sym id = Ok h1 /\
     heap h1 = <[p := shut sub]> (heap h) /\
     subs_of h1 sym = delete id (subs_of h sym) /\
     (forall sym', sym' <> sym -> topics h1 !! sym' = topics h !! sym') /\
     activeSubscribers h1 = int_add (activeSubscribers h) (-1) /\
     Unsubscribe h1 sym id = Ok h1).
Proof.
  intros Hwf Hreg Hp. pose proof (wf_closed h Hwf p sub Hp) as Hch.
  unfold subs_of in Hreg. unfold Unsubscribe at 1 2.
  destruct (topics h !! sym) as [topic|] eqn:Htopic; [|done]. rewrite Hreg.
  unfold close_and_remove, deref, close_chan. rewrite Hp. simpl. rewrite Hch.
  split; intros Hclosed; rewrite Hclosed; [done|]. simpl.
  eexists. split; [done|]. split_and!.
  - done.
  - unfold subs_of. simpl. rewrite lookup_insert_eq. simpl. by rewrite Htopic.
  - intros sym' Hne. simpl. by rewrite lookup_insert_ne.
  - done.
  - unfold Unsubscribe. simpl. rewrite lookup_insert_eq. simpl.
    by rewrite lookup_delete_eq.
Qed.

(** X16.  From creation to delivery: on a well-formed hub with a
    positive [buffer_size], a subscriber that is created and subscribed
    to a symbol gets the next publish on that symbol: the update is the
    one its reader takes next, nothing is counted as dropped, and the
    subscriber stays registered. *)
Theorem subscribe_then_publish_delivers (h : Hub) (id sym : string)
        (tenantID apiKeyID now now' : Z) (u : MarketDataUpdate) :
  wf h -> 0 < bufferSize h ->
  exists p h1 h2 h3 sub,
    CreateSubscriber h id tenantID apiKeyID now = Ok (p, h1) /\
    Subscribe h1 sym p = Ok h2 /\
    Publish h2 sym u now' = Ok h3 /\
    heap h3 !! p = Some sub /\
    receive (SendChan sub) = Some (u, mkChan [] (bufferSize h) false) /\
    LastSend sub = now' /\ Dropped sub = 0 /\ closed sub = false /\
    subs_of h3 sym !! id = Some p.
Proof.
  intros Hwf Hb.
  destruct (CreateSubscriber h id tenantID apiKeyID now) as [[p h1]|msg] eqn:Hcreate.
  2: { unfold CreateSubscriber, make_chan in Hcreate.
       destruct (Z.ltb_spec (bufferSize h) 0); [lia|done]. }
  destruct (wf_CreateSubscriber h h1 id tenantID apiKeyID now p Hwf Hcreate)
    as (Hwf1 & _ & Hp1).
  destruct (Subscribe h1 sym p) as [h2|msg] eqn:Hsub.
  2: { unfold Subscribe, deref in Hsub. by rewrite Hp1 in Hsub. }
  pose proof (wf_Subscribe h1 h2 sym p Hwf1 Hsub) as Hwf2.
  assert (Hh2 : heap h2 = heap h1 /\ subs_of h2 sym !! id = Some p /\
                slowThreshold h2 = slowThreshold h1).
  { unfold Subscribe, deref in Hsub. rewrite Hp1 in Hsub. simpl in Hsub.
    injection Hsub as <-. split; [done|]. split; [|done].
    unfold subs_of. simpl. rewrite lookup_insert_eq. simpl.
    by rewrite lookup_insert_eq. }
  destruct Hh2 as (Hheap2 & Hreg2 & _).
  destruct (Publish_spec h2 sym u now' Hwf2) as (h3 & Hpub & _ & Hserved & _).
  rewrite <- Hheap2 in Hp1.
  destruct (Hserved id p _ Hreg2 Hp1) as (Hp3 & Hreg3).
  assert (Hs : served (slowThreshold h2) u now'
                 (mkSubscriber id tenantID apiKeyID (mkChan [] (bufferSize h) false)
                               now now 0 false)
               = mkSubscriber id tenantID apiKeyID (mkChan [u] (bufferSize h) false)
                              now now' 0 false).
  { unfold served, has_room. simpl. destruct (Z.ltb_spec (Z.of_nat 0) (bufferSize h)); [done|simpl in *; lia]. }
  rewrite Hs in Hp3.
  exists p, h1, h2, h3,
    (mkSubscriber id tenantID apiKeyID (mkChan [u] (bufferSize h) false) now now' 0 false).
  split_and!; try done.
  rewrite Hreg3. unfold evicts, drops, has_room. simpl.
  destruct (Z.ltb_spec (Z.of_nat 0) (bufferSize h)); [done|simpl in *; lia].
Qed.

(** *** The active count *)

Lemma registered_set_topic (h : Hub) (sym : string) (t : Topic) :
  registered (set_topic h sym t)
  = registered h - Z.of_nat (size (subs_of h sym)) + Z.of_nat (size (subscribers t)).
Proof.
  unfold registered, subs_of. simpl.
  set (f := fun (_ : string) (topic : Topic) (acc : Z) =>
              acc + Z.of_nat (size (subscribers topic))).
  assert (Hcomm : forall (m : gmap string Topic) (j1 j2 : string) (z1 z2 : Topic) (y : Z),
             j1 <> j2 -> m !! j1 = Some z1 -> m !! j2 = Some z2 ->
             f j1 z1 (f j2 z2 y) = f j2 z2 (f j1 z1 y)).
  { intros. unfold f. lia. }
  destruct (topics h !! sym) as [t0|] eqn:Htopic.
  - rewrite <- (insert_delete_eq (topics h)).
    rewrite <- (insert_delete_id (topics h) sym t0 Htopic) at 2.
    rewrite !map_fold_insert_L; [unfold f; lia|apply Hcomm|apply lookup_delete_eq
                                |apply Hcomm|apply lookup_delete_eq].
  - rewrite map_fold_insert_L; [|apply Hcomm|done]. unfold f.
    rewrite map_size_empty. lia.
Qed.

Lemma accounted_by (h h' : Hub) (d : Z) :
  accounted h -> registered h' = registered h + d ->
  activeSubscribers h' = int_add (activeSubscribers h) d -> accounted h'.
Proof.
  unfold accounted. intros Hacc Hreg Hact. rewrite Hact, Hacc, Hreg.
  unfold int_add. apply wrap64_add_l.
Qed.

Lemma accounted_same (h h' : Hub) :
  accounted h -> topics h' = topics h -> activeSubscribers h' = activeSubscribers h ->
  accounted h'.
Proof. unfold accounted, registered. intros Hacc -> ->. done. Qed.

Lemma accounted_Subscribe (h h' : Hub) (sym : string) (p : nat) :
  accounted h ->
  (forall sub, heap h !! p = Some sub -> subs_of h sym !! ID sub = None) ->
  Subscribe h sym p = Ok h' -> accounted h'.
Proof.
  intros Hacc Hfresh. unfold Subscribe, deref.
  destruct (heap h !! p) as [sub|] eqn:Hp; [|done]. simpl. intros [= <-].
  specialize (Hfresh sub eq_refl).
  apply (accounted_by h _ 1); [done| |done].
  change (registered (add_active ?x 1)) with (registered x).
  rewrite registered_set_topic. simpl. unfold subs_of in *.
  destruct (topics h !! sym) as [topic|]; simpl.
  - rewrite map_size_insert_None by done. lia.
  - rewrite map_size_insert_None by done. rewrite map_size_empty. lia.
Qed.

Lemma accounted_close_and_remove (h h' : Hub) (sym subID : string) (topic : Topic)
      (p : nat) :
  accounted h -> topics h !! sym = Some topic -> is_Some (subscribers topic !! subID) ->
  close_and_remove h sym subID topic p = Ok h' -> accounted h'.
Proof.
  intros Hacc Htopic Hreg. unfold close_and_remove, deref, close_chan.
  destruct (heap h !! p) as [sub|] eqn:Hp; [|done]. simpl.
  destruct (ch_closed (SendChan sub)); [done|]. simpl. intros [= <-].
  apply (accounted_by h _ (-1)); [done| |done].
  change (registered (add_active ?x (-1))) with (registered x).
  rewrite registered_set_topic. simpl.
  change (registered (set_sub h p ?s)) with (registered h).
  change (subs_of (set_sub h p ?s) sym) with (subs_of h sym).
  unfold subs_of. rewrite Htopic. rewrite map_size_delete_Some by done.
  destruct Hreg as [q Hq].
  assert (size (subscribers topic) <> 0%nat).
  { intros Hsize. apply map_size_empty_inv in Hsize. rewrite Hsize in Hq. done. }
  lia.
Qed.

Lemma accounted_Unsubscribe (h h' : Hub) (sym subID : string) :
  accounted h -> Unsubscribe h sym subID = Ok h' -> accounted h'.
Proof.
  intros Hacc. unfold Unsubscribe.
  destruct (topics h !! sym) as [topic|] eqn:Htopic; [|by intros [= <-]].
  destruct (subscribers topic !! subID) as [p|] eqn:Hreg; [|by intros [= <-]].
  by apply accounted_close_and_remove.
Qed.

Lemma accounted_deliver (sym : string) (u : MarketDataUpdate) (now : Z)
      (h h' : Hub) (p : nat) :
  accounted h -> deliver sym u now h p = Ok h' -> accounted h'.
Proof.
  intros Hacc. unfold deliver, deref.
  destruct (heap h !! p) as [sub|] eqn:Hp; [|done]. simpl.
  destruct (closed sub); [by intros [= <-]|].
  destruct (try_send (SendChan sub) u) as [ch| |]; [by intros [= <-]| |done].
  destruct (_ >? _); [|by intros [= <-]].
  unfold handleSlowConsumer. by apply accounted_Unsubscribe.
Qed.

Lemma accounted_deliver_all (sym : string) (u : MarketDataUpdate) (now : Z)
      (ps : list nat) (h h' : Hub) :
  accounted h -> deliver_all sym u now h ps = Ok h' -> accounted h'.
Proof.
  revert h. induction ps as [|p ps IH]; intros h Hacc; simpl; [by intros [= <-]|].
  destruct (deliver sym u now h p) as [h1|] eqn:Hd; [|done]. simpl.
  apply IH. by eapply accounted_deliver.
Qed.

Lemma accounted_Publish (h h' : Hub) (sym : string) (u : MarketDataUpdate) (now : Z) :
  accounted h -> Publish h sym u now = Ok h' -> accounted h'.
Proof.
  intros Hacc. unfold Publish.
  destruct (topics h !! sym) as [topic|] eqn:Htopic; [|by intros [= <-]].
  apply accounted_deliver_all. unfold accounted in *.
  rewrite registered_set_topic. simpl. unfold subs_of. rewrite Htopic.
  rewrite Hacc. f_equal. lia.
Qed.

(** *** The sweep *)

Lemma zombie_timeout (h h' : Hub) (now : Z) (sub : Subscriber) :
  zombieTimeout h' = zombieTimeout h -> zombie h' now sub = zombie h now sub.
Proof. intros Hz. unfold zombie. by rewrite Hz. Qed.

Lemma swept_refl (now : Z) (h : Hub) : swept now h h.
Proof.
  split; try done. intros q sub Hq. exists sub. split_and!; [done|done|by left].
Qed.

Lemma swept_trans (now : Z) (h1 h2 h3 : Hub) :
  swept now h1 h2 -> swept now h2 h3 -> swept now h1 h3.
Proof.
  intros H12 H23. split.
  - rewrite (sw_timeout _ _ _ H23). apply H12.
  - intros q sub Hq.
    destruct (sw_heap _ _ _ H12 q sub Hq) as (sub2 & Hq2 & Hsame2 & Hshut2).
    destruct (sw_heap _ _ _ H23 q sub2 Hq2) as (sub3 & Hq3 & Hsame3 & Hshut3).
    exists sub3. split; [done|]. split.
    + intros Hz. rewrite <- (Hsame2 Hz). apply Hsame3.
      rewrite (zombie_timeout h1 h2) by apply H12. by rewrite (Hsame2 Hz).
    + destruct Hshut2 as [->| ->]; [done|]. destruct Hshut3 as [->| ->]; by right.
  - intros q Hq. apply (sw_dom _ _ _ H23), (sw_dom _ _ _ H12), Hq.
  - intros s. etrans; [apply H23|apply H12].
  - intros s i q sub Hreg Hq Hz.
    destruct (sw_heap _ _ _ H12 q sub Hq) as (sub2 & Hq2 & Hsame2 & _).
    rewrite (Hsame2 Hz) in Hq2.
    apply (sw_keep _ _ _ H23 s i q sub); [|done|].
    + by apply (sw_keep _ _ _ H12 s i q sub).
    + by rewrite (zombie_timeout h1 h2) by apply H12.
Qed.

Lemma subs_of_add_active (h : Hub) (d : Z) (s : string) :
  subs_of (add_active h d) s = subs_of h s.
Proof. done. Qed.

Lemma sweep_one_swept (now : Z) (sym id : string) (h : Hub) (p : nat) :
  wf h -> subs_of h sym !! id = Some p ->
  exists h',
    sweep_one now sym h (id, p) = Ok h' /\ wf h' /\ swept now h h' /\
    (forall sub', heap h' !! p = Some sub' -> zombie h' now sub' = false) /\
    (forall i, i <> id -> subs_of h' sym !! i = subs_of h sym !! i) /\
    (accounted h -> accounted h').
Proof.
  intros Hwf Hreg.
  destruct (wf_registered h Hwf sym id p Hreg) as (sub & Hp & Hid).
  pose proof (wf_closed h Hwf p sub Hp) as Hch.
  unfold sweep_one, deref. rewrite Hp. simpl. fold (zombie h now sub).
  destruct (zombie h now sub) eqn:Hz.
  2: { exists h. split_and!; try done; [apply swept_refl|]. intros sub'. congruence. }
  unfold subs_of in Hreg.
  destruct (topics h !! sym) as [topic|] eqn:Htopic; [|done].
  assert (Hopen : closed sub = false).
  { unfold zombie in Hz. apply andb_true_iff in Hz as [_ Hz].
    by apply negb_true_iff in Hz. }
  destruct (close_and_remove h sym id topic p) as [h'|msg] eqn:Hclose.
  2: { unfold close_and_remove, deref, close_chan in Hclose.
       rewrite Hp in Hclose. simpl in Hclose. by rewrite Hch, Hopen in Hclose. }
  assert (Hacc' : accounted h -> accounted h').
  { intros Hacc.
    apply (accounted_close_and_remove h h' sym id topic p); [done|done| |done].
    by rewrite Hreg. }
  exists h'. split; [done|]. split; [by eapply wf_close_and_remove|].
  unfold close_and_remove, deref, close_chan in Hclose.
  rewrite Hp in Hclose. simpl in Hclose. rewrite Hch, Hopen in Hclose.
  simpl in Hclose. injection Hclose as <-. split_and!.
  - split; try done.
    + intros q s Hq. simpl. destruct (decide (p = q)) as [->|Hne].
      * rewrite lookup_insert_eq. assert (s = sub) as -> by congruence.
        eexists. split; [done|]. split; [congruence|by right].
      * rewrite lookup_insert_ne by done. exists s. split_and!; [done|done|by left].
    + intros q Hq. simpl. rewrite lookup_insert_ne; [done|]. congruence.
    + intros s. rewrite subs_of_add_active, subs_of_set_topic. destruct (decide (sym = s)) as [<-|Hne].
      * simpl. unfold subs_of. simpl. rewrite Htopic. apply delete_subseteq.
      * done.
    + intros s i q sq Hsi Hq Hzq. rewrite subs_of_add_active, subs_of_set_topic.
      destruct (decide (sym = s)) as [<-|Hne]; [|done]. simpl.
      unfold subs_of in Hsi. rewrite Htopic in Hsi.
      destruct (decide (i = id)) as [->|Hi].
      * assert (q = p) as -> by congruence. congruence.
      * by rewrite lookup_delete_ne.
  - intros sub'. simpl. rewrite lookup_insert_eq. intros [= <-].
    unfold zombie. simpl. apply andb_false_r.
  - intros i Hi. unfold subs_of. simpl. rewrite lookup_insert_eq. simpl.
    rewrite Htopic. by rewrite lookup_delete_ne.
  - exact Hacc'.
Qed.

Lemma swept_settled (now : Z) (h h' : Hub) (q : nat) :
  swept now h h' ->
  (forall sub, heap h !! q = Some sub -> zombie h now sub = false) ->
  forall sub', heap h' !! q = Some sub' -> zombie h' now sub' = false.
Proof.
  intros Hsw Hsettled sub' Hq'.
  destruct (heap h !! q) as [sub|] eqn:Hq.
  - destruct (sw_heap _ _ _ Hsw q sub Hq) as (s & Hs & Hsame & _).
    specialize (Hsame (Hsettled sub eq_refl)). subst s.
    assert (sub' = sub) as -> by congruence.
    rewrite (zombie_timeout h h') by apply Hsw. by apply Hsettled.
  - rewrite (sw_dom _ _ _ Hsw q Hq) in Hq'. done.
Qed.

Lemma sweep_topic_swept (now : Z) (sym : string) (es : list (string * nat)) (h : Hub) :
  wf h -> NoDup es.*1 ->
  (forall id p, (id, p) ∈ es -> subs_of h sym !! id = Some p) ->
  exists h',
    sweep_topic now sym h es = Ok h' /\ wf h' /\ swept now h h' /\
    (forall id p sub', (id, p) ∈ es -> heap h' !! p = Some sub' ->
                       zombie h' now sub' = false) /\
    (forall i, i ∉ es.*1 -> subs_of h' sym !! i = subs_of h sym !! i) /\
    (accounted h -> accounted h').
Proof.
  revert h. induction es as [|[id p] es IH]; intros h Hwf Hnodup Hreg.
  { exists h. split_and!; try done; [apply swept_refl|].
    intros id p sub' Hin. by apply elem_of_nil in Hin. }
  simpl in Hnodup. apply NoDup_cons in Hnodup as [Hfresh Hnodup].
  destruct (sweep_one_swept now sym id h p Hwf)
    as (h1 & Hone & Hwf1 & Hsw1 & Hset1 & Hoth1 & Hacc1).
  { apply Hreg. by left. }
  destruct (IH h1 Hwf1 Hnodup) as (h' & Hrest & Hwf' & Hsw' & Hset' & Hoth' & Hacc').
  { intros i q Hin. rewrite Hoth1.
    - apply Hreg. by right.
    - intros ->. apply Hfresh. apply list_elem_of_fmap. by exists (id, q). }
  exists h'. split.
  { change (sweep_topic now sym h ((id, p) :: es))
      with (h1' ← sweep_one now sym h (id, p); sweep_topic now sym h1' es).
    by rewrite Hone. }
  split; [done|]. split; [by eapply swept_trans|]. split_and!.
  - intros i q sub' Hin Hq. apply elem_of_cons in Hin as [[= -> ->]|Hin].
    + by apply (swept_settled now h1 h' p Hsw' Hset1).
    + by apply (Hset' i q).
  - intros i Hi. simpl in Hi. apply not_elem_of_cons in Hi as [Hi1 Hi2].
    rewrite Hoth' by done. by apply Hoth1.
  - intros Hacc. by apply Hacc', Hacc1.
Qed.

Lemma sweep_topics_swept (now : Z) (syms : list string) (h : Hub) :
  wf h ->
  exists h',
    sweep_topics now h syms = Ok h' /\ wf h' /\ swept now h h' /\
    (forall sym id p sub', sym ∈ syms -> subs_of h' sym !! id = Some p ->
                           heap h' !! p = Some sub' -> zombie h' now sub' = false) /\
    (accounted h -> accounted h').
Proof.
  revert h. induction syms as [|sym syms IH]; intros h Hwf.
  { exists h. split_and!; try done; [apply swept_refl|].
    intros sym id p sub' Hin. by apply elem_of_nil in Hin. }
  assert (Hhead : exists h1,
             match topics h !! sym with
             | Some topic => sweep_topic now sym h (map_to_list (subscribers topic))
             | None => Ok h
             end = Ok h1 /\ wf h1 /\ swept now h h1 /\
             (forall id p sub1, subs_of h sym !! id = Some p ->
                                heap h1 !! p = Some sub1 -> zombie h1 now sub1 = false) /\
             (accounted h -> accounted h1)).
  { destruct (topics h !! sym) as [topic|] eqn:Htopic.
    - destruct (sweep_topic_swept now sym (map_to_list (subscribers topic)) h Hwf)
        as (h1 & Hsweep & Hwf1 & Hsw1 & Hset1 & _ & Hacc1).
      + apply NoDup_fst_map_to_list.
      + intros id p Hin. apply elem_of_map_to_list in Hin.
        unfold subs_of. by rewrite Htopic.
      + exists h1. split_and!; try done. intros id p sub1 Hreg Hp.
        apply (Hset1 id p); [|done]. apply elem_of_map_to_list.
        unfold subs_of in Hreg. by rewrite Htopic in Hreg.
    - exists h. split_and!; try done; [apply swept_refl|].
      intros id p sub1 Hreg. unfold subs_of in Hreg. by rewrite Htopic in Hreg. }
  destruct Hhead as (h1 & Hsweep & Hwf1 & Hsw1 & Hset1 & Hacc1).
  destruct (IH h1 Hwf1) as (h' & Hrest & Hwf' & Hsw' & Hset' & Hacc').
  exists h'. split.
  { simpl. by rewrite Hsweep. }
  split; [done|]. split; [by eapply swept_trans|]. split.
  2: { intros Hacc. by apply Hacc', Hacc1. }
  intros s id p sub' Hin Hreg Hp. apply elem_of_cons in Hin as [->|Hin].
  - pose proof (lookup_weaken _ _ _ _ Hreg (sw_shrink _ _ _ Hsw' sym)) as Hreg1.
    pose proof (lookup_weaken _ _ _ _ Hreg1 (sw_shrink _ _ _ Hsw1 sym)) as Hreg0.
    apply (swept_settled now h1 h' p Hsw'); [|done].
    intros sub1. by apply (Hset1 id p).
  - by apply (Hset' s id p).
Qed.

(** X17.  [CleanupZombies] on a well-formed hub returns, also when a
    zombie is registered in several topics.  Afterwards no registered
    subscriber is an open one whose last send is older than the zombie
    timeout; the subscribers that were no zombies are unchanged and
    keep their registrations, and no registration is added. *)
Theorem CleanupZombies_sweeps (h : Hub) (now : Z) :
  wf h ->
  exists h',
    CleanupZombies h now = Ok h' /\ wf h' /\
    (forall sym id p sub', subs_of h' sym !! id = Some p ->
                           heap h' !! p = Some sub' -> zombie h now sub' = false) /\
    (forall sym id p sub, subs_of h sym !! id = Some p -> heap h !! p = Some sub ->
                          zombie h now sub = false ->
                          subs_of h' sym !! id = Some p /\ heap h' !! p = Some sub) /\
    (forall sym, subs_of h' sym ⊆ subs_of h sym).
Proof.
  intros Hwf. unfold CleanupZombies.
  destruct (sweep_topics_swept now (map_to_list (topics h)).*1 h Hwf)
    as (h' & Hsweep & Hwf' & Hsw & Hset & _).
  exists h'. split_and!; try done.
  - intros sym id p sub' Hreg Hp.
    rewrite <- (zombie_timeout h h') by apply Hsw.
    apply (Hset sym id p); [|done|done].
    pose proof (lookup_weaken _ _ _ _ Hreg (sw_shrink _ _ _ Hsw sym)) as Hreg0.
    unfold subs_of in Hreg0.
    destruct (topics h !! sym) as [topic|] eqn:Htopic; [|done].
    apply list_elem_of_fmap. exists (sym, topic). split; [done|].
    by apply elem_of_map_to_list.
  - intros sym id p sub Hreg Hp Hz. split.
    + by apply (sw_keep _ _ _ Hsw sym id p sub).
    + destruct (sw_heap _ _ _ Hsw p sub Hp) as (s & Hs & Hsame & _).
      by rewrite <- (Hsame Hz).
  - apply Hsw.
Qed.

Lemma accounted_hub_step (h h' : Hub) (o : hub_op) :
  wf h -> accounted h ->
  match o with
  | OpSubscribe sym p =>
      forall sub, heap h !! p = Some sub -> subs_of h sym !! ID sub = None
  | _ => True
  end ->
  hub_step h o = Ok h' -> accounted h'.
Proof.
  intros Hwf Hacc Hfresh.
  destruct o as [id tn k now|sym p|sym subID|sym u now|now|p]; simpl.
  - unfold CreateSubscriber. destruct (make_chan (bufferSize h)) as [ch|]; [|done].
    simpl. intros [= <-]. by apply (accounted_same h).
  - by apply accounted_Subscribe.
  - by apply accounted_Unsubscribe.
  - by apply accounted_Publish.
  - unfold CleanupZombies.
    destruct (sweep_topics_swept now (map_to_list (topics h)).*1 h Hwf)
      as (h1 & -> & _ & _ & _ & Hacc1).
    intros [= <-]. by apply Hacc1.
  - intros [= <-]. apply (accounted_same h); [done| |].
    + unfold read_one. destruct (heap h !! p) as [sub|]; [|done].
      by destruct (receive (SendChan sub)) as [[? ?]|].
    + unfold read_one. destruct (heap h !! p) as [sub|]; [|done].
      by destruct (receive (SendChan sub)) as [[? ?]|].
Qed.

(** X18.  The active count is right when nobody subscribes twice.  On
    a hub reached from [NewHub] by a run in which no [Subscribe]
    registers a subscriber under an id that its topic already holds,
    the [ActiveSubscribers] of [GetStats] is the number of
    registrations, summed over the topics. *)
Theorem active_count_is_registrations (b t z : Z) (ops : list hub_op) (h : Hub) :
  no_double_subscribe (NewHub b t z) ops ->
  hub_run (NewHub b t z) ops = Ok h ->
  ActiveSubscribers (GetStats h) = wrap64 (registered h).
Proof.
  assert (Hgen : forall h0, wf h0 -> accounted h0 -> no_double_subscribe h0 ops ->
                            hub_run h0 ops = Ok h -> accounted h).
  { induction ops as [|o ops IH]; intros h0 Hwf Hacc Hfresh; simpl.
    - by intros [= <-].
    - destruct (hub_step h0 o) as [h1|] eqn:Hstep; [|done]. simpl.
      destruct Hfresh as [Ho Hrest].
      apply IH; [by eapply wf_hub_step| |by apply Hrest].
      by apply (accounted_hub_step h0 h1 o). }
  intros Hfresh Hrun. apply (Hgen (NewHub b t z)); try done.
Qed.

Lemma active_count_is_registrations_example :
  ActiveSubscribers (GetStats busy_hub) = wrap64 (registered busy_hub).
Proof.
  apply (active_count_is_registrations 2 1 minute busy_ops busy_hub); [|reflexivity].
  unfold busy_ops.
  repeat (split; [try done; intros sub Hsub; vm_compute in Hsub;
                  injection Hsub as <-; reflexivity
                 |intros h' Hstep; vm_compute in Hstep; injection Hstep as <-]).
  done.
Defined.

Lemma busy_hub_wf : wf busy_hub.
Proof. by apply (wf_reachable 2 1 minute busy_ops). Qed.

Lemma queues_bounded_example :
  ch_cap (SendChan (new_subscriber 2 "a" 1 1 0)) = 2 /\
  0 <= Z.of_nat (length (ch_buf (SendChan (new_subscriber 2 "a" 1 1 0)))) <= 2.
Proof.
  apply (queues_bounded 2 1 minute busy_ops busy_hub 0%nat); reflexivity.
Defined.

Lemma closed_is_final_example :
  exists sub',
    heap (run_from left_hub [OpPublish "BTC" (tick 1).1 5; OpCleanupZombies 6])
      !! 0%nat = Some sub' /\
    closed sub' = true /\ ch_closed (SendChan sub') = true /\
    ch_buf (SendChan sub') `suffix_of` ch_buf (SendChan (shut (new_subscriber 2 "a" 1 1 0))) /\
    Dropped sub' = Dropped (shut (new_subscriber 2 "a" 1 1 0)) /\
    LastSend sub' = LastSend (shut (new_subscriber 2 "a" 1 1 0)).
Proof.
  apply (closed_is_final left_hub _ [OpPublish "BTC" (tick 1).1 5; OpCleanupZombies 6]).
  - by apply (wf_reachable 2 1 minute (busy_ops ++ [OpUnsubscribe "BTC" "a"])).
  - reflexivity.
  - reflexivity.
  - reflexivity.
Defined.

Lemma Publish_returns_example :
  exists h',
    Publish busy_hub "BTC" (tick 1).1 5 = Ok h' /\
    (forall id p sub, subs_of busy_hub "BTC" !! id = Some p ->
       heap busy_hub !! p = Some sub ->
       heap h' !! p = Some (served 1 (tick 1).1 5 sub) /\
       subs_of h' "BTC" !! id = if evicts 1 sub then None else Some p) /\
    (forall p, (forall id, subs_of busy_hub "BTC" !! id <> Some p) ->
               heap h' !! p = heap busy_hub !! p) /\
    (forall sym', sym' <> "BTC" -> topics h' !! sym' = topics busy_hub !! sym').
Proof.
  apply (Publish_returns 2 1 minute busy_ops busy_hub "BTC" (tick 1).1 5).
  reflexivity.
Defined.

Lemma Unsubscribe_registered_example :
  exists h1,
    Unsubscribe busy_hub "BTC" "a" = Ok h1 /\
    heap h1 = <[0%nat := shut (new_subscriber 2 "a" 1 1 0)]> (heap busy_hub) /\
    subs_of h1 "BTC" = delete "a" (subs_of busy_hub "BTC") /\
    Unsubscribe h1 "BTC" "a" = Ok h1.
Proof.
  destruct (Unsubscribe_registered busy_hub "BTC" "a" 0%nat
              (new_subscriber 2 "a" 1 1 0) busy_hub_wf) as [_ Hopen].
  - reflexivity.
  - reflexivity.
  - destruct (Hopen eq_refl) as (h1 & Hun & Hheap & Hsubs & _ & _ & Hagain).
    by exists h1.
Defined.

Lemma subscribe_then_publish_delivers_example :
  exists p h1 h2 h3 sub,
    CreateSubscriber busy_hub "c" 3 3 7 = Ok (p, h1) /\
    Subscribe h1 "ETH" p = Ok h2 /\
    Publish h2 "ETH" (tick 1).1 8 = Ok h3 /\
    heap h3 !! p = Some sub /\
    receive (SendChan sub) = Some ((tick 1).1, mkChan [] (bufferSize busy_hub) false) /\
    LastSend sub = 8 /\ Dropped sub = 0 /\ closed sub = false /\
    subs_of h3 "ETH" !! "c" = Some p.
Proof.
  apply (subscribe_then_publish_delivers busy_hub "c" "ETH" 3 3 7 8 (tick 1).1
           busy_hub_wf).
  reflexivity.
Defined.

Lemma CleanupZombies_sweeps_example :
  exists h',
    CleanupZombies busy_hub (2 * minute + 1) = Ok h' /\
    subs_of h' "BTC" !! "b" = Some 1%nat /\
    subs_of h' "BTC" ⊆ subs_of busy_hub "BTC".
Proof.
  destruct (CleanupZombies_sweeps busy_hub (2 * minute + 1) busy_hub_wf)
    as (h' & Hsweep & _ & _ & Hkeep & Hshrink).
  exists h'. split; [done|]. split; [|done].
  apply (Hkeep "BTC" "b" 1%nat (new_subscriber 2 "b" 2 2 (2 * minute)));
    reflexivity.
Defined.

End HubMore.

Module AuthMore.
Import Auth AuthCache AuthSpec AuthTrace AuthFacts.

Lemma time_Sub_mono (t t' u : Z) : t <= t' -> time_Sub t u <= time_Sub t' u.
Proof. unfold time_Sub. lia. Qed.

Lemma expired_at_mono (ac : AuthContext) (now now' : Z) :
  now <= now' -> expired_at ac now = true -> expired_at ac now' = true.
Proof.
  unfold expired_at, Before. destruct (ExpiresAt ac); [|done]. lia.
Qed.

Lemma IsValid_later (ac : AuthContext) (now now' : Z) :
  now <= now' -> IsValid ac now' = true -> IsValid ac now = true.
Proof.
  intros Hle. rewrite !IsValid_spec. intros (Ht & Hk & He). split_and!; try done.
  destruct (expired_at ac now) eqn:Hnow; [|done].
  by rewrite (expired_at_mono ac now now' Hle Hnow) in He.
Qed.

Lemma IsValid_stamp (ac : AuthContext) (t now : Z) :
  IsValid (stamp ac t) now = IsValid ac now.
Proof. done. Qed.

Section WithHash.
Variable hashAPIKey : string -> string.

Lemma authenticate_db_outcome (s s' : Service) (keyHash : string) (now : Z) :
  db s' = db s ->
  (authenticate_db s' keyHash now).1 = (authenticate_db s keyHash now).1.
Proof.
  intros Hdb. unfold authenticate_db, queryAuthContext. rewrite Hdb.
  destruct (db s keyHash) as [r| |]; [|done|done].
  destruct (IsValid r now); simpl; [done|]. by repeat case_match.
Qed.

Lemma Authenticate_hit (s : Service) (apiKey : string) (now : Z) (ac : AuthContext) :
  apiKey <> "" -> cache s !! hashAPIKey apiKey = Some ac ->
  time_Sub now (CachedAt ac) <= cacheTTL s -> IsValid ac now = true ->
  Authenticate hashAPIKey s apiKey now = (inr ac, s).
Proof.
  intros Hkey Hcache Hfresh Hvalid. unfold Authenticate, getFromCache.
  apply String.eqb_neq in Hkey. rewrite Hkey, Hcache.
  destruct (Z.gtb_spec (time_Sub now (CachedAt ac)) (cacheTTL s)); [lia|].
  by rewrite Hvalid.
Qed.

Lemma Authenticate_success (s s1 : Service) (apiKey : string) (now : Z)
      (ac : AuthContext) :
  Authenticate hashAPIKey s apiKey now = (inr ac, s1) ->
  apiKey <> "" /\ cache s1 !! hashAPIKey apiKey = Some ac /\
  IsValid ac now = true /\ cacheTTL s1 = cacheTTL s.
Proof.
  unfold Authenticate. destruct (String.eqb_spec apiKey ""); [done|].
  assert (Hdb : forall s0,
             cacheTTL s0 = cacheTTL s ->
             authenticate_redis s0 (hashAPIKey apiKey) now = (inr ac, s1) ->
             cache s1 !! hashAPIKey apiKey = Some ac /\
             IsValid ac now = true /\ cacheTTL s1 = cacheTTL s).
  { intros s0 Httl. rewrite authenticate_redis_db.
    unfold authenticate_db, queryAuthContext.
    destruct (db s0 (hashAPIKey apiKey)) as [r| |]; [|done|done].
    destruct (IsValid r now) eqn:Hvalid; simpl; [|by repeat case_match].
    intros [= <- <-]. split_and!; try done.
    - destruct (redis _); simpl; by rewrite lookup_insert_eq.
    - by destruct (redis _). }
  unfold getFromCache.
  destruct (cache s !! hashAPIKey apiKey) as [ac0|] eqn:Hcache.
  - destruct (Z.gtb_spec (time_Sub now (CachedAt ac0)) (cacheTTL s)) as [Hold|Hfresh].
    + intros Hrest. split; [done|]. by apply (Hdb s).
    + destruct (IsValid ac0 now) eqn:Hvalid.
      * intros [= <- <-]. by split_and!.
      * intros Hrest. split; [done|].
        by apply (Hdb (removeFromCache s (hashAPIKey apiKey))).
  - intros Hrest. split; [done|]. by apply (Hdb s).
Qed.

(** X19.  A verdict outlives a revocation.  After a successful
    [Authenticate], the same credential is accepted from the in-process
    cache, with the same context and without consulting the repository,
    for as long as the entry is no older than the TTL and its expiry is
    not past, whatever the repository holds by then.  After
    [InvalidateCache] the verdict is the one of a service with an empty
    cache. *)
Theorem cached_verdict_survives (s s1 : Service) (apiKey : string) (t0 : Z)
        (ac : AuthContext) :
  Authenticate hashAPIKey s apiKey t0 = (inr ac, s1) ->
  forall (db' : string -> QueryResult) (t1 : Z),
    time_Sub t1 (CachedAt ac) <= cacheTTL s -> expired_at ac t1 = false ->
    Authenticate hashAPIKey (set_db s1 db') apiKey t1 = (inr ac, set_db s1 db') /\
    (Authenticate hashAPIKey (InvalidateCache hashAPIKey (set_db s1 db') apiKey)
                  apiKey t1).1
    = (Authenticate hashAPIKey (set_cache (set_db s1 db') ∅) apiKey t1).1.
Proof.
  intros Hauth db' t1 Hfresh Hexp.
  assert (Hfacts : apiKey <> "" /\ cache s1 !! hashAPIKey apiKey = Some ac /\
                   IsValid ac t0 = true /\ cacheTTL s1 = cacheTTL s).
  { by apply Authenticate_success. }
  destruct Hfacts as (Hkey & Hcache & Hvalid & Httl). split.
  - apply Authenticate_hit; try done.
    + simpl. by rewrite Httl.
    + apply IsValid_spec in Hvalid as (Ht & Hk & _). apply IsValid_spec. by split_and!.
  - unfold Authenticate, InvalidateCache, getFromCache, removeFromCache.
    apply String.eqb_neq in Hkey. rewrite Hkey. simpl.
    rewrite lookup_delete_eq, lookup_empty. rewrite !authenticate_redis_db.
    by apply authenticate_db_outcome.
Qed.

(** X20.  A failure is not cached.  After a failed [Authenticate] of a
    non-empty credential, the in-process cache holds no entry that a
    later call would return for it: every later call reaches the
    repository again.  The failure also records no use of the key. *)
Theorem failure_not_cached (s s1 : Service) (apiKey : string) (now : Z) (e : AuthError) :
  apiKey <> "" -> Authenticate hashAPIKey s apiKey now = (inl e, s1) ->
  (forall now', now <= now' -> cache_hit s1 (hashAPIKey apiKey) now' = None) /\
  lastUsed s1 = lastUsed s /\ cacheTTL s1 = cacheTTL s.
Proof.
  intros Hkey. unfold Authenticate. apply String.eqb_neq in Hkey. rewrite Hkey.
  assert (Hdb : forall s0,
             authenticate_redis s0 (hashAPIKey apiKey) now = (inl e, s1) -> s1 = s0).
  { intros s0. rewrite authenticate_redis_db. unfold authenticate_db.
    destruct (queryAuthContext s0 (hashAPIKey apiKey)) as [r| |];
      [|by intros [= _ <-]|by intros [= _ <-]].
    destruct (IsValid r now); simpl; [done|].
    repeat case_match; by intros [= _ <-]. }
  unfold cache_hit, getFromCache.
  destruct (cache s !! hashAPIKey apiKey) as [ac0|] eqn:Hcache.
  - destruct (Z.gtb_spec (time_Sub now (CachedAt ac0)) (cacheTTL s)) as [Hold|Hfresh].
    + intros Hrest. rewrite (Hdb s Hrest). split; [|done]. intros now' Hle.
      rewrite Hcache.
      destruct (Z.gtb_spec (time_Sub now' (CachedAt ac0)) (cacheTTL s)); [done|].
      pose proof (time_Sub_mono now now' (CachedAt ac0) Hle). lia.
    + destruct (IsValid ac0 now) eqn:Hvalid; [done|].
      intros Hrest. rewrite (Hdb _ Hrest). split; [|done]. intros now' Hle.
      simpl. by rewrite lookup_delete_eq.
  - intros Hrest. rewrite (Hdb s Hrest). split; [|done]. intros now' Hle.
    by rewrite Hcache.
Qed.

(** X21.  The periodic cache cleanup is invisible to callers: an entry
    it removes is one that no lookup at that time or later would return,
    so every [Authenticate] after a cleanup has the verdict it would
    have had without it. *)
Theorem cleanupCache_neutral (s : Service) (now now' : Z) (apiKey : string) :
  now <= now' ->
  (forall keyHash, getFromCache (cleanupCache s now) keyHash now'
                   = getFromCache s keyHash now') /\
  (Authenticate hashAPIKey (cleanupCache s now) apiKey now').1
  = (Authenticate hashAPIKey s apiKey now').1.
Proof.
  intros Hle.
  assert (Hget : forall keyHash, getFromCache (cleanupCache s now) keyHash now'
                                 = getFromCache s keyHash now').
  { intros keyHash. unfold getFromCache, cleanupCache. simpl.
    destruct (cache s !! keyHash) as [ac|] eqn:Hcache.
    - destruct (Z.gtb_spec (time_Sub now (CachedAt ac)) (cacheTTL s)) as [Hold|Hfresh].
      + rewrite map_lookup_filter_None_2.
        * destruct (Z.gtb_spec (time_Sub now' (CachedAt ac)) (cacheTTL s)); [done|].
          pose proof (time_Sub_mono now now' (CachedAt ac) Hle). lia.
        * right. intros ac' Hac'. simpl. assert (ac' = ac) as -> by congruence.
          destruct (Z.gtb_spec (time_Sub now (CachedAt ac)) (cacheTTL s)); [done|lia].
      + rewrite (map_lookup_filter_Some_2 _ _ keyHash ac); [done|done|]. simpl.
        destruct (Z.gtb_spec (time_Sub now (CachedAt ac)) (cacheTTL s)); [lia|done].
    - rewrite map_lookup_filter_None_2; [done|by left]. }
  split; [done|]. unfold Authenticate.
  destruct (String.eqb apiKey ""); [done|]. rewrite Hget.
  destruct (getFromCache s (hashAPIKey apiKey) now') as [ac|].
  - destruct (IsValid ac now'); [done|]. rewrite !authenticate_redis_db.
    by apply authenticate_db_outcome.
  - rewrite !authenticate_redis_db. by apply authenticate_db_outcome.
Qed.

End WithHash.

Lemma cached_verdict_survives_example :
  let s1 := (Authenticate sample_hash sample_service "valid" 100).2 in
  Authenticate sample_hash (set_db s1 revoked_db) "valid" 200
  = (inr (stamp (sample_record "active" "active" None) 100), set_db s1 revoked_db) /\
  (Authenticate sample_hash (InvalidateCache sample_hash (set_db s1 revoked_db) "valid")
                "valid" 200).1
  = (Authenticate sample_hash (set_cache (set_db s1 revoked_db) ∅) "valid" 200).1.
Proof.
  intros s1.
  apply (cached_verdict_survives sample_hash sample_service s1 "valid" 100
           (stamp (sample_record "active" "active" None) 100)).
  - reflexivity.
  - vm_compute. discriminate.
  - reflexivity.
Defined.

Lemma failure_not_cached_example :
  (forall now', 100 <= now' ->
     cache_hit (Authenticate sample_hash sample_service "revoked" 100).2
               (sample_hash "revoked") now' = None) /\
  lastUsed (Authenticate sample_hash sample_service "revoked" 100).2
  = lastUsed sample_service /\
  cacheTTL (Authenticate sample_hash sample_service "revoked" 100).2
  = cacheTTL sample_service.
Proof.
  apply (failure_not_cached sample_hash sample_service _ "revoked" 100 ErrRevokedAPIKey).
  - discriminate.
  - reflexivity.
Defined.

Lemma cleanupCache_neutral_example :
  let s1 := (Authenticate sample_hash sample_service "valid" 100).2 in
  (forall keyHash, getFromCache (cleanupCache s1 400000000000) keyHash 400000000001
                   = getFromCache s1 keyHash 400000000001) /\
  (Authenticate sample_hash (cleanupCache s1 400000000000) "valid" 400000000001).1
  = (Authenticate sample_hash s1 "valid" 400000000001).1.
Proof.
  intros s1.
  apply (cleanupCache_neutral sample_hash s1 400000000000 400000000001 "valid"). lia.
Defined.

End AuthMore.

Module UpstreamFacts.
Import Upstream UpstreamSpec.

Lemma count_up_from (n : nat) : count_up (Z.of_nat n) = Z.of_nat <$> seq 0 n.
Proof. unfold count_up. by rewrite Nat2Z.id. Qed.

Lemma assign_ok {A : Type} (s : list A) (i : Z) (x : A) :
  0 <= i < Z.of_nat (length s) -> assign s i x = Ok (<[Z.to_nat i := x]> s).
Proof.
  intros Hi. unfold assign.
  destruct (Z.ltb_spec i 0); [lia|].
  destruct (Z.leb_spec (Z.of_nat (length s)) i); [lia|done].
Qed.

Lemma swap_if_greater_at (pre tl : list GatewayConfig) (a b : GatewayConfig) :
  swap_if_greater (pre ++ a :: b :: tl) (Z.of_nat (length pre)) =
  Ok (pre ++ (if Priority a >? Priority b then b :: a :: tl else a :: b :: tl)).
Proof.
  unfold swap_if_greater.
  rewrite (index_lookup _ (Z.of_nat (length pre)) a); [|lia|].
  2: { rewrite Nat2Z.id. by apply list_lookup_middle. }
  simpl.
  rewrite (index_lookup _ (Z.of_nat (length pre) + 1) b); [|lia|].
  2: { replace (Z.to_nat (Z.of_nat (length pre) + 1)) with (S (length pre)) by lia.
       replace (pre ++ a :: b :: tl) with ((pre ++ [a]) ++ b :: tl)
         by (by rewrite <- app_assoc).
       apply list_lookup_middle. rewrite length_app. simpl. lia. }
  simpl. destruct (Priority a >? Priority b); [|done].
  rewrite (assign_ok _ (Z.of_nat (length pre)) b).
  2: { rewrite length_app. simpl. lia. }
  simpl. rewrite assign_ok.
  2: { rewrite length_insert, length_app. simpl. lia. }
  f_equal. rewrite Nat2Z.id.
  replace (Z.to_nat (Z.of_nat (length pre) + 1)) with (length pre + 1)%nat by lia.
  replace (length pre) with (length pre + 0)%nat at 2 by lia.
  rewrite insert_app_r. simpl. by rewrite insert_app_r.
Qed.

Lemma loop_cons {S : Type} (body : S -> Z -> result S) (s : S) (i : Z) (rest : list Z) :
  loop body s (i :: rest) = (s' ← body s i; loop body s' rest).
Proof. done. Qed.

Lemma bind_Ok {A B : Type} (a : A) (k : A -> result B) : (Ok a ≫= k) = k a.
Proof. done. Qed.

Lemma loop_swap (l pre rest : list GatewayConfig) (a : GatewayConfig) :
  loop swap_if_greater (pre ++ a :: l ++ rest)
       (Z.of_nat <$> seq (length pre) (length l))
  = Ok (pre ++ bubble a l ++ rest).
Proof.
  revert pre a. induction l as [|b l IH]; intros pre a; [done|].
  change (Z.of_nat <$> seq (length pre) (length (b :: l)))
    with (Z.of_nat (length pre) :: (Z.of_nat <$> seq (S (length pre)) (length l))).
  rewrite loop_cons.
  change (pre ++ a :: (b :: l) ++ rest) with (pre ++ a :: b :: (l ++ rest)).
  rewrite swap_if_greater_at, bind_Ok. simpl bubble.
  destruct (Priority a >? Priority b).
  - specialize (IH (pre ++ [b]) a). rewrite length_app, <- !app_assoc in IH.
    replace (length pre + length [b])%nat with (S (length pre)) in IH by (simpl; lia).
    exact IH.
  - specialize (IH (pre ++ [a]) b). rewrite length_app, <- !app_assoc in IH.
    replace (length pre + length [a])%nat with (S (length pre)) in IH by (simpl; lia).
    exact IH.
Qed.

Lemma bubble_perm (a : GatewayConfig) (l : list GatewayConfig) : bubble a l ≡ₚ a :: l.
Proof.
  revert a. induction l as [|b l IH]; intros a; [done|]. simpl.
  destruct (Priority a >? Priority b).
  - rewrite IH. apply Permutation_swap.
  - by rewrite IH.
Qed.

Lemma bubble_max (a : GatewayConfig) (l : list GatewayConfig) :
  exists init m,
    bubble a l = init ++ [m] /\ Forall (fun x => by_priority x m) init /\
    by_priority a m.
Proof.
  revert a. induction l as [|b l IH]; intros a.
  { exists [], a. unfold by_priority. split_and!; [done|done|lia]. }
  simpl. destruct (Z.gtb_spec (Priority a) (Priority b)) as [Hgt|Hle].
  - destruct (IH a) as (init & m & -> & Hinit & Ham).
    exists (b :: init), m. split_and!; [done| |done].
    apply Forall_cons. split; [|done]. unfold by_priority in *. lia.
  - destruct (IH b) as (init & m & -> & Hinit & Hbm).
    exists (a :: init), m. unfold by_priority in *. split_and!; [done| |lia].
    apply Forall_cons. split; [lia|done].
Qed.

Lemma bubble_pass_spec (a : GatewayConfig) (l suf : list GatewayConfig) :
  bubble_pass (a :: l ++ suf) (Z.of_nat (length suf)) = Ok (bubble a l ++ suf).
Proof.
  unfold bubble_pass, len. simpl length. rewrite length_app.
  replace (Z.of_nat (S (length l + length suf)) - Z.of_nat (length suf) - 1)
    with (Z.of_nat (length l)) by lia.
  rewrite count_up_from. apply (loop_swap l [] suf a).
Qed.

(** The outer loop from pass [length suf] on, where the last
    [length suf] elements are already in place. *)
Lemma outer_loop (k : nat) (pre suf : list GatewayConfig) :
  length pre = S k ->
  StronglySorted by_priority suf ->
  (forall x y, x ∈ pre -> y ∈ suf -> by_priority x y) ->
  exists gs,
    loop bubble_pass (pre ++ suf) (Z.of_nat <$> seq (length suf) k) = Ok gs /\
    StronglySorted by_priority gs /\ gs ≡ₚ pre ++ suf.
Proof.
  revert pre suf. induction k as [|k IH]; intros pre suf Hlen Hsorted Hle.
  - destruct pre as [|x [|? ?]]; try done. exists (x :: suf). split_and!; try done.
    apply SSorted_cons; [done|]. apply Forall_forall. intros y Hy.
    apply Hle; [by left|done].
  - destruct pre as [|a l]; [done|]. simpl in Hlen.
    change (Z.of_nat <$> seq (length suf) (S k))
      with (Z.of_nat (length suf) :: (Z.of_nat <$> seq (S (length suf)) k)).
    simpl. rewrite bubble_pass_spec. simpl.
    destruct (bubble_max a l) as (init & m & Hbubble & Hinit & _).
    pose proof (bubble_perm a l) as Hperm. rewrite Hbubble in Hperm |- *.
    rewrite <- app_assoc. simpl.
    assert (Hm : m ∈ a :: l).
    { rewrite <- Hperm. apply elem_of_app. right. by left. }
    assert (Hin : forall x, x ∈ init -> x ∈ a :: l).
    { intros x Hx. rewrite <- Hperm. apply elem_of_app. by left. }
    destruct (IH init (m :: suf)) as (gs & Hloop & Hgs & Hpermgs).
    + apply Permutation_length in Hperm. rewrite length_app in Hperm.
      simpl in Hperm. lia.
    + apply SSorted_cons; [done|]. apply Forall_forall. intros y Hy. by apply Hle.
    + intros x y Hx Hy. apply elem_of_cons in Hy as [->|Hy].
      * by apply (proj1 (Forall_forall _ _) Hinit).
      * apply Hle; [by apply Hin|done].
    + exists gs. split; [done|]. split; [done|].
      rewrite Hpermgs. change (a :: l ++ suf) with ((a :: l) ++ suf).
      rewrite <- Hperm, <- app_assoc. done.
Qed.

(** X22.  [sortGatewaysByPriority] returns, without an index out of
    range, and its result is the gateways in ascending priority: a
    permutation of the input in which no gateway is followed by one of
    lower priority. *)
Theorem sortGatewaysByPriority_sorts (gs : list GatewayConfig) :
  exists gs',
    sortGatewaysByPriority gs = Ok gs' /\
    StronglySorted by_priority gs' /\ gs' ≡ₚ gs.
Proof.
  unfold sortGatewaysByPriority, len. destruct gs as [|a l].
  { exists []. split_and!; [done|constructor|done]. }
  simpl length.
  replace (Z.of_nat (S (length l)) - 1) with (Z.of_nat (length l)) by lia.
  rewrite count_up_from.
  destruct (outer_loop (length l) (a :: l) []) as (gs' & Hloop & Hsorted & Hperm).
  - done.
  - constructor.
  - intros x y _ Hy. by apply elem_of_nil in Hy.
  - rewrite app_nil_r in Hloop, Hperm. by exists gs'.
Qed.

Lemma connectToGateway_head (m : Manager) (gw : GatewayConfig)
      (rest : list GatewayConfig) (now : Z) :
  gateways m = gw :: rest ->
  connectToGateway m 0 now
  = Ok (None, set_activeGateway m (Some (connection_to gw now))).
Proof.
  intros Hgs. unfold connectToGateway, len. rewrite Hgs. simpl length.
  destruct (Z.geb_spec 0 (Z.of_nat (S (length rest)))); [lia|]. done.
Qed.

(** X23.  [Start] without gateways returns the error and changes
    nothing.  With gateways it returns no error, leaves them sorted by
    ascending priority, and the connection it makes is to one of the
    given gateways of the lowest priority value; it never reaches the
    failover. *)
Theorem Start_connects_to_best (m : Manager) (now : Z) :
  (gateways m = [] -> Start m now = Ok (Some "no gateways configured", m)) /\
  (gateways m <> [] ->
   exists gw rest,
     Start m now
     = Ok (None, set_activeGateway (set_gateways m (gw :: rest))
                   (Some (connection_to gw now))) /\
     gw :: rest ≡ₚ gateways m /\
     StronglySorted by_priority (gw :: rest) /\
     (forall g, g ∈ gateways m -> Priority gw <= Priority g)).
Proof.
  split.
  - intros Hnil. unfold Start. by rewrite Hnil.
  - intros Hne. unfold Start, len.
    destruct (gateways m) as [|g0 gs0] eqn:Hgs; [done|]. simpl length.
    destruct (Z.eqb_spec (Z.of_nat (S (length gs0))) 0); [lia|].
    destruct (sortGatewaysByPriority_sorts (g0 :: gs0)) as (gs' & -> & Hsorted & Hperm).
    rewrite bind_Ok.
    destruct gs' as [|gw rest].
    { apply Permutation_length in Hperm. done. }
    rewrite (connectToGateway_head (set_gateways m (gw :: rest)) gw rest now) by done.
    exists gw, rest. split_and!; try done.
    intros g Hg. rewrite <- Hperm in Hg. apply elem_of_cons in Hg as [->|Hg].
    + unfold by_priority. lia.
    + apply StronglySorted_inv in Hsorted as [_ Hall].
      by apply (proj1 (Forall_forall _ _) Hall).
Qed.

(** X24.  [failover] does nothing when a failover is already running,
    fails when there is no gateway, and otherwise always connects to the
    first gateway of the list: it never moves on to a second one. *)
Theorem failover_reconnects_to_first (m : Manager) (now : Z) :
  (reconnecting m = true -> failover m now = Ok (None, m)) /\
  (reconnecting m = false -> gateways m = [] ->
   failover m now = Ok (Some "all gateways failed", m)) /\
  (reconnecting m = false -> forall gw rest, gateways m = gw :: rest ->
   failover m now = Ok (None, set_activeGateway m (Some (connection_to gw now)))).
Proof.
  destruct m as [gs active base mx flag]. unfold failover. simpl. split_and!.
  - by intros ->.
  - by intros -> ->.
  - intros -> gw rest ->. unfold len. simpl length.
    rewrite count_up_from.
    change (Z.of_nat <$> seq 0 (S (length rest)))
      with (0 :: (Z.of_nat <$> seq 1 (length rest))).
    unfold failover_loop.
    rewrite (connectToGateway_head _ gw rest now) by done. done.
Qed.

Lemma uint_int_sub_large (attempt : Z) :
  int_min <= attempt <= int_max -> attempt <= 0 \/ 65 <= attempt ->
  64 <= uint (int_sub attempt 1).
Proof.
  intros Hrange Hcase. unfold uint, int_sub, wrap64, int_min, int_max in *.
  destruct (Z.eq_dec attempt (- 2 ^ 63)) as [->|Hne]; [by vm_compute|].
  rewrite (Z.mod_small (attempt - 1 + 2 ^ 63)) by lia.
  replace (attempt - 1 + 2 ^ 63 - 2 ^ 63) with (attempt - 1) by lia.
  destruct Hcase as [Hneg|Hbig].
  - replace (attempt - 1) with (attempt - 1 + 2 ^ 64 + (-1) * 2 ^ 64) by lia.
    rewrite Z_mod_plus_full. rewrite Z.mod_small by lia. lia.
  - rewrite Z.mod_small by lia. lia.
Qed.

(** X25.  The reconnection delay before jitter doubles with every
    attempt and is capped: for attempts 1 to 63, as long as the product
    fits an [int64], it is [min(base * 2^(attempt-1), max)], with the
    defaults of 100 ms and 30 s for delays configured as 0. *)
Theorem backoff_delay_doubles (m : Manager) (attempt : Z) :
  0 < base_of m -> 1 <= attempt <= 63 ->
  base_of m * 2 ^ (attempt - 1) <= int_max ->
  backoff_delay m attempt = Z.min (base_of m * 2 ^ (attempt - 1)) (max_of m).
Proof.
  intros Hbase Hattempt Hfits. unfold backoff_delay.
  change (int_mul 100 Millisecond) with (100 * Millisecond).
  change (int_mul 30 Second) with (30 * Second).
  fold (base_of m). fold (max_of m).
  rewrite int_sub_exact by (unfold int_min, int_max; lia).
  unfold uint. rewrite Z.mod_small by lia. unfold shl.
  destruct (Z.ltb_spec (attempt - 1) 64); [|lia].
  assert (Hpow : 0 < 2 ^ (attempt - 1) <= 2 ^ 62).
  { split; [apply Z.pow_pos_nonneg; lia|apply Z.pow_le_mono_r; lia]. }
  rewrite Z.mul_1_l.
  rewrite (wrap64_id (2 ^ (attempt - 1))) by (unfold int_min, int_max; lia).
  unfold int_mul. rewrite wrap64_id by (unfold int_min, int_max in *; nia).
  destruct (Z.gtb_spec (base_of m * 2 ^ (attempt - 1)) (max_of m)); lia.
Qed.

(** X26.  The backoff collapses.  With a maximum that is not negative,
    from the 65th consecutive attempt on (and for an attempt number of 0
    or less) the shift count is 64 or more and the delay before jitter
    is 0; at the 64th attempt the shifted one is the least [int64], and
    the delay before jitter is 0 for an even base and [-2^63] for an odd
    one. *)
Theorem backoff_delay_collapses (m : Manager) (attempt : Z) :
  int_min <= attempt <= int_max -> 0 <= max_of m ->
  (attempt <= 0 \/ 65 <= attempt -> backoff_delay m attempt = 0) /\
  (attempt = 64 ->
   backoff_delay m attempt = if Z.even (base_of m) then 0 else - 2 ^ 63).
Proof.
  intros Hrange Hmax. unfold backoff_delay.
  change (int_mul 100 Millisecond) with (100 * Millisecond).
  change (int_mul 30 Second) with (30 * Second).
  fold (base_of m). fold (max_of m). split.
  - intros Hcase. pose proof (uint_int_sub_large attempt Hrange Hcase) as Hlarge.
    unfold shl. destruct (Z.ltb_spec (uint (int_sub attempt 1)) 64); [lia|].
    unfold int_mul. rewrite Z.mul_0_r. change (wrap64 0) with 0.
    destruct (Z.gtb_spec 0 (max_of m)); [lia|done].
  - intros ->. change (shl 1 (uint (int_sub 64 1))) with (- 2 ^ 63).
    assert (Hmul : int_mul (base_of m) (- 2 ^ 63)
                   = if Z.even (base_of m) then 0 else - 2 ^ 63).
    { unfold int_mul, wrap64.
      pose proof (Z.div_mod (base_of m) 2 ltac:(lia)) as Hdiv.
      pose proof (Zmod_even (base_of m)) as Hr.
      set (q := base_of m / 2) in *. set (r := base_of m mod 2) in *.
      rewrite Hdiv at 1.
      replace ((2 * q + r) * - 2 ^ 63 + 2 ^ 63)
        with (2 ^ 63 * (1 - r) + (- q) * 2 ^ 64) by lia.
      rewrite Z_mod_plus_full.
      destruct (Z.even (base_of m)); rewrite Hr; reflexivity. }
    rewrite Hmul.
    destruct (Z.even (base_of m)).
    + destruct (Z.gtb_spec 0 (max_of m)); [lia|done].
    + destruct (Z.gtb_spec (- 2 ^ 63) (max_of m)); [lia|done].
Qed.

Lemma backoff_delay_doubles_example :
  backoff_delay sample_manager 5 = Z.min (base_of sample_manager * 2 ^ (5 - 1))
                                         (max_of sample_manager).
Proof.
  apply (backoff_delay_doubles sample_manager 5).
  - reflexivity.
  - lia.
  - vm_compute. discriminate.
Defined.

Lemma backoff_delay_collapses_example :
  backoff_delay sample_manager 65 = 0 /\
  backoff_delay sample_manager 64 = (if Z.even (base_of sample_manager) then 0 else - 2 ^ 63) /\
  backoff_delay (mkManager [] None 1 0 false) 64 = - 2 ^ 63.
Proof.
  destruct (backoff_delay_collapses sample_manager 65) as [Hzero _].
  - unfold int_min, int_max. lia.
  - vm_compute. discriminate.
  - destruct (backoff_delay_collapses sample_manager 64) as [_ Heven].
    + unfold int_min, int_max. lia.
    + vm_compute. discriminate.
    + destruct (backoff_delay_collapses (mkManager [] None 1 0 false) 64) as [_ Hodd].
      * unfold int_min, int_max. lia.
      * vm_compute. discriminate.
      * split_and!; [apply Hzero; lia|by apply Heven|by apply Hodd].
Defined.

End UpstreamFacts.

Module KeysFacts.
Import Keys KeysSpec.

Lemma byte_inj (a b : Z) : 0 <= a < 256 -> 0 <= b < 256 -> byte a = byte b -> a = b.
Proof.
  intros Ha Hb Heq. unfold byte in Heq.
  rewrite !Z.mod_small in Heq by lia.
  apply (f_equal Ascii.N_of_ascii) in Heq.
  rewrite !Ascii.N_ascii_embedding in Heq by lia. lia.
Qed.

Lemma rune_id (x : Z) : - 2 ^ 31 <= x < 2 ^ 31 -> rune x = x.
Proof. intros Hx. unfold rune. rewrite Z.mod_small; lia. Qed.

Lemma rune_period (x k : Z) : rune (x + k * 2 ^ 32) = rune x.
Proof.
  unfold rune. replace (x + k * 2 ^ 32 + 2 ^ 31) with (x + 2 ^ 31 + k * 2 ^ 32) by lia.
  by rewrite Z_mod_plus_full.
Qed.

Lemma valid_rune_spec (r : Z) :
  valid_rune r = true <-> 0 <= r <= 1114111 /\ ~ (55296 <= r <= 57343).
Proof. unfold valid_rune. lia. Qed.

(** The first byte of an encoding tells its length, and the bytes tell
    the code point: no encoding is a prefix of another. *)
Lemma utf8_prefix_free (a b : Z) (s s' : string) :
  valid_rune a = true -> valid_rune b = true ->
  utf8 a +:+ s = utf8 b +:+ s' -> a = b /\ s = s'.
Proof.
  rewrite !valid_rune_spec. intros [Ha _] [Hb _]. unfold utf8.
  destruct (Z.leb_spec a 127); [|destruct (Z.leb_spec a 2047);
                                  [|destruct (Z.leb_spec a 65535)]];
    (destruct (Z.leb_spec b 127); [|destruct (Z.leb_spec b 2047);
                                     [|destruct (Z.leb_spec b 65535)]]);
    simpl; intros Heq; simplify_eq;
    repeat match goal with
           | H : byte _ = byte _ |- _ =>
               apply byte_inj in H; [|Z.div_mod_to_equations; lia..]
           end;
    first [ exfalso; Z.div_mod_to_equations; lia
          | split; [Z.div_mod_to_equations; lia|done] ].
Qed.

Lemma string_app_nil_r (s : string) : s +:+ "" = s.
Proof.
  induction s as [|c s IH]; [done|].
  change (String c s +:+ "") with (String c (s +:+ "")). by f_equal.
Qed.

Lemma string_app_inv_head (s x y : string) : s +:+ x = s +:+ y -> x = y.
Proof. apply String.app_inj. Qed.

Lemma utf8_inj (a b : Z) :
  valid_rune a = true -> valid_rune b = true -> utf8 a = utf8 b -> a = b.
Proof.
  intros Ha Hb Heq. apply (utf8_prefix_free a b "" ""); [done|done|].
  by rewrite !string_app_nil_r.
Qed.

Lemma valid_rune_range (r : Z) : valid_rune r = true -> rune r = r.
Proof. rewrite valid_rune_spec. intros [Hr _]. apply rune_id. lia. Qed.

(** X27.  Colliding keys.  Two API key ids get the same rate-limiter
    key when they differ by a multiple of [2^32], and also when neither
    of them, cut to 32 bits, is a code point that UTF-8 can encode: all
    ids from 1114112 up to [2^31 - 1], and those from 55296 to 57343,
    share one key, the encoding of U+FFFD. *)
Theorem keyID_collisions (a b : Z) :
  (exists k, b = a + k * 2 ^ 32) \/
  (valid_rune (rune a) = false /\ valid_rune (rune b) = false) ->
  keyID a = keyID b.
Proof.
  unfold keyID, string_of_rune. intros [[k ->]|[-> ->]]; [|done].
  by rewrite rune_period.
Qed.

Lemma bufferKey_inj (t1 k1 t2 k2 : Z) :
  valid_rune t1 = true -> valid_rune k1 = true ->
  valid_rune t2 = true -> valid_rune k2 = true ->
  bufferKey t1 k1 = bufferKey t2 k2 -> t1 = t2 /\ k1 = k2.
Proof.
  intros Ht1 Hk1 Ht2 Hk2. unfold bufferKey, string_of_rune.
  rewrite !valid_rune_range by done. rewrite Ht1, Hk1, Ht2, Hk2. intros Heq.
  apply utf8_prefix_free in Heq as [-> Heq]; [|done|done].
  split; [done|]. apply string_app_inv_head in Heq. by apply utf8_inj.
Qed.

(** X28.  On ids that are code points that UTF-8 can encode (0 to
    1114111 without the surrogates) the keys are faithful: distinct ids
    get distinct rate-limiter keys, and distinct pairs of tenant and key
    id get distinct buffer keys of the usage collector. *)
Theorem keys_injective_on_code_points :
  (forall a b, valid_rune a = true -> valid_rune b = true ->
               keyID a = keyID b -> a = b) /\
  (forall t1 k1 t2 k2,
      valid_rune t1 = true -> valid_rune k1 = true ->
      valid_rune t2 = true -> valid_rune k2 = true ->
      bufferKey t1 k1 = bufferKey t2 k2 -> t1 = t2 /\ k1 = k2).
Proof.
  split.
  - intros a b Ha Hb. unfold keyID, string_of_rune.
    rewrite !valid_rune_range by done. rewrite Ha, Hb. by apply utf8_inj.
  - apply bufferKey_inj.
Qed.

Lemma string_of_rune_head (r : Z) :
  (0 <= r <= 127 /\ string_of_rune r = String (byte r) "") \/
  (exists c s, string_of_rune r = String (byte c) s /\ 192 <= c <= 247).
Proof.
  unfold string_of_rune. destruct (valid_rune r) eqn:Hvalid.
  - apply valid_rune_spec in Hvalid as [Hr _]. unfold utf8.
    destruct (Z.leb_spec r 127); [left; split; [lia|done]|]. right.
    destruct (Z.leb_spec r 2047); [|destruct (Z.leb_spec r 65535)];
      eexists _, _; (split; [done|]); Z.div_mod_to_equations; lia.
  - right. eexists _, _. split; [done|]. vm_compute. split; discriminate.
Qed.

Lemma digits_head (fuel : nat) (n : Z) (acc : string) :
  0 <= n -> (0 < fuel)%nat ->
  exists d s, digits fuel n acc = String (byte d) s /\ 48 <= d <= 57 /\
              (acc <> "" -> s <> "").
Proof.
  revert n acc. induction fuel as [|fuel IH]; intros n acc Hn Hfuel; [lia|].
  simpl. destruct (Z.ltb_spec n 10).
  - eexists _, acc. split; [done|]. split; [Z.div_mod_to_equations; lia|done].
  - destruct fuel as [|fuel'].
    + simpl. eexists _, acc. split; [done|].
      split; [Z.div_mod_to_equations; lia|done].
    + destruct (IH (n / 10) (String (byte (48 + n mod 10)) acc))
        as (d & s & Hd & Hrange & Htail); [Z.div_mod_to_equations; lia|lia|].
      exists d, s. split; [done|]. split; [done|]. intros _. by apply Htail.
Qed.

Lemma Itoa_head (n : Z) :
  0 <= n ->
  exists d s, Itoa n = String (byte d) s /\ 48 <= d <= 57 /\
              (n < 10 -> d = 48 + n /\ s = "") /\ (10 <= n -> s <> "").
Proof.
  intros Hn. unfold Itoa.
  change (digits 20 n "") with
    (let acc' := String (byte (48 + n mod 10)) "" in
     if n <? 10 then acc' else digits 19 (n / 10) acc').
  cbv zeta. destruct (Z.ltb_spec n 10).
  - eexists _, _. split; [done|]. rewrite Z.mod_small by lia.
    split_and!; [lia|lia|done|lia].
  - destruct (digits_head 19 (n / 10) (String (byte (48 + n mod 10)) ""))
      as (d & s & Hd & Hrange & Htail); [Z.div_mod_to_equations; lia|lia|].
    exists d, s. split_and!; [done|lia|lia|lia|]. intros _. by apply Htail.
Qed.

(** X29.  The listen addresses.  The address that the HTTP server
    builds from its port is never the host, a colon and the port in
    decimal.  The address that the gRPC server builds is the colon and
    the port in decimal for the ports 0 to 9 only. *)
Theorem listen_addr_not_decimal (Host : string) (port : Z) :
  0 <= port ->
  listen_addr Host port <> Host +:+ ":" +:+ Itoa port /\
  (port <= 9 -> grpc_listen_addr port = ":" +:+ Itoa port) /\
  (10 <= port -> grpc_listen_addr port <> ":" +:+ Itoa port).
Proof.
  intros Hport. destruct (Itoa_head port Hport) as (d & s & Hitoa & Hd & Hsmall & Hbig).
  split_and!.
  - unfold listen_addr. intros Heq. do 2 apply string_app_inv_head in Heq.
    rewrite Hitoa in Heq.
    destruct (string_of_rune_head (rune port)) as [[Hr Hone]|(c & s' & Hmany & Hc)].
    + rewrite Hone in Heq. injection Heq as Hbyte Htail.
      apply byte_inj in Hbyte; [|lia|lia].
      destruct (Z.lt_ge_cases port 10) as [Hlt|Hge].
      * rewrite rune_id in Hbyte by lia. lia.
      * by apply Hbig.
    + rewrite Hmany in Heq. injection Heq as Hbyte _.
      apply byte_inj in Hbyte; lia.
  - intros Hle. unfold grpc_listen_addr. f_equal.
    destruct Hsmall as [-> ->]; [lia|]. rewrite Hitoa.
    rewrite int_add_exact by (unfold int_min, int_max; lia).
    rewrite rune_id by lia. unfold string_of_rune, utf8.
    replace (valid_rune (port + 48)) with true by (symmetry; apply valid_rune_spec; lia).
    destruct (Z.leb_spec (port + 48) 127); [|lia]. f_equal. f_equal. lia.
  - intros Hge. unfold grpc_listen_addr. intros Heq.
    apply string_app_inv_head in Heq. rewrite Hitoa in Heq.
    destruct (string_of_rune_head (rune (int_add port 48)))
      as [[Hr Hone]|(c & s' & Hmany & Hc)].
    + rewrite Hone in Heq. injection Heq as _ Htail. by apply Hbig.
    + rewrite Hmany in Heq. injection Heq as Hbyte _.
      apply byte_inj in Hbyte; lia.
Qed.

Lemma keyID_collisions_example : keyID 1114112 = keyID 2000000.
Proof. apply keyID_collisions. right. split; reflexivity. Defined.

Lemma listen_addr_not_decimal_example :
  listen_addr "0.0.0.0" 8080 <> "0.0.0.0" +:+ ":" +:+ Itoa 8080 /\
  (8080 <= 9 -> grpc_listen_addr 8080 = ":" +:+ Itoa 8080) /\
  (10 <= 8080 -> grpc_listen_addr 8080 <> ":" +:+ Itoa 8080).
Proof. apply (listen_addr_not_decimal "0.0.0.0" 8080). lia. Defined.

End KeysFacts.

Module UsageFacts.
Import Keys Usage UsageSpec KeysFacts.

Lemma count_snoc (p : usage_op -> bool) (ops : list usage_op) (o : usage_op) :
  count p (ops ++ [o]) = count p ops + (if p o then 1 else 0).
Proof. induction ops as [|o' ops IH]; simpl; [lia|]. rewrite IH. lia. Qed.

Lemma count_le (p q : usage_op -> bool) (ops : list usage_op) :
  (forall o, p o = true -> q o = true) -> 0 <= count p ops <= count q ops.
Proof.
  intros Hpq. induction ops as [|o ops IH]; simpl; [lia|].
  specialize (Hpq o). destruct (p o), (q o); first [lia | by specialize (Hpq eq_refl)].
Qed.

Lemma is_request_on (t k : Z) (o : usage_op) : is_request t k o = true -> is_on t k o = true.
Proof. by destruct o. Qed.

Lemma is_message_on (t k : Z) (o : usage_op) : is_message t k o = true -> is_on t k o = true.
Proof. by destruct o. Qed.

Lemma is_error_on (t k : Z) (o : usage_op) : is_error t k o = true -> is_on t k o = true.
Proof. by destruct o. Qed.

Lemma is_on_ids (t k : Z) (o : usage_op) : is_on t k o = true <-> op_ids o = (t, k).
Proof.
  unfold is_on. destruct (op_ids o) as [t' k']. simpl. split.
  - intros H. f_equal; lia.
  - intros [= -> ->]. lia.
Qed.

Lemma usage_step_buffer (c : Collector) (o : usage_op) :
  exists buf',
    buffer (usage_step c o)
    = <[bufferKey (op_ids o).1 (op_ids o).2 := buf']> (buffer c) /\
    TenantID buf' = TenantID (touched c o) /\
    APIKeyID buf' = APIKeyID (touched c o) /\
    Requests buf' = (if is_request (op_ids o).1 (op_ids o).2 o
                     then int_add (Requests (touched c o)) 1
                     else Requests (touched c o)) /\
    Messages buf' = (if is_message (op_ids o).1 (op_ids o).2 o
                     then int_add (Messages (touched c o)) 1
                     else Messages (touched c o)) /\
    Errors buf' = (if is_error (op_ids o).1 (op_ids o).2 o
                   then int_add (Errors (touched c o)) 1
                   else Errors (touched c o)).
Proof.
  unfold touched.
  destruct o as [t k|t k|t k|t k ms|t k cur]; simpl;
    unfold RecordRequest, RecordMessage, RecordError, RecordLatency,
      UpdatePeakStreams, getOrCreateBuffer, store;
    rewrite ?Z.eqb_refl; simpl;
    destruct (buffer c !! bufferKey t k) as [buf|] eqn:Hbuf; simpl;
    try (eexists; split; [try rewrite insert_insert_eq; reflexivity|done]).
  - destruct (cur <=? PeakConcurrentStreams buf).
    + exists buf. split; [by rewrite insert_id|done].
    + eexists. split; [reflexivity|done].
  - destruct (cur <=? 0); simpl.
    + eexists. split; [reflexivity|done].
    + eexists. split; [by rewrite insert_insert_eq|done].
Qed.

Lemma accounts_step (c : Collector) (ops : list usage_op) (o : usage_op) :
  accounts c ops -> valid_op o -> accounts (usage_step c o) (ops ++ [o]).
Proof.
  intros Hacc [Hvt Hvk].
  destruct (usage_step_buffer c o) as (buf' & Hbuffer & Hten & Hkey & Hreq & Hmsg & Herr).
  set (t0 := (op_ids o).1) in *. set (k0 := (op_ids o).2) in *.
  assert (Hon0 : is_on t0 k0 o = true) by (apply is_on_ids; by destruct (op_ids o)).
  assert (Hids0 : TenantID (touched c o) = t0 /\ APIKeyID (touched c o) = k0).
  { unfold touched. fold t0 k0.
    destruct (buffer c !! bufferKey t0 k0) as [buf|] eqn:Hbuf; [|done].
    by destruct (acc_some c ops Hacc t0 k0 buf Hvt Hvk Hbuf) as (? & ? & _). }
  destruct Hids0 as [Hten0 Hkey0].
  assert (Hother : forall t k, valid_rune t = true -> valid_rune k = true ->
                     bufferKey t k <> bufferKey t0 k0 -> is_on t k o = false).
  { intros t k Ht Hk Hne. destruct (is_on t k o) eqn:Hon; [|done].
    apply is_on_ids in Hon. exfalso. apply Hne. unfold t0, k0. by rewrite Hon. }
  split.
  - intros t k Ht Hk. rewrite Hbuffer.
    destruct (decide (bufferKey t0 k0 = bufferKey t k)) as [Heq|Hne].
    { rewrite Heq. by rewrite lookup_insert_eq. }
    rewrite lookup_insert_ne by done. intros Hnone.
    rewrite count_snoc, (acc_none c ops Hacc t k Ht Hk Hnone).
    by rewrite (Hother t k Ht Hk) by done.
  - intros t k buf Ht Hk. rewrite Hbuffer.
    destruct (decide (bufferKey t0 k0 = bufferKey t k)) as [Heq|Hne].
    + rewrite Heq, lookup_insert_eq. intros [= <-].
      destruct (bufferKey_inj t0 k0 t k Hvt Hvk Ht Hk Heq) as [<- <-].
      rewrite !count_snoc, Hon0, Hten, Hkey, Hreq, Hmsg, Herr.
      pose proof (count_le (is_on t0 k0) (is_on t0 k0) ops ltac:(done)) as Hnonneg.
      unfold touched. fold t0 k0.
      destruct (buffer c !! bufferKey t0 k0) as [buf0|] eqn:Hbuf0.
      * destruct (acc_some c ops Hacc t0 k0 buf0 Hvt Hvk Hbuf0)
          as (Hid1 & Hid2 & _ & -> & -> & ->).
        unfold int_add. rewrite !wrap64_add_l.
        split_and!; try done; try lia.
        -- destruct (is_request t0 k0 o); [done|by rewrite Z.add_0_r].
        -- destruct (is_message t0 k0 o); [done|by rewrite Z.add_0_r].
        -- destruct (is_error t0 k0 o); [done|by rewrite Z.add_0_r].
      * pose proof (acc_none c ops Hacc t0 k0 Hvt Hvk Hbuf0) as Hzero.
        pose proof (count_le _ _ ops (is_request_on t0 k0)) as Hr.
        pose proof (count_le _ _ ops (is_message_on t0 k0)) as Hm.
        pose proof (count_le _ _ ops (is_error_on t0 k0)) as He.
        replace (count (is_request t0 k0) ops) with 0 by lia.
        replace (count (is_message t0 k0) ops) with 0 by lia.
        replace (count (is_error t0 k0) ops) with 0 by lia.
        simpl. split_and!; try done; try lia.
        -- by destruct (is_request t0 k0 o).
        -- by destruct (is_message t0 k0 o).
        -- by destruct (is_error t0 k0 o).
    + rewrite lookup_insert_ne by done. intros Hbuf.
      destruct (acc_some c ops Hacc t k buf Ht Hk Hbuf)
        as (Hbt & Hbk & Hpos & Hbr & Hbm & Hbe).
      assert (Hoff : is_on t k o = false) by (by apply Hother).
      rewrite !count_snoc, Hoff.
      assert (is_request t k o = false) as ->.
      { destruct (is_request t k o) eqn:E; [|done].
        apply is_request_on in E. congruence. }
      assert (is_message t k o = false) as ->.
      { destruct (is_message t k o) eqn:E; [|done].
        apply is_message_on in E. congruence. }
      assert (is_error t k o = false) as ->.
      { destruct (is_error t k o) eqn:E; [|done].
        apply is_error_on in E. congruence. }
      rewrite !Z.add_0_r. by split_and!.
  - intros key buf. rewrite Hbuffer.
    destruct (decide (bufferKey t0 k0 = key)) as [<-|Hne].
    + rewrite lookup_insert_eq. intros [= <-]. rewrite Hten, Hkey, Hten0, Hkey0. done.
    + rewrite lookup_insert_ne by done. apply Hacc.
Qed.

Lemma accounts_run (fi : Z) (ops : list usage_op) :
  Forall valid_op ops -> accounts (usage_run (NewCollector fi) ops) ops.
Proof.
  induction ops as [|o ops IH] using rev_ind; intros Hvalid.
  - split; simpl; done.
  - apply Forall_app in Hvalid as [Hops Ho]. apply Forall_cons in Ho as [Ho _].
    unfold usage_run. rewrite foldl_snoc. apply accounts_step; [by apply IH|done].
Qed.

Lemma rows_of_others (t k : Z) (l : list (string * UsageBuffer)) :
  (forall key buf, (key, buf) ∈ l -> ~ (TenantID buf = t /\ APIKeyID buf = k)) ->
  rows_of t k (flush_row <$> l.*2) = [].
Proof.
  unfold rows_of. induction l as [|[key buf] l IH]; intros Hl; [done|].
  simpl. rewrite filter_cons_False.
  - apply IH. intros key' buf' Hin. apply (Hl key' buf'). by right.
  - simpl. apply (Hl key buf). by left.
Qed.

(** X30.  Usage is attributed to the pair that caused it.  After any
    calls of the recording functions on a new collector, with ids that
    are code points that UTF-8 can encode, [Flush] upserts exactly one
    row for each pair of tenant and key id that was recorded and none
    for the others; the row carries the ids of the pair, and its
    request, message and error counts are the numbers of the pair's
    calls.  The collector is empty afterwards. *)
Theorem usage_attribution (fi : Z) (ops : list usage_op) (t k : Z) :
  Forall valid_op ops -> valid_rune t = true -> valid_rune k = true ->
  let c := usage_run (NewCollector fi) ops in
  (count (is_on t k) ops = 0 -> rows_of t k (Flush c).1 = []) /\
  (0 < count (is_on t k) ops ->
   exists row,
     rows_of t k (Flush c).1 = [row] /\
     row_TenantID row = t /\ row_APIKeyID row = k /\
     row_Requests row = wrap64 (count (is_request t k) ops) /\
     row_Messages row = wrap64 (count (is_message t k) ops) /\
     row_Errors row = wrap64 (count (is_error t k) ops)) /\
  buffer (Flush c).2 = ∅.
Proof.
  intros Hvalid Ht Hk c. pose proof (accounts_run fi ops Hvalid) as Hacc.
  fold c in Hacc. unfold Flush. simpl.
  assert (Hkey : forall key buf, buffer c !! key = Some buf ->
                   TenantID buf = t /\ APIKeyID buf = k -> key = bufferKey t k).
  { intros key buf Hbuf [<- <-]. by apply (acc_keys c ops Hacc key buf). }
  split_and!; [| |done].
  - intros Hzero. apply rows_of_others. intros key buf Hin Hids.
    apply elem_of_map_to_list in Hin.
    pose proof (Hkey key buf Hin Hids) as ->.
    destruct (acc_some c ops Hacc t k buf Ht Hk Hin) as (_ & _ & Hpos & _). lia.
  - intros Hpos.
    destruct (buffer c !! bufferKey t k) as [buf|] eqn:Hbuf.
    2: { pose proof (acc_none c ops Hacc t k Ht Hk Hbuf). lia. }
    destruct (acc_some c ops Hacc t k buf Ht Hk Hbuf)
      as (Hbt & Hbk & _ & Hbr & Hbm & Hbe).
    exists (flush_row buf). split; [|done].
    apply Permutation_singleton_r. unfold rows_of.
    rewrite <- (map_to_list_delete (buffer c) (bufferKey t k) buf Hbuf).
    rewrite !fmap_cons. rewrite filter_cons_True by done.
    assert (Hnil : rows_of t k (flush_row <$>
                     (map_to_list (delete (bufferKey t k) (buffer c))).*2) = []).
    { apply rows_of_others. intros key buf' Hin Hids.
      apply elem_of_map_to_list in Hin.
      apply lookup_delete_Some in Hin as [Hne Hin].
      apply Hne. symmetry. by apply (Hkey key buf'). }
    unfold rows_of in Hnil. by rewrite Hnil.
Qed.

Lemma usage_attribution_example :
  let c := usage_run (NewCollector 0)
             [URequest 1 7; UMessage 1 7; URequest 2 9; URequest 1 7] in
  (count (is_on 1 7) [URequest 1 7; UMessage 1 7; URequest 2 9; URequest 1 7] = 0 ->
   rows_of 1 7 (Flush c).1 = []) /\
  (0 < count (is_on 1 7) [URequest 1 7; UMessage 1 7; URequest 2 9; URequest 1 7] ->
   exists row,
     rows_of 1 7 (Flush c).1 = [row] /\
     row_TenantID row = 1 /\ row_APIKeyID row = 7 /\
     row_Requests row = wrap64 2 /\ row_Messages row = wrap64 1 /\
     row_Errors row = wrap64 0) /\
  buffer (Flush c).2 = ∅.
Proof.
  apply (usage_attribution 0 [URequest 1 7; UMessage 1 7; URequest 2 9; URequest 1 7] 1 7).
  - repeat (apply Forall_cons; split); try apply Forall_nil; by split.
  - reflexivity.
  - reflexivity.
Defined.

End UsageFacts.
